(** * over-the-wire: the real-time PCM streaming pipeline

    A shallow embedding of the audio utilities ([lib/audioUtils]), the
    stand-alone WAV converter ([pcm-to-wav-converter.js]), the capture
    worklet ([public/pcm-processor.js]), the playback scheduler of the
    [Connections] component, the capture and recording handlers of
    [App.tsx], the store of recordings ([lib/indexedDB], [useRecordings])
    and the naming of saved files ([lib/saveToFile]), followed by the
    properties checked against the written specification.

    Modelling conventions.
    - A JavaScript [Number] that holds sample or volume data is a binary64
      primitive float, and arithmetic on it is the primitive binary64
      arithmetic; [Float32Array] elements are the binary64 floats that
      are binary32 values ([is_float32]), a store into one rounds with
      [fround].
    - A [Number] that is only ever an integer (lengths, offsets, header
      fields, [Int16Array] elements) is a [Z].
    - Times of the audio clock ([currentTime], [nextPlayTime], chunk
      durations, timer delays) are binary64 floats as well, added and
      compared with the primitive operations.
    - An [ArrayBuffer] is a list of bytes; an exception that the code can
      meet is an explicit [None]. *)

From Stdlib Require Import ZArith QArith Qround Qabs Qminmax Qpower Lia Lqa.
From Stdlib Require Import Strings.String Strings.Ascii Strings.Byte.
From Stdlib Require Import Floats.
From Stdlib Require Import OrderedTypeEx.
From stdpp Require Import base option list strings gmap sorting.

Set Warnings "-abstract-large-number,-inexact-float".

#[local] Open Scope Z_scope.

(* ===================================================================== *)
(** * Definitions                                                        *)
(* ===================================================================== *)

(** ** Numbers and typed arrays of the platform *)

Module Js.

(** A [Number] holding non-integer data. *)
Abbreviation num := float.

(** The rational value of a finite float (0 for the non-finite ones,
    whose callers test for them first). *)
Definition value (x : num) : Q :=
  match Prim2SF x with
  | S754_finite s m e => inject_Z (cond_Zopp s (Zpos m)) * Qpower 2 e
  | _ => 0
  end.

(** An integer (of absolute value below 2^53) as a [Number]. *)
Definition of_int (z : Z) : num :=
  match z with
  | Z0 => 0%float
  | Zpos _ => of_uint63 (Uint63.of_Z z)
  | Zneg p => (- of_uint63 (Uint63.of_Z (Zpos p)))%float
  end.

(** [Math.fround]: round to the nearest binary32 value, ties to even;
    this is what a store into a [Float32Array] does. *)
Definition fround (x : num) : num :=
  match Prim2SF x with
  | S754_finite s m e => SF2Prim (binary_round 24 128 s m e)
  | _ => x
  end.

(** The binary64 floats that are binary32 values, the possible elements
    of a [Float32Array]: NaN, the infinities, the zeros, and the finite
    m * 2^e that can be written with a mantissa below 2^24 and an
    exponent of at least -149, below 2^128 in magnitude. *)
Definition is_float32 (x : num) : bool :=
  match Prim2SF x with
  | S754_finite _ m e =>
      (Zpos m mod 2 ^ Z.max 29 (-149 - e) =? 0) && (e <=? 75)
  | _ => true
  end.

(** [Math.min] and [Math.max] of two arguments: NaN when either is NaN,
    and -0 counts as smaller than +0. *)
Definition Math_min (a b : num) : num :=
  if is_nan a || is_nan b then nan
  else if (a <? b)%float then a
  else if (b <? a)%float then b
  else if get_sign a then a else b.

Definition Math_max (a b : num) : num :=
  if is_nan a || is_nan b then nan
  else if (a <? b)%float then b
  else if (b <? a)%float then a
  else if get_sign a then b else a.

(** [Math.round]: the nearest integer, ties towards positive infinity.
    NaN and the infinities are returned unchanged: [None]. *)
Definition Math_round (v : num) : option Z :=
  match Prim2SF v with
  | S754_nan | S754_infinity _ => None
  | _ => Some (Qfloor (value v + (1 # 2)))
  end.

(** Integer conversions performed by typed-array and [DataView] stores. *)
Definition ToUint8 (z : Z) : Z := z mod 256.
Definition ToUint16 (z : Z) : Z := z mod 65536.
Definition ToUint32 (z : Z) : Z := z mod 4294967296.
Definition ToInt16 (z : Z) : Z :=
  let r := z mod 65536 in if 32768 <=? r then r - 65536 else r.

Abbreviation ArrayBuffer := (list byte).

Definition byte_of_Z (z : Z) : byte :=
  match Byte.of_N (Z.to_N (ToUint8 z)) with
  | Some b => b
  | None => x00
  end.

Definition Z_of_byte (b : byte) : Z := Z.of_N (Byte.to_N b).

(** *** [DataView] over an [ArrayBuffer]

    Every accessor raises [RangeError] when the access does not fit in
    the buffer: [None] here. *)

Definition setUint8 (view : ArrayBuffer) (byteOffset : nat) (v : Z)
  : option ArrayBuffer :=
  if (byteOffset <? length view)%nat
  then Some (<[byteOffset := byte_of_Z v]> view)
  else None.

Definition setUint16 (view : ArrayBuffer) (byteOffset : nat) (v : Z)
    (littleEndian : bool) : option ArrayBuffer :=
  let u := ToUint16 v in
  let '(b0, b1) := if littleEndian then (u, u / 256) else (u / 256, u) in
  if (byteOffset + 2 <=? length view)%nat
  then Some (<[S byteOffset := byte_of_Z b1]>
               (<[byteOffset := byte_of_Z b0]> view))
  else None.

(** [setInt16] stores the two's complement of its argument: the same
    bytes as [setUint16]. *)
Definition setInt16 (view : ArrayBuffer) (byteOffset : nat) (v : Z)
    (littleEndian : bool) : option ArrayBuffer :=
  setUint16 view byteOffset (ToInt16 v) littleEndian.

Definition setUint32 (view : ArrayBuffer) (byteOffset : nat) (v : Z)
    (littleEndian : bool) : option ArrayBuffer :=
  let u := ToUint32 v in
  let '(b0, b1, b2, b3) :=
    if littleEndian
    then (u, u / 256, u / 65536, u / 16777216)
    else (u / 16777216, u / 65536, u / 256, u) in
  if (byteOffset + 4 <=? length view)%nat
  then Some (<[S (S (S byteOffset)) := byte_of_Z b3]>
               (<[S (S byteOffset) := byte_of_Z b2]>
                  (<[S byteOffset := byte_of_Z b1]>
                     (<[byteOffset := byte_of_Z b0]> view))))
  else None.

Definition getUint32 (view : ArrayBuffer) (byteOffset : nat)
    (littleEndian : bool) : option Z :=
  b0 ← view !! byteOffset;
  b1 ← view !! S byteOffset;
  b2 ← view !! S (S byteOffset);
  b3 ← view !! S (S (S byteOffset));
  let '(c0, c1, c2, c3) :=
    if littleEndian then (b0, b1, b2, b3) else (b3, b2, b1, b0) in
  Some (Z_of_byte c0 + 256 * Z_of_byte c1 + 65536 * Z_of_byte c2
        + 16777216 * Z_of_byte c3).

(** [string.charCodeAt] for the ASCII strings of the sources. *)
Definition charCode (c : ascii) : Z := Z.of_N (N_of_ascii c).

(** *** Typed arrays *)

(** The elements seen through an [Int16Array] view (little-endian, as on
    every platform the application runs on). *)
Fixpoint int16_elements (bytes : ArrayBuffer) : list Z :=
  match bytes with
  | lo :: hi :: rest =>
      ToInt16 (Z_of_byte lo + 256 * Z_of_byte hi) :: int16_elements rest
  | _ => []
  end.

(** [new Int16Array(arrayBuffer)] raises [RangeError] when the byte
    length of the buffer is not a multiple of 2. *)
Definition new_Int16Array (arrayBuffer : ArrayBuffer) : option (list Z) :=
  if Nat.even (length arrayBuffer)
  then Some (int16_elements arrayBuffer)
  else None.

(** The argument of the functions that take
    [Float32Array | Int16Array]. *)
Inductive TypedArray : Type :=
| Float32Array (elements : list num)
| Int16Array (elements : list Z).

End Js.

(** ** lib/audioUtils *)

Module AudioUtils.
Import Js.

Definition SAMPLE_RATE : Z := 16000.
Definition BITS_PER_SAMPLE : Z := 16.
Definition BYTES_PER_SAMPLE : Z := 2.

(** The body of the loop of [floatToPCM16]:
    [clamped = Math.max(-1, Math.min(1, floatSamples[i]))] and
    [pcmSamples[i] = Math.round(clamped * 32767)], the product being the
    binary64 one. The store into the [Int16Array] wraps an integer to 16
    bits and turns NaN and the infinities into 0. *)
Definition floatToPCM16_at (x : num) : Z :=
  let clamped := Math_max (-1) (Math_min 1 x) in
  match Math_round (clamped * 32767) with
  | Some n => ToInt16 n
  | None => 0
  end.

Definition floatToPCM16 (floatSamples : list num) : list Z :=
  map floatToPCM16_at floatSamples.

(** The body of the loop of [pcm16ToFloat]:
    [floatSamples[i] = pcmSamples[i] / 32767], a binary64 division whose
    result is rounded to binary32 by the store. *)
Definition pcm16ToFloat_at (s : Z) : num :=
  fround (of_int s / 32767)%float.

Definition pcm16ToFloat (pcmSamples : list Z) : list num :=
  map pcm16ToFloat_at pcmSamples.

Definition calculateVolume (samples : TypedArray) : num :=
  let maxValue :=
    match samples with Float32Array _ => 1 | Int16Array _ => 32767 end%float in
  let elements :=
    match samples with
    | Float32Array l => l
    | Int16Array l => map of_int l
    end in
  let sum :=
    fold_left
      (fun sum sample =>
         let normalizedSample := (sample / maxValue)%float in
         (sum + normalizedSample * normalizedSample)%float)
      elements 0%float in
  let rms := sqrt (sum / of_int (Z.of_nat (length elements)))%float in
  (rms * 100)%float.

(** Vocabulary for the round-trip property: a decidable test that the
    decoded sample is within 1/65534 of [k / 32767], and its conjunction
    over [n] consecutive integers from [k] on. *)
Definition decode_close (k : Z) : bool :=
  Qle_bool (Qabs (value (pcm16ToFloat_at k) - inject_Z k / 32767))
           (1 # 65534).

Fixpoint forall_from (f : Z -> bool) (n : nat) (k : Z) : bool :=
  match n with
  | O => true
  | S n' => f k && forall_from f n' (k + 1)
  end.

(** The local helper [writeString] of [pcmToWav]:
    [view.setUint8(offset + i, string.charCodeAt(i))] for each [i]. *)
Fixpoint writeString (view : ArrayBuffer) (offset : nat) (s : string)
  : option ArrayBuffer :=
  match s with
  | EmptyString => Some view
  | String c s' =>
      view' ← setUint8 view offset (charCode c);
      writeString view' (S offset) s'
  end.

(** The final loop of [pcmToWav], from index [i] on:
    [view.setInt16(44 + i * 2, pcmSamples[i], true)]. *)
Fixpoint writeSamples (view : ArrayBuffer) (i : nat) (pcmSamples : list Z)
  : option ArrayBuffer :=
  match pcmSamples with
  | [] => Some view
  | s :: rest =>
      view' ← setInt16 view (44 + i * 2) s true;
      writeSamples view' (S i) rest
  end.

Definition pcmToWav (pcmSamples : list Z) (sampleRate numChannels : Z)
  : option ArrayBuffer :=
  let bufferLength := (44 + length pcmSamples * 2)%nat in
  let view := replicate bufferLength x00 in
  (* RIFF header *)
  view ← writeString view 0 "RIFF";
  view ← setUint32 view 4 (Z.of_nat bufferLength - 8) true;
  view ← writeString view 8 "WAVE";
  (* fmt chunk *)
  view ← writeString view 12 "fmt ";
  view ← setUint32 view 16 16 true;
  view ← setUint16 view 20 1 true;
  view ← setUint16 view 22 numChannels true;
  view ← setUint32 view 24 sampleRate true;
  view ← setUint32 view 28 (sampleRate * numChannels * 2) true;
  view ← setUint16 view 32 (numChannels * 2) true;
  view ← setUint16 view 34 16 true;
  (* data chunk *)
  view ← writeString view 36 "data";
  view ← setUint32 view 40 (Z.of_nat (length pcmSamples) * 2) true;
  (* PCM data *)
  writeSamples view 0 pcmSamples.

(** [calculatePeakVolume]; [Math.abs] is the absolute value of the
    float. *)
Definition calculatePeakVolume (samples : TypedArray) : num :=
  let maxValue :=
    match samples with Float32Array _ => 1 | Int16Array _ => 32767 end%float in
  let elements :=
    match samples with
    | Float32Array l => l
    | Int16Array l => map of_int l
    end in
  let maxAmplitude :=
    fold_left
      (fun maxAmplitude sample => Math_max maxAmplitude (abs sample))
      elements 0%float in
  (maxAmplitude / maxValue * 100)%float.

(** Vocabulary: the largest magnitude among integer samples, and what is
    checked by computation of the peak volume percentage for one
    magnitude [M]: it is finite, not negative, at most 100 exactly when
    [M] is at most 32767, and within 10^-12 of 100 M / 32767. *)
Definition max_abs (pcmSamples : list Z) : Z :=
  fold_left (fun m s => Z.max m (Z.abs s)) pcmSamples 0.

Definition peak_check (M : Z) : bool :=
  let r := (of_int M / 32767 * 100)%float in
  is_finite r
  && Qle_bool 0 (value r)
  && Bool.eqb (Qle_bool (value r) 100) (M <=? 32767)
  && Qle_bool (Qabs (value r - inject_Z (100 * M) / 32767))
       (1 # 1000000000000).

End AudioUtils.

(** ** pcm-to-wav-converter.js *)

Module WavConverter.
Import Js.

(** [Buffer.write(string, offset)]: the bytes of the string, cut where
    the buffer ends. *)
Fixpoint write (buf : ArrayBuffer) (s : string) (offset : nat)
  : ArrayBuffer :=
  match s with
  | EmptyString => buf
  | String c s' => write (<[offset := byte_of_Z (charCode c)]> buf) s' (S offset)
  end.

(** [Buffer.writeUInt32LE] and [writeUInt16LE] raise when the value or
    the offset is out of range. *)
Definition writeUInt32LE (buf : ArrayBuffer) (v : Z) (offset : nat)
  : option ArrayBuffer :=
  if (0 <=? v) && (v <? 4294967296) then setUint32 buf offset v true else None.

Definition writeUInt16LE (buf : ArrayBuffer) (v : Z) (offset : nat)
  : option ArrayBuffer :=
  if (0 <=? v) && (v <? 65536) then setUint16 buf offset v true else None.

(** [bitsPerSample / 8] is taken on integers: the header fields derived
    from it agree with the source whenever [bitsPerSample] is a multiple
    of 8 (the default is 16). *)
Definition pcmToWav (pcmBuffer : ArrayBuffer)
    (sampleRate numChannels bitsPerSample : Z) : option ArrayBuffer :=
  let bytesPerSample := bitsPerSample / 8 in
  let blockAlign := numChannels * bytesPerSample in
  let byteRate := sampleRate * blockAlign in
  let dataSize := Z.of_nat (length pcmBuffer) in
  let fileSize := 44 + dataSize in
  let header := replicate 44%nat x00 in
  let header := write header "RIFF" 0 in
  header ← writeUInt32LE header (fileSize - 8) 4;
  let header := write header "WAVE" 8 in
  let header := write header "fmt " 12 in
  header ← writeUInt32LE header 16 16;
  header ← writeUInt16LE header 1 20;
  header ← writeUInt16LE header numChannels 22;
  header ← writeUInt32LE header sampleRate 24;
  header ← writeUInt32LE header byteRate 28;
  header ← writeUInt16LE header blockAlign 32;
  header ← writeUInt16LE header bitsPerSample 34;
  let header := write header "data" 36 in
  header ← writeUInt32LE header dataSize 40;
  Some (header ++ pcmBuffer).

End WavConverter.

(** ** public/pcm-processor.js *)

Module PCMProcessor.
Import Js.

Record t : Type := {
  bufferSize : Z;
  buffer : list num;      (* Float32Array *)
  bufferIndex : nat
}.

Definition constructor : t :=
  {| bufferSize := 0;
     buffer := replicate (Z.to_nat 4096) 0%float;
     bufferIndex := 0 |}.

(** One turn of the loop of [process]: store the sample, advance the
    index and, when the buffer is full, post a copy of it and reset the
    index. The second component collects the [port.postMessage] calls,
    oldest first. *)
Definition accumulate (acc : t * list (list num)) (sample : num)
  : t * list (list num) :=
  let '(this, posted) := acc in
  let buffer' := <[bufferIndex this := sample]> (buffer this) in
  let bufferIndex' := S (bufferIndex this) in
  if (length buffer' <=? bufferIndex')%nat
  then ({| bufferSize := bufferSize this;
           buffer := buffer';
           bufferIndex := 0 |},
        posted ++ [buffer'])
  else ({| bufferSize := bufferSize this;
           buffer := buffer';
           bufferIndex := bufferIndex' |},
        posted).

(** [process(inputs, ...)], given [inputs[0]], the channels of the first
    input: the new state of the processor and the frames posted during
    the call. *)
Definition process (this : t) (input : list (list num))
  : t * list (list num) :=
  match input with
  | inputChannel :: _ => fold_left accumulate inputChannel (this, [])
  | [] => (this, [])
  end.

(** Successive calls of [process], one per render quantum. *)
Definition run (this : t) (inputs : list (list (list num)))
  : t * list (list num) :=
  fold_left
    (fun acc input =>
       let '(this, posted) := acc in
       let '(this', posted') := process this input in
       (this', posted ++ posted'))
    inputs (this, []).

(** Vocabulary for the properties: the samples waiting in the buffer
    for their frame to fill up, the channel that [process] reads from
    [inputs[0]], and the invariant of the index. *)
Definition pending (this : t) : list num :=
  take (bufferIndex this) (buffer this).

Definition first_channel (input : list (list num)) : list num :=
  match input with
  | inputChannel :: _ => inputChannel
  | [] => []
  end.

Definition ready (this : t) : Prop :=
  (bufferIndex this < length (buffer this))%nat.

End PCMProcessor.

(** ** components/Connections.tsx: the playback scheduler *)

Module Connections.
Import Js AudioUtils.

(** What the component holds: its React state, its refs and, for the
    properties below, a trace of the effects it had on the platform. *)
Record State : Type := {
  (* useState *)
  isConnected : bool;
  connectionStatus : string;
  isPlaying : bool;
  volumeLevel : num;
  playbackStatus : string;
  (* useRef *)
  audioContext : bool;                (* [false] is [null] *)
  audioQueue : list (list num);
  isPlaybackActive : bool;
  nextPlayTime : num;
  (* effects, oldest first *)
  started : list (num * nat);         (* [source.start(when)], buffer length *)
  timeouts : list num;                (* [setTimeout(processChunk, ms)] *)
  errors : list string                (* [console.error] *)
}.

Definition initial : State :=
  {| isConnected := false; connectionStatus := EmptyString;
     isPlaying := false; volumeLevel := 0%float; playbackStatus := EmptyString;
     audioContext := false; audioQueue := []; isPlaybackActive := false;
     nextPlayTime := 0%float;
     started := []; timeouts := []; errors := [] |}.

Definition set_isConnected (v : bool) (st : State) : State :=
  {| isConnected := v; connectionStatus := connectionStatus st;
     isPlaying := isPlaying st; volumeLevel := volumeLevel st;
     playbackStatus := playbackStatus st; audioContext := audioContext st;
     audioQueue := audioQueue st; isPlaybackActive := isPlaybackActive st;
     nextPlayTime := nextPlayTime st; started := started st;
     timeouts := timeouts st; errors := errors st |}.

Definition set_connectionStatus (v : string) (st : State) : State :=
  {| isConnected := isConnected st; connectionStatus := v;
     isPlaying := isPlaying st; volumeLevel := volumeLevel st;
     playbackStatus := playbackStatus st; audioContext := audioContext st;
     audioQueue := audioQueue st; isPlaybackActive := isPlaybackActive st;
     nextPlayTime := nextPlayTime st; started := started st;
     timeouts := timeouts st; errors := errors st |}.

Definition set_isPlaying (v : bool) (st : State) : State :=
  {| isConnected := isConnected st; connectionStatus := connectionStatus st;
     isPlaying := v; volumeLevel := volumeLevel st;
     playbackStatus := playbackStatus st; audioContext := audioContext st;
     audioQueue := audioQueue st; isPlaybackActive := isPlaybackActive st;
     nextPlayTime := nextPlayTime st; started := started st;
     timeouts := timeouts st; errors := errors st |}.

Definition set_volumeLevel (v : num) (st : State) : State :=
  {| isConnected := isConnected st; connectionStatus := connectionStatus st;
     isPlaying := isPlaying st; volumeLevel := v;
     playbackStatus := playbackStatus st; audioContext := audioContext st;
     audioQueue := audioQueue st; isPlaybackActive := isPlaybackActive st;
     nextPlayTime := nextPlayTime st; started := started st;
     timeouts := timeouts st; errors := errors st |}.

Definition set_playbackStatus (v : string) (st : State) : State :=
  {| isConnected := isConnected st; connectionStatus := connectionStatus st;
     isPlaying := isPlaying st; volumeLevel := volumeLevel st;
     playbackStatus := v; audioContext := audioContext st;
     audioQueue := audioQueue st; isPlaybackActive := isPlaybackActive st;
     nextPlayTime := nextPlayTime st; started := started st;
     timeouts := timeouts st; errors := errors st |}.

Definition set_audioContext (v : bool) (st : State) : State :=
  {| isConnected := isConnected st; connectionStatus := connectionStatus st;
     isPlaying := isPlaying st; volumeLevel := volumeLevel st;
     playbackStatus := playbackStatus st; audioContext := v;
     audioQueue := audioQueue st; isPlaybackActive := isPlaybackActive st;
     nextPlayTime := nextPlayTime st; started := started st;
     timeouts := timeouts st; errors := errors st |}.

Definition set_audioQueue (v : list (list num)) (st : State) : State :=
  {| isConnected := isConnected st; connectionStatus := connectionStatus st;
     isPlaying := isPlaying st; volumeLevel := volumeLevel st;
     playbackStatus := playbackStatus st; audioContext := audioContext st;
     audioQueue := v; isPlaybackActive := isPlaybackActive st;
     nextPlayTime := nextPlayTime st; started := started st;
     timeouts := timeouts st; errors := errors st |}.

Definition set_isPlaybackActive (v : bool) (st : State) : State :=
  {| isConnected := isConnected st; connectionStatus := connectionStatus st;
     isPlaying := isPlaying st; volumeLevel := volumeLevel st;
     playbackStatus := playbackStatus st; audioContext := audioContext st;
     audioQueue := audioQueue st; isPlaybackActive := v;
     nextPlayTime := nextPlayTime st; started := started st;
     timeouts := timeouts st; errors := errors st |}.

Definition set_nextPlayTime (v : num) (st : State) : State :=
  {| isConnected := isConnected st; connectionStatus := connectionStatus st;
     isPlaying := isPlaying st; volumeLevel := volumeLevel st;
     playbackStatus := playbackStatus st; audioContext := audioContext st;
     audioQueue := audioQueue st; isPlaybackActive := isPlaybackActive st;
     nextPlayTime := v; started := started st;
     timeouts := timeouts st; errors := errors st |}.

(** [source.start(when)] for a buffer of [frames] sample-frames. *)
Definition source_start (when : num) (frames : nat) (st : State) : State :=
  {| isConnected := isConnected st; connectionStatus := connectionStatus st;
     isPlaying := isPlaying st; volumeLevel := volumeLevel st;
     playbackStatus := playbackStatus st; audioContext := audioContext st;
     audioQueue := audioQueue st; isPlaybackActive := isPlaybackActive st;
     nextPlayTime := nextPlayTime st;
     started := started st ++ [(when, frames)];
     timeouts := timeouts st; errors := errors st |}.

(** [setTimeout(processChunk, ms)]. *)
Definition setTimeout (ms : num) (st : State) : State :=
  {| isConnected := isConnected st; connectionStatus := connectionStatus st;
     isPlaying := isPlaying st; volumeLevel := volumeLevel st;
     playbackStatus := playbackStatus st; audioContext := audioContext st;
     audioQueue := audioQueue st; isPlaybackActive := isPlaybackActive st;
     nextPlayTime := nextPlayTime st; started := started st;
     timeouts := timeouts st ++ [ms]; errors := errors st |}.

Definition console_error (msg : string) (st : State) : State :=
  {| isConnected := isConnected st; connectionStatus := connectionStatus st;
     isPlaying := isPlaying st; volumeLevel := volumeLevel st;
     playbackStatus := playbackStatus st; audioContext := audioContext st;
     audioQueue := audioQueue st; isPlaybackActive := isPlaybackActive st;
     nextPlayTime := nextPlayTime st; started := started st;
     timeouts := timeouts st; errors := errors st ++ [msg] |}.

(** The time that [frames] sample-frames take at [SAMPLE_RATE], as the
    scheduler computes it: the binary64 quotient. *)
Definition seconds (frames : nat) : num :=
  (of_int (Z.of_nat frames) / of_int SAMPLE_RATE)%float.

(** [audioData.length / SAMPLE_RATE]. *)
Definition chunkDuration (audioData : list num) : num :=
  seconds (length audioData).

(** The closure [processChunk] of [processAudioQueue].

    [playing] is the value of [isPlaying] that the closure captured and
    [currentTime] is the reading of [audioContext.currentTime] during the
    call. The times are binary64 numbers, added and compared as such. The closure is made by [processAudioQueue] on behalf of
    [handlePCMData], past the test of [isPlaying] there, and its
    timeouts run the same closure again: whenever the application runs
    it, [playing] is [true].

    [createBuffer] raises [NotSupportedError] for a buffer of zero
    sample-frames, which the [catch] block handles; [source.start] would
    raise only for a negative time, and [nextPlayTime] starts at a clock
    reading and never decreases. *)
Definition processChunk (playing : bool) (currentTime : num) (st : State)
  : State :=
  if negb playing || negb (audioContext st)
     || (length (audioQueue st) =? 0)%nat
  then
    set_volumeLevel 0%float
      (set_playbackStatus
         (if playing then "Waiting for audio data" else "Stopped")
         (set_isPlaybackActive false st))
  else
    match audioQueue st with
    | [] => setTimeout 10%float st
    | audioData :: rest =>
        let st := set_audioQueue rest st in
        if (length audioData =? 0)%nat
        then
          setTimeout 100%float (console_error "Error playing audio chunk:" st)
        else
          (* Schedule playback *)
          let st := source_start (nextPlayTime st) (length audioData) st in
          (* Update next play time *)
          let st :=
            set_nextPlayTime
              (nextPlayTime st + chunkDuration audioData)%float st in
          (* Ensure we don't fall behind real-time *)
          let st :=
            if (nextPlayTime st <? currentTime)%float
            then set_nextPlayTime currentTime st
            else st in
          (* Schedule next chunk *)
          setTimeout (chunkDuration audioData * 1000 / 2)%float st
    end.

(** [processAudioQueue] has no [await]: its body, and the first call of
    [processChunk], run before it returns. *)
Definition processAudioQueue (playing : bool) (currentTime : num)
    (st : State) : State :=
  if negb (audioContext st) || isPlaybackActive st then st
  else
    processChunk playing currentTime
      (set_playbackStatus "Playing audio" (set_isPlaybackActive true st)).

Definition handlePCMData (playing : bool) (currentTime : num)
    (arrayBuffer : list byte) (st : State) : State :=
  if negb playing then st
  else
    match new_Int16Array arrayBuffer with
    | None => console_error "Error processing PCM data:" st
    | Some pcmSamples =>
        (* Convert PCM to Float32Array for Web Audio API *)
        let floatSamples := pcm16ToFloat pcmSamples in
        (* Calculate volume level for UI indicator *)
        let volume := calculateVolume (Float32Array floatSamples) in
        let st := set_volumeLevel volume st in
        (* Add to audio queue for playback *)
        let st := set_audioQueue (audioQueue st ++ [floatSamples]) st in
        (* Process audio queue if not already processing *)
        if negb (isPlaybackActive st)
        then processAudioQueue playing currentTime st
        else st
    end.

(** The data of a message event: an [ArrayBuffer], or anything else
    (a string, a [Blob]), which is only logged. *)
Inductive MessageData : Type :=
| Binary (arrayBuffer : list byte)
| NotArrayBuffer.

Definition onmessage (playing : bool) (currentTime : num)
    (data : MessageData) (st : State) : State :=
  match data with
  | Binary arrayBuffer => handlePCMData playing currentTime arrayBuffer st
  | NotArrayBuffer => st
  end.

(** What [initializeAudioContext] can meet: the context is created and
    running, or [new AudioContext] raises, or the context is created but
    [resume] raises. *)
Inductive ContextOutcome : Type :=
| ContextReady
| ConstructorFails
| ResumeFails.

(** [initializeAudioContext]: the new state and the returned flag;
    [currentTime] is the clock reading of the new context. *)
Definition initializeAudioContext (outcome : ContextOutcome)
    (currentTime : num) (st : State) : State * bool :=
  match outcome with
  | ContextReady =>
      (set_playbackStatus "Audio context initialized"
         (set_nextPlayTime currentTime (set_audioContext true st)),
       true)
  | ResumeFails =>
      (set_playbackStatus "Audio initialization failed"
         (console_error "Failed to initialize audio context:"
            (set_audioContext true st)),
       false)
  | ConstructorFails =>
      (set_playbackStatus "Audio initialization failed"
         (console_error "Failed to initialize audio context:" st),
       false)
  end.

(** [startAudioPlayback]; [connected] is the [isConnected] that the
    handler captured. *)
Definition startAudioPlayback (connected : bool) (outcome : ContextOutcome)
    (currentTime : num) (st : State) : State :=
  if negb connected
  then set_playbackStatus "Not connected to WebSocket" st
  else
    let '(st, initialized) := initializeAudioContext outcome currentTime st in
    if negb initialized then st
    else
      let st := set_isPlaying true st in
      let st := set_audioQueue [] st in   (* Clear any old audio data *)
      set_playbackStatus "Ready to play incoming audio" st.

Definition stopAudioPlayback (st : State) : State :=
  let st := set_isPlaying false st in
  let st := set_isPlaybackActive false st in
  let st := set_audioQueue [] st in
  let st := set_volumeLevel 0%float st in
  let st := set_playbackStatus EmptyString st in
  set_audioContext false st.

Definition onopen (st : State) : State :=
  set_connectionStatus "Connected" (set_isConnected true st).

Definition onclose (st : State) : State :=
  stopAudioPlayback
    (set_connectionStatus "Disconnected" (set_isConnected false st)).

Definition onerror (st : State) : State :=
  stopAudioPlayback
    (set_connectionStatus "Connection error" (set_isConnected false st)).

(** What can happen to the scheduler during a playback session: a
    message arrives (its handler having captured [playing]), or a
    timeout set by [processChunk] fires. *)
Inductive Event : Type :=
| Message (playing : bool) (currentTime : num) (data : MessageData)
| Timeout (currentTime : num).

Definition step (st : State) (ev : Event) : State :=
  match ev with
  | Message playing currentTime data => onmessage playing currentTime data st
  | Timeout currentTime => processChunk true currentTime st
  end.

Definition run (st : State) (evs : list Event) : State :=
  fold_left step evs st.

(** The state in which a session starts: the component, connected, after
    a successful [startAudioPlayback] at clock reading [currentTime]. *)
Definition session (currentTime : num) : State :=
  startAudioPlayback true ContextReady currentTime (onopen initial).

(** [AudioBufferSourceNode.start(when)] on the platform: the buffer is
    heard from [when] on, or at once when the clock has passed [when]. *)
Definition audible_start (when currentTime : num) : num :=
  if (when <? currentTime)%float then currentTime else when.

(** Vocabulary for the ordering property: in a log of [source.start]
    calls, every buffer ends no later than the next one starts, and the
    last one ends no later than [limit]; the end of a buffer is the
    binary64 sum that the scheduler computes. *)
Fixpoint fits (log : list (num * nat)) (limit : num) : Prop :=
  match log with
  | [] => True
  | (when, frames) :: rest =>
      (when + seconds frames <=?
         match rest with
         | [] => limit
         | (next, _) :: _ => next
         end)%float = true
      /\ fits rest limit
  end.

End Connections.

(** ** The persisted container format, as the specification words it

    [riff_header] follows section 6 of the specification field by field;
    it is compared with what the two encoders write. *)

Module WavFormat.
Import Js.

Definition le16 (v : Z) : list byte :=
  [byte_of_Z (ToUint16 v); byte_of_Z (ToUint16 v / 256)].

Definition le32 (v : Z) : list byte :=
  [byte_of_Z (ToUint32 v); byte_of_Z (ToUint32 v / 256);
   byte_of_Z (ToUint32 v / 65536); byte_of_Z (ToUint32 v / 16777216)].

Definition fourcc (s : string) : list byte :=
  map (fun c => byte_of_Z (charCode c)) (list_ascii_of_string s).

Definition riff_header
    (dataSize numChannels sampleRate byteRate blockAlign bitsPerSample : Z)
  : list byte :=
  fourcc "RIFF" ++ le32 (36 + dataSize) ++ fourcc "WAVE"
  ++ fourcc "fmt " ++ le32 16 ++ le16 1 ++ le16 numChannels
  ++ le32 sampleRate ++ le32 byteRate ++ le16 blockAlign
  ++ le16 bitsPerSample
  ++ fourcc "data" ++ le32 dataSize.

(** The raw sample bytes: 16-bit little-endian two's complement. *)
Definition sample_bytes (pcmSamples : list Z) : list byte :=
  flat_map (fun s => le16 (ToInt16 s)) pcmSamples.

End WavFormat.

(** ** Vocabulary for the properties of the sample codec *)

Module Codec.
Import Js AudioUtils.

(** What is checked, by computation, of the decoder on one 16-bit sample
    [k]: re-encoding the decoded sample gives [k] back (-32767 for
    -32768), the decoded sample is a finite binary32 value, at most 1,
    and at least -1 unless [k] is -32768. *)
Definition codec_check (k : Z) : bool :=
  let y := pcm16ToFloat_at k in
  (floatToPCM16_at y =? Z.max k (-32767))
  && is_float32 y && is_finite y
  && Qle_bool (value y) 1
  && Bool.eqb (Qle_bool (-1) (value y)) (negb (k =? -32768)).

End Codec.

(** ** App.tsx: the capture side of the stream *)

Module App.
Import Js AudioUtils.

(** [int16Data.buffer]: the bytes behind an [Int16Array], two per
    element, low byte first, in two's complement. *)
Definition Int16Array_buffer (elements : list Z) : ArrayBuffer :=
  flat_map (fun s => [byte_of_Z s; byte_of_Z (s / 256)]) elements.

(** [WebSocket.readyState]. *)
Inductive ReadyState : Type := CONNECTING | OPEN | CLOSING | CLOSED.

(** [streamPCMData(pcmData)]. [websocketConnection] is what the ref
    holds ([None] is [null]) and [sent] collects the arguments of
    [send], oldest first. *)
Definition streamPCMData (websocketConnection : option ReadyState)
    (pcmData : list num) (sent : list ArrayBuffer) : list ArrayBuffer :=
  match websocketConnection with
  | Some OPEN =>
      (* Convert Float32Array to Int16Array PCM using utility function *)
      let int16Data := floatToPCM16 pcmData in
      (* Send as ArrayBuffer *)
      sent ++ [Int16Array_buffer int16Data]
  | _ => sent
  end.

(** The handler [audioWorkletNode.port.onmessage] of [startRecording],
    run on the frames that the worklet posts. *)
Definition onWorkletMessages (websocketConnection : option ReadyState)
    (posted : list (list num)) (sent : list ArrayBuffer) : list ArrayBuffer :=
  fold_left
    (fun sent pcmData => streamPCMData websocketConnection pcmData sent)
    posted sent.

End App.

(** ** Vocabulary for the properties of the playback queue *)

Module Playback.
Import Js AudioUtils Connections.

(** The frame that [handlePCMData] makes of an event, if any: a binary
    message of even length whose handler captured a true [isPlaying]. *)
Definition accepted_frame (ev : Event) : list (list num) :=
  match ev with
  | Message true _ (Binary arrayBuffer) =>
      match new_Int16Array arrayBuffer with
      | Some pcmSamples => [pcm16ToFloat pcmSamples]
      | None => []
      end
  | _ => []
  end.

Definition accepted (evs : list Event) : list (list num) :=
  flat_map accepted_frame evs.

(** The lengths of the frames of a list that [createBuffer] accepts. *)
Definition playable (frames : list (list num)) : list nat :=
  filter (fun n => n <> 0%nat) (map length frames).

(** A run in which every [Timeout] event is the firing of a timer that
    [processChunk] has set and that has not fired yet; [fired] counts the
    timers that fired before the run. *)
Fixpoint timers_fire_once (st : State) (fired : nat) (evs : list Event)
  : Prop :=
  match evs with
  | [] => True
  | Timeout currentTime :: rest =>
      (fired < length (timeouts st))%nat
      /\ timers_fire_once (step st (Timeout currentTime)) (S fired) rest
  | ev :: rest => timers_fire_once (step st ev) fired rest
  end.


End Playback.

(** ** lib/saveToFile.ts *)

Module SaveToFile.

(** [s.includes(sub)]. *)
Fixpoint includes (s sub : string) : bool :=
  String.prefix sub s
  || match s with
     | EmptyString => false
     | String _ s' => includes s' sub
     end.

(** [s.endsWith(suffix)]. *)
Fixpoint endsWith (s suffix : string) : bool :=
  String.eqb s suffix
  || match s with
     | EmptyString => false
     | String _ s' => endsWith s' suffix
     end.

(** The class [\w] of a regular expression. *)
Definition is_word (c : ascii) : bool :=
  let n := nat_of_ascii c in
  ((48 <=? n) && (n <=? 57) || (65 <=? n) && (n <=? 90)
   || (97 <=? n) && (n <=? 122) || (n =? 95))%nat.

Fixpoint all_word (s : string) : bool :=
  match s with
  | EmptyString => true
  | String c s' => is_word c && all_word s'
  end.

(** [filename.replace(/\.\w+$/, e)] with the empty string for [e]: the
    expression matches at the first dot that is followed, up to the end
    of the string, by one or more characters of [\w] and nothing else;
    the match is taken out. *)
Fixpoint strip_extension (filename : string) : string :=
  match filename with
  | EmptyString => EmptyString
  | String c rest =>
      if Ascii.eqb c "." && negb (String.eqb rest EmptyString) && all_word rest
      then EmptyString
      else String c (strip_extension rest)
  end.

Definition ext (mime : string) : string :=
  if includes mime "ogg" then ".ogg" else ".webm".

Definition acceptType (mime : string) : string :=
  if includes mime "ogg" then "audio/ogg" else "audio/webm".

(** The [suggestedName] given to [showSaveFilePicker]. *)
Definition suggestedName (mime filename : string) : string :=
  if endsWith filename (ext mime)
  then filename
  else String.append (strip_extension filename) (ext mime).

End SaveToFile.

(** ** lib/indexedDB.ts: the store of recordings *)

Module IndexedDB.

(** A [Blob] is the bytes it holds. *)
Abbreviation Blob := (list byte).

Record IDBRecording : Type := {
  id : string;
  blobs : list Blob;
  ts : Z
}.

(** The object store "recordings" of the database "audio-rec": its
    records by primary key. The key path is "id" and there is no key
    generator, so a record is stored under its own [id]. *)
Abbreviation Store := (gmap string IDBRecording).

(** What the promises of this module are rejected with: a
    [DOMException] of the data base, by name, or an [Error] that the
    module throws, with its message. A rejected operation leaves the
    store as it was. *)
Inductive DOMException : Type := ConstraintError.

Record Error : Type := { message : string }.

(** [IDBObjectStore.add(value)]: rejected when a record has the key. *)
Definition add (value : IDBRecording) (db : Store)
  : (DOMException + string) * Store :=
  match db !! id value with
  | Some _ => (inl ConstraintError, db)
  | None => (inr (id value), <[id value := value]> db)
  end.

(** [IDBObjectStore.put(value)]. *)
Definition put (value : IDBRecording) (db : Store) : Store :=
  <[id value := value]> db.

(** [createRecording(id, blobs)]; [now] is the reading of [Date.now()]. *)
Definition createRecording (id : string) (blobs : list Blob) (now : Z)
    (db : Store) : (DOMException + string) * Store :=
  add {| id := id; blobs := blobs; ts := now |} db.

Definition getRecording (id : string) (db : Store) : option IDBRecording :=
  db !! id.

Definition not_found (id : string) : Error :=
  {| message := String.append "Recording with id "
                  (String.append id " not found") |}.

Definition addChunksToRecording (recordingId : string) (blobs : list Blob)
    (db : Store) : (Error + unit) * Store :=
  (* Get the existing recording *)
  match db !! recordingId with
  | None => (inl (not_found recordingId), db)
  | Some existing =>
      (* Add the new blob to the existing blobs array *)
      let existing :=
        {| id := existing.(id);
           blobs := existing.(IndexedDB.blobs) ++ blobs;
           ts := existing.(ts) |} in
      (* Save the updated recording back *)
      (inr tt, put existing db)
  end.

(** The order of the index "by-ts": by [ts], then by primary key. *)
Definition index_leb (a b : string * IDBRecording) : bool :=
  (ts a.2 <? ts b.2) || ((ts a.2 =? ts b.2) && String.leb a.1 b.1).

Definition by_ts (a b : string * IDBRecording) : Prop :=
  index_leb a b = true.

#[global] Instance by_ts_dec (a b : string * IDBRecording) : Decision (by_ts a b).
Proof. unfold by_ts. apply _. Defined.

(** [getAllRecordings]: the records met by a cursor over the index, in
    reverse. *)
Definition getAllRecordings (db : Store) : list IDBRecording :=
  let out := map snd (merge_sort by_ts (map_to_list db)) in
  reverse out.

Definition deleteRecording (id : string) (db : Store)
  : (Error + unit) * Store :=
  (* Get the existing recording *)
  match db !! id with
  | None => (inl (not_found id), db)
  | Some _ =>
      (* Delete the recording *)
      (inr tt, delete id db)
  end.

Definition clearRecordings (db : Store) : Store := ∅.

Definition hasRecordings (db : Store) : bool := (0 <? size db)%nat.

(** The invariant of a store with a key path: a record is stored under
    its own [id]. *)
Definition keyed (db : Store) : Prop :=
  forall (k : string) (r : IDBRecording), db !! k = Some r -> id r = k.

End IndexedDB.

(** ** lib/useRecordings.ts *)

Module UseRecordings.
Import IndexedDB.

(** The state of the hook. *)
Record Hook : Type := {
  recordings : list IDBRecording;
  loading : bool;
  error : option string
}.

(** [fetchRecordings], when the data base answers. *)
Definition fetchRecordings (db : Store) (h : Hook) : Hook :=
  {| recordings := getAllRecordings db; loading := false; error := None |}.

(** [removeRecording(id)]: the rejection that it re-throws, if any, with
    the new state of the hook and of the store. *)
Definition removeRecording (id : string) (h : Hook) (db : Store)
  : option Error * Hook * Store :=
  match deleteRecording id db with
  | (inr _, db) =>
      (* Update local state by filtering out the deleted recording *)
      (None,
       {| recordings := filter (fun recording => recording.(IndexedDB.id) <> id)
                          (recordings h);
          loading := loading h; error := error h |},
       db)
  | (inl err, db) =>
      (Some err,
       {| recordings := recordings h; loading := loading h;
          error := Some (message err) |},
       db)
  end.

End UseRecordings.

(** ** App.tsx: the recording kept in the store *)

Module AppRecording.
Import IndexedDB.

(** Save to indexeddb when buffer reaches this limit. *)
Definition BUFFER_FLUSH_LIMIT : nat := 10.

(** The refs and the state of the component that the handlers of the
    [MediaRecorder] use. *)
Record State : Type := {
  recordingBuffer : list Blob;
  recordingId : string;
  isRecording : bool;
  refreshTrigger : nat
}.

Definition triggerRefresh (st : State) : State :=
  {| recordingBuffer := recordingBuffer st; recordingId := recordingId st;
     isRecording := isRecording st; refreshTrigger := S (refreshTrigger st) |}.

(** The handlers start operations on the store and do not wait for
    them. The data base runs the transactions of one store in the order
    in which they were made, so each operation is taken to have run when
    the handler that started it returns. *)

(** [mediaRecorder.onstart]; [uuid] is what [uuidv4()] returns and [now]
    the reading of [Date.now()]. *)
Definition onstart (uuid : string) (now : Z) (st : State) (db : Store)
  : State * Store :=
  let st :=
    {| recordingBuffer := recordingBuffer st; recordingId := uuid;
       isRecording := true; refreshTrigger := refreshTrigger st |} in
  match createRecording (recordingId st) [] now db with
  | (inr _, db) => (triggerRefresh st, db)
  | (inl _, db) => (st, db)
  end.

(** [mediaRecorder.ondataavailable], on the blob [event.data]. *)
Definition ondataavailable (data : Blob) (st : State) (db : Store)
  : State * Store :=
  if (0 <? length data)%nat
  then
    let buffer := recordingBuffer st ++ [data] in
    if (BUFFER_FLUSH_LIMIT <=? length buffer)%nat
    then
      let '(_, db) := addChunksToRecording (recordingId st) buffer db in
      ({| recordingBuffer := []; recordingId := recordingId st;
          isRecording := isRecording st; refreshTrigger := refreshTrigger st |},
       db)
    else
      ({| recordingBuffer := buffer; recordingId := recordingId st;
          isRecording := isRecording st; refreshTrigger := refreshTrigger st |},
       db)
  else (st, db).

(** [mediaRecorder.onstop]: flush the remaining chunks, if any. *)
Definition onstop (st : State) (db : Store) : State * Store :=
  let '(st, db) :=
    if (0 <? length (recordingBuffer st))%nat
    then
      let st' :=
        {| recordingBuffer := []; recordingId := recordingId st;
           isRecording := isRecording st;
           refreshTrigger := refreshTrigger st |} in
      match addChunksToRecording (recordingId st) (recordingBuffer st) db with
      | (inr _, db) => (triggerRefresh st', db)
      | (inl _, db) => (st', db)
      end
    else (st, db) in
  ({| recordingBuffer := recordingBuffer st; recordingId := recordingId st;
      isRecording := false; refreshTrigger := refreshTrigger st |},
   db).

(** The [dataavailable] events of a recording, oldest first. *)
Definition record (chunks : list Blob) (st : State) (db : Store)
  : State * Store :=
  fold_left (fun acc data => ondataavailable data acc.1 acc.2) chunks (st, db).

(** The chunks that are kept: the blobs that are not empty. *)
Definition kept (chunks : list Blob) : list Blob :=
  filter (fun data => data <> []) chunks.

End AppRecording.

(* ===================================================================== *)
(** * Properties                                                         *)
(* ===================================================================== *)

Import Js.

Example wav_tiny :
  AudioUtils.pcmToWav [1; -2] 16000 1 =
  Some ["R"; "I"; "F"; "F"; "("; x00; x00; x00; "W"; "A"; "V"; "E";
        "f"; "m"; "t"; " "; x10; x00; x00; x00; x01; x00; x01; x00;
        x80; ">"; x00; x00; x00; "}"; x00; x00; x02; x00; x10; x00;
        "d"; "a"; "t"; "a"; x04; x00; x00; x00;
        x01; x00; xfe; xff]%byte.
Proof. vm_compute. reflexivity. Qed.

Import WavFormat.

Lemma setUint16_app (pre : list byte) (b0 b1 : byte) (tail : list byte) (v : Z) :
  setUint16 (pre ++ b0 :: b1 :: tail) (length pre) v true
  = Some (pre ++ le16 v ++ tail).
Proof.
  unfold setUint16.
  replace (length pre + 2 <=? length (pre ++ b0 :: b1 :: tail))%nat with true
    by (symmetry; apply Nat.leb_le; rewrite length_app; simpl; lia).
  f_equal.
  pose proof (insert_app_r pre (b0 :: b1 :: tail) 0 (byte_of_Z (ToUint16 v))) as H0.
  rewrite Nat.add_0_r in H0. rewrite H0. cbn [insert list_insert].
  pose proof (insert_app_r pre (byte_of_Z (ToUint16 v) :: b1 :: tail) 1
                (byte_of_Z (ToUint16 v / 256))) as H1.
  rewrite Nat.add_1_r in H1. rewrite H1. reflexivity.
Qed.

Lemma writeSamples_app (pre : list byte) (samples : list Z) (i : nat) (tail : list byte) :
  length pre = (44 + i * 2)%nat ->
  AudioUtils.writeSamples (pre ++ replicate (length samples * 2) x00 ++ tail) i samples
  = Some (pre ++ sample_bytes samples ++ tail).
Proof.
  revert pre i. induction samples as [|s rest IH]; intros pre i Hpre.
  - reflexivity.
  - unfold sample_bytes. cbn [AudioUtils.writeSamples flat_map].
    replace (length (s :: rest) * 2)%nat with (S (S (length rest * 2)))
      by (simpl; lia).
    cbn [replicate app]. unfold setInt16.
    rewrite <- Hpre, setUint16_app. cbn [mbind option_bind].
    rewrite (app_assoc pre), IH.
    + rewrite <- !app_assoc. reflexivity.
    + rewrite length_app. simpl. lia.
Qed.

Lemma writeSamples_fill (pre : list byte) (samples : list Z) :
  length pre = 44%nat ->
  AudioUtils.writeSamples (pre ++ replicate (length samples * 2) x00) 0 samples
  = Some (pre ++ sample_bytes samples).
Proof.
  intros Hpre.
  pose proof (writeSamples_app pre samples 0 [] Hpre) as H.
  rewrite !app_nil_r in H. exact H.
Qed.

(** [pcmToWav] never raises, and its result is the header of the
    persisted container format followed by the raw sample bytes. *)
Lemma pcmToWav_layout (pcmSamples : list Z) (sampleRate numChannels : Z) :
  AudioUtils.pcmToWav pcmSamples sampleRate numChannels
  = Some (riff_header (Z.of_nat (length pcmSamples) * 2) numChannels sampleRate
            (sampleRate * numChannels * 2) (numChannels * 2) 16
          ++ sample_bytes pcmSamples).
Proof.
  unfold AudioUtils.pcmToWav.
  replace (Z.of_nat (44 + length pcmSamples * 2) - 8)
    with (36 + Z.of_nat (length pcmSamples) * 2) by lia.
  rewrite replicate_add.
  set (dataSize := Z.of_nat (length pcmSamples) * 2).
  let l := eval cbv in (replicate 44%nat x00) in change (replicate 44 x00) with l.
  cbn -[byte_of_Z Z.div Z.mul Z.sub Z.add Z.of_nat AudioUtils.writeSamples
        replicate Nat.mul ToUint16 ToUint32 charCode].
  exact (writeSamples_fill
           (riff_header dataSize numChannels sampleRate
              (sampleRate * numChannels * 2) (numChannels * 2) 16)
           pcmSamples eq_refl).
Qed.

Lemma length_sample_bytes (pcmSamples : list Z) :
  length (sample_bytes pcmSamples) = (length pcmSamples * 2)%nat.
Proof.
  unfold sample_bytes.
  induction pcmSamples as [|s rest IH]; [reflexivity|].
  cbn [flat_map]. rewrite length_app, IH. simpl. lia.
Qed.

Lemma pcmToWav_length (pcmSamples : list Z) (sampleRate numChannels : Z)
    (wav : list byte) :
  AudioUtils.pcmToWav pcmSamples sampleRate numChannels = Some wav ->
  length wav = (44 + length pcmSamples * 2)%nat.
Proof.
  rewrite pcmToWav_layout. intros H.
  assert (Hwav : wav = riff_header (Z.of_nat (length pcmSamples) * 2) numChannels
                   sampleRate (sampleRate * numChannels * 2) (numChannels * 2) 16
                   ++ sample_bytes pcmSamples) by congruence.
  rewrite Hwav, length_app, length_sample_bytes. reflexivity.
Qed.

(** The stand-alone converter, fed the raw bytes of the same samples with
    its default bit depth, builds the very same header. *)
Lemma converter_layout (pcmBuffer : list byte) (sampleRate numChannels : Z) :
  0 <= Z.of_nat (length pcmBuffer) < 4294967296 - 36 ->
  0 <= sampleRate < 4294967296 -> 0 <= numChannels ->
  sampleRate * (numChannels * 2) < 4294967296 -> numChannels * 2 < 65536 ->
  WavConverter.pcmToWav pcmBuffer sampleRate numChannels 16
  = Some (riff_header (Z.of_nat (length pcmBuffer)) numChannels sampleRate
            (sampleRate * (numChannels * 2)) (numChannels * 2) 16
          ++ pcmBuffer).
Proof.
  intros Hlen Hsr Hch Hrate Halign.
  unfold WavConverter.pcmToWav, WavConverter.writeUInt32LE,
    WavConverter.writeUInt16LE.
  replace (44 + Z.of_nat (length pcmBuffer) - 8)
    with (36 + Z.of_nat (length pcmBuffer)) by lia.
  change (16 / 8) with 2.
  set (dataSize := Z.of_nat (length pcmBuffer)) in *.
  repeat match goal with
  | |- context [(0 <=? ?v) && (?v <? ?b)] =>
      replace ((0 <=? v) && (v <? b)) with true
        by (symmetry; apply andb_true_intro; split;
            [apply Z.leb_le | apply Z.ltb_lt]; nia)
  end.
  let l := eval cbv in (replicate 44%nat x00) in change (replicate 44 x00) with l.
  cbn -[byte_of_Z Z.div Z.mul Z.sub Z.add Z.of_nat ToUint16 ToUint32 charCode].
  reflexivity.
Qed.

(** C2 (as amended). Encoding 32000 int16 samples at 16000 Hz mono gives a
    buffer of 64044 bytes (a 44-byte header and 64000 data bytes) whose
    bytes 4-7 read 64036 and whose bytes 40-43 read 64000 as little-endian
    unsigned 32-bit integers. This holds for [pcmToWav] of [lib/audioUtils]
    and, on the raw bytes of the same samples, for [pcmToWav] of the
    stand-alone converter, which returns the same buffer. *)
Theorem wav_header_example (pcmSamples : list Z) :
  Z.of_nat (length pcmSamples) = 32000 ->
  exists wav : list byte,
    AudioUtils.pcmToWav pcmSamples 16000 1 = Some wav
    /\ WavConverter.pcmToWav (sample_bytes pcmSamples) 16000 1 16 = Some wav
    /\ Z.of_nat (length wav) = 64044
    /\ getUint32 wav 4 true = Some 64036
    /\ getUint32 wav 40 true = Some 64000.
Proof.
  intros Hlen.
  assert (Hbytes : Z.of_nat (length (sample_bytes pcmSamples)) = 64000)
    by (rewrite length_sample_bytes; lia).
  eexists. split; [apply pcmToWav_layout|].
  rewrite converter_layout by lia.
  rewrite Hbytes, Hlen. change (32000 * 2) with 64000.
  split; [reflexivity|]. split.
  - rewrite length_app, Nat2Z.inj_add, Hbytes. vm_compute. reflexivity.
  - split; vm_compute; reflexivity.
Qed.

Lemma wav_header_example_witness :
  Z.of_nat (length (replicate (Z.to_nat 32000) 0)) = 32000
  /\ exists wav : list byte,
       AudioUtils.pcmToWav (replicate (Z.to_nat 32000) 0) 16000 1 = Some wav
       /\ WavConverter.pcmToWav (sample_bytes (replicate (Z.to_nat 32000) 0)) 16000 1 16
          = Some wav
       /\ Z.of_nat (length wav) = 64044
       /\ getUint32 wav 4 true = Some 64036
       /\ getUint32 wav 40 true = Some 64000.
Proof.
  split; [vm_compute; reflexivity|].
  apply wav_header_example. vm_compute. reflexivity.
Defined.

(** C2 as stated fails: for 32000 silent samples the encoder does not
    return a 64108-byte buffer, and bytes 4-7 do not read 64100. *)
Lemma wav_header_example_as_stated_fails :
  ~ (exists wav : list byte,
       AudioUtils.pcmToWav (replicate (Z.to_nat 32000) 0) 16000 1 = Some wav
       /\ Z.of_nat (length wav) = 64108
       /\ getUint32 wav 4 true = Some 64100
       /\ getUint32 wav 40 true = Some 64000).
Proof.
  intros (wav & Hwav & Hlen & _).
  apply pcmToWav_length in Hwav.
  rewrite length_replicate in Hwav. lia.
Qed.

(* --------------------------------------------------------------------- *)
(** ** The capture frame accumulator *)

Section Accumulator.
Import PCMProcessor.

Lemma accumulate_step (this : t) (posted : list (list float)) (x : float) :
  ready this ->
  exists this' frames,
    accumulate (this, posted) x = (this', posted ++ frames)
    /\ length (buffer this') = length (buffer this)
    /\ ready this'
    /\ Forall (fun f => length f = length (buffer this)) frames
    /\ pending this ++ [x] = concat frames ++ pending this'.
Proof.
  unfold ready, pending. intros Hidx.
  assert (Htake : take (S (bufferIndex this)) (<[bufferIndex this := x]> (buffer this))
                  = take (bufferIndex this) (buffer this) ++ [x]).
  { rewrite (take_S_r _ _ x) by (apply list_lookup_insert_eq; exact Hidx).
    rewrite take_insert_ge by lia. reflexivity. }
  unfold accumulate. rewrite length_insert.
  destruct (length (buffer this) <=? S (bufferIndex this))%nat eqn:Hfull.
  - apply Nat.leb_le in Hfull.
    exists {| bufferSize := bufferSize this;
              buffer := <[bufferIndex this := x]> (buffer this);
              bufferIndex := 0 |}, [<[bufferIndex this := x]> (buffer this)].
    cbn [buffer bufferIndex]. rewrite length_insert.
    repeat split; try lia.
    + constructor; [apply length_insert | constructor].
    + cbn [concat take]. rewrite !app_nil_r, <- Htake.
      apply take_ge. rewrite length_insert. lia.
  - apply Nat.leb_gt in Hfull.
    exists {| bufferSize := bufferSize this;
              buffer := <[bufferIndex this := x]> (buffer this);
              bufferIndex := S (bufferIndex this) |}, [].
    cbn [buffer bufferIndex]. rewrite length_insert, app_nil_r.
    repeat split; try lia.
    + constructor.
    + rewrite Htake. reflexivity.
Qed.

Lemma accumulate_loop (samples : list float) :
  forall (this : t) (posted : list (list float)),
  ready this ->
  exists this' frames,
    fold_left accumulate samples (this, posted) = (this', posted ++ frames)
    /\ length (buffer this') = length (buffer this)
    /\ ready this'
    /\ Forall (fun f => length f = length (buffer this)) frames
    /\ pending this ++ samples = concat frames ++ pending this'.
Proof.
  induction samples as [|x rest IH]; intros this posted Hready.
  - exists this, []. cbn [fold_left concat]. rewrite !app_nil_r.
    repeat split; auto.
  - destruct (accumulate_step this posted x Hready)
      as (this1 & frames1 & Hstep & Hlen1 & Hready1 & Hall1 & Hcat1).
    destruct (IH this1 (posted ++ frames1) Hready1)
      as (this2 & frames2 & Hloop & Hlen2 & Hready2 & Hall2 & Hcat2).
    exists this2, (frames1 ++ frames2).
    cbn [fold_left]. rewrite Hstep, Hloop, <- app_assoc.
    repeat split; auto.
    + congruence.
    + apply Forall_app. split; [exact Hall1|].
      rewrite <- Hlen1. exact Hall2.
    + rewrite concat_app, <- app_assoc, <- Hcat2, app_assoc, <- Hcat1,
        <- app_assoc. reflexivity.
Qed.

Lemma process_frames (this : t) (input : list (list float)) :
  ready this ->
  exists this' frames,
    process this input = (this', frames)
    /\ length (buffer this') = length (buffer this)
    /\ ready this'
    /\ Forall (fun f => length f = length (buffer this)) frames
    /\ pending this ++ first_channel input = concat frames ++ pending this'.
Proof.
  intros Hready. destruct input as [|inputChannel others].
  - exists this, []. cbn. rewrite app_nil_r. repeat split; auto.
  - destruct (accumulate_loop inputChannel this [] Hready)
      as (this' & frames & Hloop & H).
    exists this', frames. split; [exact Hloop | exact H].
Qed.

Lemma run_frames (inputs : list (list (list float))) :
  forall (this : t) (posted : list (list float)),
  ready this ->
  exists this' frames,
    fold_left
      (fun acc input =>
         let '(this, posted) := acc in
         let '(this', posted') := process this input in
         (this', posted ++ posted'))
      inputs (this, posted) = (this', posted ++ frames)
    /\ length (buffer this') = length (buffer this)
    /\ ready this'
    /\ Forall (fun f => length f = length (buffer this)) frames
    /\ pending this ++ concat (map first_channel inputs)
       = concat frames ++ pending this'.
Proof.
  induction inputs as [|input rest IH]; intros this posted Hready.
  - exists this, []. cbn. rewrite !app_nil_r. repeat split; auto.
  - destruct (process_frames this input Hready)
      as (this1 & frames1 & Hproc & Hlen1 & Hready1 & Hall1 & Hcat1).
    destruct (IH this1 (posted ++ frames1) Hready1)
      as (this2 & frames2 & Hrun & Hlen2 & Hready2 & Hall2 & Hcat2).
    exists this2, (frames1 ++ frames2).
    cbn [fold_left map concat]. rewrite Hproc, Hrun, <- app_assoc.
    repeat split; auto.
    + congruence.
    + apply Forall_app. split; [exact Hall1|].
      rewrite <- Hlen1. exact Hall2.
    + rewrite concat_app, <- app_assoc, <- Hcat2, !app_assoc, <- Hcat1.
      reflexivity.
Qed.

Lemma length_concat_frames (L : nat) (frames : list (list float)) :
  Forall (fun f => length f = L) frames ->
  length (concat frames) = (L * length frames)%nat.
Proof.
  induction 1 as [|f frames Hf _ IH]; cbn [concat length]; [lia|].
  rewrite length_app, IH, Hf. lia.
Qed.

End Accumulator.

(** The accumulator on 4097 samples, cut into two calls: one frame, the
    first 4096 samples, is posted; the last sample waits in the buffer. *)
Example accumulator_4097 :
  let first := replicate (Z.to_nat 4000) 0.25%float in
  let second := replicate (Z.to_nat 96) 0.5%float ++ [0.75%float] in
  let result := PCMProcessor.run PCMProcessor.constructor [[first]; [second]] in
  snd result = [first ++ replicate (Z.to_nat 96) 0.5%float]
  /\ PCMProcessor.pending (fst result) = [0.75%float].
Proof. vm_compute. split; reflexivity. Qed.

(** C3 (as amended). For any input stream of N samples, however it is cut
    into render quanta, the accumulator posts exactly floor(N/4096) frames
    of exactly 4096 samples each, which are the first 4096 * floor(N/4096)
    samples of the stream in input order; the remaining N mod 4096 samples
    stay in its buffer (the processor has no flush), so the number of
    samples posted is N - N mod 4096. *)
Theorem accumulator_full_frames (inputs : list (list (list float))) :
  let stream := concat (map PCMProcessor.first_channel inputs) in
  let N := length stream in
  let this' := fst (PCMProcessor.run PCMProcessor.constructor inputs) in
  let posted := snd (PCMProcessor.run PCMProcessor.constructor inputs) in
  Forall (fun frame => length frame = 4096%nat) posted
  /\ length posted = (N / 4096)%nat
  /\ concat posted = take (4096 * (N / 4096)) stream
  /\ PCMProcessor.pending this' = drop (4096 * (N / 4096)) stream
  /\ length (PCMProcessor.pending this') = (N mod 4096)%nat
  /\ length (concat posted) = (N - N mod 4096)%nat.
Proof.
  intros stream N this' posted.
  assert (Hready : PCMProcessor.ready PCMProcessor.constructor).
  { unfold PCMProcessor.ready. cbn [PCMProcessor.constructor
      PCMProcessor.buffer PCMProcessor.bufferIndex].
    rewrite length_replicate. lia. }
  destruct (run_frames inputs PCMProcessor.constructor [] Hready)
    as (this1 & frames & Hrun & Hlen & Hready1 & Hall & Hcat).
  assert (HL : length (PCMProcessor.buffer PCMProcessor.constructor) = 4096%nat).
  { cbn [PCMProcessor.constructor PCMProcessor.buffer].
    rewrite length_replicate. reflexivity. }
  rewrite HL in Hall, Hlen.
  subst this' posted. unfold PCMProcessor.run. rewrite Hrun.
  cbn [fst snd app].
  change (PCMProcessor.pending PCMProcessor.constructor) with (@nil float) in Hcat.
  cbn [app] in Hcat. fold stream in Hcat.
  pose proof (length_concat_frames 4096 frames Hall) as Hconcat.
  assert (Hpend : (length (PCMProcessor.pending this1) < 4096)%nat).
  { unfold PCMProcessor.pending. rewrite length_take.
    unfold PCMProcessor.ready in Hready1. lia. }
  assert (HN : N = (4096 * length frames + length (PCMProcessor.pending this1))%nat).
  { subst N. rewrite Hcat, length_app. lia. }
  assert (Hdiv : length frames = (N / 4096)%nat).
  { apply (Nat.div_unique N 4096 _ (length (PCMProcessor.pending this1)));
      [exact Hpend | exact HN]. }
  assert (Hmod : length (PCMProcessor.pending this1) = (N mod 4096)%nat).
  { apply (Nat.mod_unique N 4096 (length frames)); [exact Hpend | exact HN]. }
  repeat split.
  - exact Hall.
  - exact Hdiv.
  - rewrite Hcat, <- Hdiv, <- Hconcat. symmetry. apply take_app_length.
  - rewrite Hcat, <- Hdiv, <- Hconcat. symmetry. apply drop_app_length.
  - exact Hmod.
  - lia.
Qed.

(** C3 as stated fails: a stream of one sample is not emitted at all, and
    the processor has no operation that would flush it. *)
Lemma accumulator_total_as_stated_fails :
  let inputs := [[[0.5%float]]] in
  let posted := snd (PCMProcessor.run PCMProcessor.constructor inputs) in
  length (concat (map PCMProcessor.first_channel inputs)) = 1%nat
  /\ length (concat posted) <> 1%nat.
Proof. vm_compute. split; [reflexivity | discriminate]. Qed.

(* --------------------------------------------------------------------- *)
(** ** The sample codec *)

Import AudioUtils.

(** The codec on a few samples: rounding to nearest with ties upwards,
    clamping, and the one value that does not survive a round trip. *)
Example floatToPCM16_samples :
  floatToPCM16 [0%float; 1%float; (-1)%float; 0.5%float; (-0.5)%float;
                2%float; (-3)%float; nan; infinity; neg_infinity]
  = [0; 32767; -32767; 16384; -16383; 32767; -32767; 0; 32767; -32767].
Proof. vm_compute. reflexivity. Qed.

Example pcm16ToFloat_samples :
  pcm16ToFloat [0; 32767; -32767; -32768; 16384]
  = [0%float; 1%float; (-1)%float; (-1.000030517578125)%float;
     0.5000152587890625%float].
Proof. vm_compute. reflexivity. Qed.

(** [is_float32] holds of what [fround] returns and of nothing else, as
    on these samples, which include the largest and the smallest binary32
    values and their neighbours. *)
Example is_float32_samples :
  Forall (fun y => is_float32 (fround y) = true
                   /\ is_float32 y = Leibniz.eqb (fround y) y)
    [0.1%float; (-0.3)%float; 0.5%float; 1%float; 0.999999%float;
     1e-5%float; 1e-40%float; 1e-45%float; 1.401298464324817e-45%float;
     7e-46%float; 3.4028234663852886e38%float; 3.4028235e38%float;
     6.8e38%float; 1e300%float; 5e-324%float; 0%float; (-0)%float;
     infinity; neg_infinity]
  /\ is_float32 nan = true.
Proof. split; [repeat constructor|]; vm_compute; reflexivity. Qed.

Example asymmetric_boundary :
  floatToPCM16 (pcm16ToFloat [-32768]) = [-32767].
Proof. vm_compute. reflexivity. Qed.

Example calculateVolume_samples :
  calculateVolume (Float32Array [0.5%float; (-0.5)%float]) = 50%float
  /\ calculateVolume (Int16Array [32767; -32767]) = 100%float
  /\ calculateVolume (Float32Array []) = nan.
Proof. vm_compute. repeat split. Qed.

Lemma forall_from_spec (f : Z -> bool) (n : nat) :
  forall k, forall_from f n k = true ->
  forall j, k <= j < k + Z.of_nat n -> f j = true.
Proof.
  induction n as [|n IH]; intros k Hall j Hj; [lia|].
  cbn [forall_from] in Hall. apply andb_prop in Hall as [Hk Hrest].
  destruct (Z.eq_dec j k) as [->|Hne]; [exact Hk|].
  apply (IH (k + 1) Hrest). lia.
Qed.

(** Every decodable sample is checked by computation. *)
Lemma decode_close_all :
  forall_from decode_close (Z.to_nat 65535) (-32767) = true.
Proof. vm_compute. reflexivity. Qed.

Lemma decode_error (k : Z) :
  -32767 <= k <= 32767 ->
  (Qabs (value (pcm16ToFloat_at k) - inject_Z k / 32767) <= 1 # 65534)%Q.
Proof.
  intros Hk. apply Qle_bool_iff.
  apply (forall_from_spec decode_close _ _ decode_close_all). lia.
Qed.

(** *** The binary64 arithmetic of the encoder

    The number of binary digits of a mantissa, and the rounding of the
    specification of binary64 on a mantissa that needs none. *)
Lemma digits2_pos_bounds (m : positive) :
  2 ^ (Zpos (digits2_pos m) - 1) <= Zpos m < 2 ^ Zpos (digits2_pos m).
Proof.
  induction m as [m IH|m IH|]; cbn [digits2_pos].
  - rewrite Pos2Z.inj_succ, Z.pow_succ_r by lia.
    replace (Z.succ (Zpos (digits2_pos m)) - 1) with (Z.succ (Zpos (digits2_pos m) - 1)) by lia.
    rewrite Z.pow_succ_r by lia. lia.
  - rewrite Pos2Z.inj_succ, Z.pow_succ_r by lia.
    replace (Z.succ (Zpos (digits2_pos m)) - 1) with (Z.succ (Zpos (digits2_pos m) - 1)) by lia.
    rewrite Z.pow_succ_r by lia. lia.
  - cbn. lia.
Qed.

Lemma digits2_pos_unique (m : positive) (d : Z) :
  2 ^ (d - 1) <= Zpos m < 2 ^ d -> Zpos (digits2_pos m) = d.
Proof.
  intros [Hlo Hhi]. pose proof (digits2_pos_bounds m) as [Hlo' Hhi'].
  assert (0 < d). { destruct (Z.lt_ge_cases 0 d); [assumption|].
    assert (2 ^ d <= 2 ^ 0) by (destruct (Z.eq_dec d 0) as [->|]; [lia|];
      rewrite Z.pow_neg_r by lia; cbn; lia). cbn in *. lia. }
  set (d' := Zpos (digits2_pos m)) in *.
  destruct (Z.lt_trichotomy d' d) as [Hlt|[Heq|Hgt]]; [|exact Heq|].
  - assert (2 ^ d' <= 2 ^ (d - 1)) by (apply Z.pow_le_mono_r; lia). lia.
  - assert (2 ^ d <= 2 ^ (d' - 1)) by (apply Z.pow_le_mono_r; lia). lia.
Qed.

Lemma iter_pos_shr_1 (p : positive) :
  forall K : Z, 0 < K ->
  SpecFloat.iter_pos shr_1 p {| shr_m := K * 2 ^ Zpos p; shr_r := false; shr_s := false |}
  = {| shr_m := K; shr_r := false; shr_s := false |}.
Proof.
  assert (Hone : forall K, 0 < K ->
            shr_1 {| shr_m := 2 * K; shr_r := false; shr_s := false |}
            = {| shr_m := K; shr_r := false; shr_s := false |}).
  { intros [|k|k] HK; try lia. reflexivity. }
  induction p as [p IH|p IH|]; intros K HK; cbn [SpecFloat.iter_pos].
  - replace (K * 2 ^ Zpos p~1) with (2 * (K * 2 ^ Zpos p * 2 ^ Zpos p)).
    2:{ replace (Zpos p~1) with (Zpos p + Zpos p + 1) by lia.
        rewrite !Z.pow_add_r, Z.pow_1_r by lia. ring. }
    rewrite Hone by nia. rewrite IH by nia. apply IH. exact HK.
  - replace (K * 2 ^ Zpos p~0) with (K * 2 ^ Zpos p * 2 ^ Zpos p).
    2:{ replace (Zpos p~0) with (Zpos p + Zpos p) by lia.
        rewrite !Z.pow_add_r by lia. ring. }
    rewrite IH by nia. apply IH. exact HK.
  - rewrite Z.pow_1_r, Z.mul_comm. apply Hone. exact HK.
Qed.

(** A product whose 53 leading digits are followed by zeros only is
    rounded to itself. *)
Lemma binary_round_aux_exact (s : bool) (K : positive) (n e : Z) :
  Zpos (digits2_pos K) = 53 -> 0 <= n -> -1074 <= e + n <= 971 ->
  binary_round_aux 53 1024 s (Zpos K * 2 ^ n) e loc_Exact
  = S754_finite s K (e + n).
Proof.
  intros Hd Hn He.
  assert (Hpos : 0 < 2 ^ n) by (apply Z.pow_pos_nonneg; lia).
  destruct (Zpos K * 2 ^ n) as [|P|P] eqn:HP; try lia.
  assert (HdP : Zpos (digits2_pos P) = 53 + n).
  { apply digits2_pos_unique. rewrite <- HP.
    pose proof (digits2_pos_bounds K) as [Hlo Hhi]. rewrite Hd in Hlo, Hhi.
    replace (53 + n - 1) with (52 + n) by lia.
    rewrite !Z.pow_add_r by lia. cbn in Hlo. split; nia. }
  unfold binary_round_aux, shr_fexp, fexp, emin.
  cbn [Zdigits2 shr_record_of_loc]. rewrite HdP.
  replace (Z.max (53 + n + e - 53) (3 - 1024 - 53) - e) with n by lia.
  assert (Hshr : shr {| shr_m := Zpos P; shr_r := false; shr_s := false |} e n
                 = ({| shr_m := Zpos K; shr_r := false; shr_s := false |}, e + n)).
  { unfold shr. destruct n as [|p|p]; try lia.
    - f_equal; [|lia]. rewrite <- HP. f_equal. lia.
    - rewrite <- HP. rewrite iter_pos_shr_1 by lia. reflexivity. }
  rewrite Hshr. cbn [shr_m loc_of_shr_record shr_r shr_s round_nearest_even Zdigits2
                     shr_record_of_loc].
  rewrite Hd.
  replace (Z.max (53 + (e + n) - 53) (3 - 1024 - 53) - (e + n)) with 0 by lia.
  cbn [shr shr_m].
  replace (e + n <=? 1024 - 53) with true by (symmetry; apply Z.leb_le; lia).
  reflexivity.
Qed.

Lemma pow2_pos (e : Z) : (0 < 2 ^ e)%Q.
Proof. apply Qpower_0_lt. reflexivity. Qed.

Lemma pow2_add (a b : Z) : (2 ^ (a + b) == 2 ^ a * 2 ^ b)%Q.
Proof. apply Qpower_plus. discriminate. Qed.

Lemma pow2_inject (n : Z) : 0 <= n -> (2 ^ n == inject_Z (2 ^ n))%Q.
Proof. intros Hn. symmetry. apply (Zpower_Qpower 2 n Hn). Qed.

Lemma pow2_le (a b : Z) : a <= b -> (2 ^ a <= 2 ^ b)%Q.
Proof.
  intros Hab. replace b with (a + (b - a)) by lia.
  rewrite pow2_add, (pow2_inject (b - a)) by lia.
  assert (H1 : (1 <= inject_Z (2 ^ (b - a)))%Q).
  { change 1%Q with (inject_Z 1). rewrite <- Zle_Qle.
    assert (0 < 2 ^ (b - a)) by (apply Z.pow_pos_nonneg; lia). lia. }
  pose proof (pow2_pos a) as Hpos.
  rewrite <- (Qmult_1_r (2 ^ a)) at 1.
  apply Qmult_le_l; assumption.
Qed.

(** The shape of a finite binary64 float. *)
Lemma valid_finite (x : float) (s : bool) (m : positive) (e : Z) :
  Prim2SF x = S754_finite s m e ->
  -1074 <= e <= 971
  /\ Zpos (digits2_pos m) <= 53
  /\ (-1074 < e -> Zpos (digits2_pos m) = 53).
Proof.
  intros E. pose proof (Prim2SF_valid x) as Hv. rewrite E in Hv.
  cbn [SpecFloat.valid_binary] in Hv. unfold bounded, canonical_mantissa in Hv.
  apply andb_prop in Hv as [Hc Hb].
  apply Z.eqb_eq in Hc. apply Z.leb_le in Hb.
  unfold fexp, SpecFloat.emin in Hc. change prec with 53 in *. change emax with 1024 in *.
  lia.
Qed.

Lemma magnitude_le_1 (m : positive) (e : Z) :
  2 ^ 52 <= Zpos m ->
  (inject_Z (Zpos m) * 2 ^ e <= 1)%Q ->
  e <= -52 /\ (e = -52 -> Zpos m = 2 ^ 52).
Proof.
  intros Hm Hle.
  assert (He : e <= -52).
  { destruct (Z.le_gt_cases e (-52)) as [|Hgt]; [assumption|exfalso].
    pose proof (pow2_le (-51) e ltac:(lia)) as Hpow.
    assert (H52 : (inject_Z (2 ^ 52) <= inject_Z (Zpos m))%Q)
      by (rewrite <- Zle_Qle; exact Hm).
    assert (H2 : (inject_Z (2 ^ 52) * 2 ^ (-51) == 2)%Q) by reflexivity.
    pose proof (pow2_pos (-51)) as Hpos.
    assert (Hprod : (inject_Z (2 ^ 52) * 2 ^ (-51) <= inject_Z (Zpos m) * 2 ^ e)%Q).
    { apply Qle_trans with (inject_Z (Zpos m) * 2 ^ (-51))%Q.
      - apply Qmult_le_compat_r; [exact H52 | apply Qlt_le_weak, Hpos].
      - apply Qmult_le_l; [|exact Hpow].
        change 0%Q with (inject_Z 0). rewrite <- Zlt_Qlt. lia. }
    rewrite H2 in Hprod. lra. }
  split; [exact He|]. intros ->.
  assert (Hq : (inject_Z (Zpos m) <= inject_Z (2 ^ 52))%Q).
  { apply (Qmult_le_r _ _ (2 ^ (-52))%Q); [apply pow2_pos|].
    eapply Qle_trans; [exact Hle|]. apply Qle_lteq. right. reflexivity. }
  rewrite <- Zle_Qle in Hq. lia.
Qed.

Lemma finite_cases (x : float) :
  is_finite x = true ->
  (exists s, Prim2SF x = S754_zero s)
  \/ (exists s m e, Prim2SF x = S754_finite s m e).
Proof.
  unfold is_finite, Prim2SF. intros Hfin.
  destruct (is_nan x); [discriminate|].
  destruct (is_zero x); [left; eauto|].
  destruct (is_infinity x); [discriminate|].
  destruct (Z.frexp x) as [r e].
  destruct (shr_fexp prec emax (Uint63.to_Z (normfr_mantissa r)) (e - prec) loc_Exact)
    as [shr e'].
  destruct (shr_m shr); eauto.
Qed.

(** On a finite sample of [-1,1] the clamp returns its argument. *)
Lemma ltb_one_false (x : float) :
  is_finite x = true -> (value x <= 1)%Q -> (1 <? x)%float = false.
Proof.
  intros Hfin Hle. rewrite ltb_spec.
  change (Prim2SF 1) with (S754_finite false 4503599627370496 (-52)).
  unfold value in Hle.
  destruct (finite_cases x Hfin) as [[s E] | (s & m & e & E)]; rewrite E in *.
  - reflexivity.
  - destruct s; [reflexivity|].
    destruct (valid_finite x _ _ _ E) as (Hrange & Hd & Hnormal).
    cbn [cond_Zopp] in Hle.
    unfold SFltb, SFcompare.
    destruct (Z.compare_spec (-52) e) as [<- | Hlt | Hgt]; [| |reflexivity].
    + pose proof (digits2_pos_bounds m) as [Hlo _].
      rewrite Hnormal in Hlo by lia.
      destruct (magnitude_le_1 m (-52) Hlo Hle) as [_ Hm].
      specialize (Hm eq_refl). injection Hm as ->. reflexivity.
    + pose proof (digits2_pos_bounds m) as [Hlo _].
      rewrite Hnormal in Hlo by lia.
      destruct (magnitude_le_1 m e Hlo Hle) as [He _]. lia.
Qed.

Lemma ltb_minus_one_false (x : float) :
  is_finite x = true -> (-1 <= value x)%Q -> (x <? -1)%float = false.
Proof.
  intros Hfin Hle. rewrite ltb_spec.
  change (Prim2SF (-1)) with (S754_finite true 4503599627370496 (-52)).
  unfold value in Hle.
  destruct (finite_cases x Hfin) as [[s E] | (s & m & e & E)]; rewrite E in *.
  - reflexivity.
  - destruct s; [|reflexivity].
    destruct (valid_finite x _ _ _ E) as (Hrange & Hd & Hnormal).
    cbn [cond_Zopp] in Hle.
    assert (Hle' : (inject_Z (Zpos m) * 2 ^ e <= 1)%Q).
    { change (Z.opp (Zpos m)) with (- Zpos m) in Hle.
      rewrite inject_Z_opp in Hle. lra. }
    unfold SFltb, SFcompare.
    destruct (Z.compare_spec e (-52)) as [-> | Hlt | Hgt]; [|reflexivity|].
    + pose proof (digits2_pos_bounds m) as [Hlo _].
      rewrite Hnormal in Hlo by lia.
      destruct (magnitude_le_1 m (-52) Hlo Hle') as [_ Hm].
      specialize (Hm eq_refl). injection Hm as ->. reflexivity.
    + pose proof (digits2_pos_bounds m) as [Hlo _].
      rewrite Hnormal in Hlo by lia.
      destruct (magnitude_le_1 m e Hlo Hle') as [He _]. lia.
Qed.

Lemma clamp_id (x : float) :
  is_finite x = true -> (-1 <= value x <= 1)%Q ->
  Math_max (-1) (Math_min 1 x) = x.
Proof.
  intros Hfin [Hlo Hhi].
  assert (Hnan : is_nan x = false).
  { unfold is_finite in Hfin. destruct (is_nan x); [discriminate | reflexivity]. }
  assert (Hmin : Math_min 1 x = x).
  { unfold Math_min. rewrite Hnan, (ltb_one_false x Hfin Hhi).
    change (is_nan 1) with false. change (get_sign 1) with false. cbn [orb].
    destruct (x <? 1)%float; reflexivity. }
  rewrite Hmin. unfold Math_max. rewrite Hnan, (ltb_minus_one_false x Hfin Hlo).
  change (is_nan (-1)) with false. change (get_sign (-1)) with true. cbn [orb].
  destruct (-1 <? x)%float; reflexivity.
Qed.

Lemma normalize_exact (P : positive) (n : Z) :
  n = Zpos (digits2_pos P) - 53 -> 0 <= n -> Zpos P mod 2 ^ n = 0 ->
  exists K : positive, Zpos P = Zpos K * 2 ^ n /\ Zpos (digits2_pos K) = 53.
Proof.
  intros Hn Hpos Hmod.
  assert (H2 : 0 < 2 ^ n) by (apply Z.pow_pos_nonneg; lia).
  apply Z.div_exact in Hmod; [|lia].
  pose proof (digits2_pos_bounds P) as [Hlo Hhi].
  replace (Zpos (digits2_pos P)) with (53 + n) in Hlo, Hhi by lia.
  replace (53 + n - 1) with (52 + n) in Hlo by lia.
  rewrite Z.pow_add_r in Hlo, Hhi by lia.
  set (k := Zpos P / 2 ^ n) in *.
  assert (Hk : 2 ^ 52 <= k < 2 ^ 53) by (split; nia).
  destruct k as [|K|K] eqn:Ek; try (cbn in Hk; lia).
  exists K. split; [lia|].
  apply digits2_pos_unique. exact Hk.
Qed.

Lemma value_finite (x : float) (s : bool) (m : positive) (e : Z) :
  Prim2SF x = S754_finite s m e ->
  value x = (inject_Z (cond_Zopp s (Zpos m)) * 2 ^ e)%Q.
Proof. intros E. unfold value. rewrite E. reflexivity. Qed.

Lemma is_float32_finite (x : float) (s : bool) (m : positive) (e : Z) :
  is_float32 x = true -> Prim2SF x = S754_finite s m e ->
  Zpos m mod 2 ^ 29 = 0 /\ -201 <= e.
Proof.
  intros H32 E. unfold is_float32 in H32. rewrite E in H32.
  apply andb_prop in H32 as [Hmod _]. apply Z.eqb_eq in Hmod.
  destruct (valid_finite x _ _ _ E) as (_ & Hd & _).
  pose proof (digits2_pos_bounds m) as [_ Hhi].
  assert (Hm : Zpos m < 2 ^ 53).
  { eapply Z.lt_le_trans; [exact Hhi|]. apply Z.pow_le_mono_r; lia. }
  set (t := Z.max 29 (-149 - e)) in *.
  assert (Ht : 0 < 2 ^ t) by (apply Z.pow_pos_nonneg; lia).
  apply Z.mod_divide in Hmod; [|lia]. destruct Hmod as [a Ha].
  assert (Hge : 2 ^ t <= Zpos m).
  { assert (0 < a) by (apply (Z.mul_pos_cancel_r a (2 ^ t)); lia).
    rewrite Ha. nia. }
  assert (Hle : t <= 52).
  { destruct (Z.le_gt_cases t 52) as [|Hgt]; [assumption|exfalso].
    assert (2 ^ 53 <= 2 ^ t) by (apply Z.pow_le_mono_r; lia). lia. }
  split; [|lia].
  apply Z.mod_divide; [lia|]. exists (a * 2 ^ (t - 29)).
  rewrite Ha, <- Z.mul_assoc, <- Z.pow_add_r by lia.
  do 2 f_equal. lia.
Qed.

(** The binary64 product of a binary32 sample of [-1,1] with 32767 is
    exact: 24 significant bits times 15 fit in 53. *)
Lemma mul_32767_exact (x : float) :
  is_finite x = true -> is_float32 x = true -> (-1 <= value x <= 1)%Q ->
  match Prim2SF (x * 32767)%float with
  | S754_zero _ | S754_finite _ _ _ => True
  | _ => False
  end
  /\ (value (x * 32767)%float == value x * 32767)%Q.
Proof.
  intros Hfin H32 [Hlo Hhi].
  unfold value at 1. rewrite mul_spec.
  set (MY := 9006924376834048%positive).
  change (Prim2SF 32767) with (S754_finite false MY (-38)).
  destruct (finite_cases x Hfin) as [[s E] | (s & m & e & E)].
  - unfold value. rewrite E. cbn. split; [exact I | reflexivity].
  - rewrite (value_finite x s m e E) in *. rewrite E.
    destruct (valid_finite x _ _ _ E) as (Hrange & _ & Hnormal).
    destruct (is_float32_finite x _ _ _ H32 E) as [Hmod He].
    specialize (Hnormal ltac:(lia)).
    pose proof (digits2_pos_bounds m) as [Hmlo Hmhi]. rewrite Hnormal in Hmlo, Hmhi.
    assert (Hmag : (inject_Z (Zpos m) * 2 ^ e <= 1)%Q).
    { destruct s; cbn [cond_Zopp] in Hlo, Hhi; [|exact Hhi].
      change (Z.opp (Zpos m)) with (- Zpos m) in Hlo.
      rewrite inject_Z_opp in Hlo. lra. }
    destruct (magnitude_le_1 m e Hmlo Hmag) as [Hemax _].
    (* the exact product and its normal form *)
    set (P := (m * MY)%positive).
    assert (HP : 2 ^ 104 <= Zpos P < 2 ^ 106).
    { subst P. rewrite Pos2Z.inj_mul.
      assert (2 ^ 52 <= Zpos MY < 2 ^ 53) by (split; vm_compute; congruence).
      change (2 ^ 104) with (2 ^ 52 * 2 ^ 52). change (2 ^ 106) with (2 ^ 53 * 2 ^ 53).
      split; nia. }
    pose proof (digits2_pos_bounds P) as [HdPlo HdPhi].
    set (n := Zpos (digits2_pos P) - 53).
    assert (Hn : 52 <= n <= 53).
    { subst n. split.
      - destruct (Z.le_gt_cases 105 (Zpos (digits2_pos P))); [lia|].
        assert (2 ^ Zpos (digits2_pos P) <= 2 ^ 104)
          by (apply Z.pow_le_mono_r; lia). lia.
      - destruct (Z.le_gt_cases (Zpos (digits2_pos P)) 106); [lia|].
        assert (2 ^ 106 <= 2 ^ (Zpos (digits2_pos P) - 1))
          by (apply Z.pow_le_mono_r; lia). lia. }
    assert (Hdiv : Zpos P mod 2 ^ n = 0).
    { apply Z.mod_divide; [apply Z.pow_nonzero; lia|].
      apply Z.divide_trans with (2 ^ 67).
      - exists (2 ^ (67 - n)). rewrite <- Z.pow_add_r by lia. f_equal. lia.
      - subst P. rewrite Pos2Z.inj_mul.
        change (2 ^ 67) with (2 ^ 29 * 2 ^ 38).
        apply Z.mod_divide in Hmod; [|lia].
        destruct Hmod as [a Ha]. exists (a * (Zpos MY / 2 ^ 38)).
        rewrite Ha.
        replace (Zpos MY) with (Zpos MY / 2 ^ 38 * 2 ^ 38) at 1
          by (vm_compute; reflexivity).
        ring. }
    destruct (normalize_exact P n eq_refl ltac:(lia) Hdiv) as (K & HK & HdK).
    cbn [SF64mul SFmul]. unfold SF64mul, SFmul. fold P.
    rewrite HK.
    rewrite (binary_round_aux_exact _ K n (e + -38) HdK) by lia.
    split; [exact I|].
    (* the values agree *)
    assert (HMY : (inject_Z (Zpos MY) * 2 ^ (-38) == 32767)%Q) by reflexivity.
    replace (e + -38 + n) with (n + (e + -38)) by lia.
    rewrite !pow2_add, (pow2_inject n) by lia.
    assert (HKQ : (inject_Z (Zpos K) * inject_Z (2 ^ n)
                   == inject_Z (Zpos m) * inject_Z (Zpos MY))%Q).
    { rewrite <- !inject_Z_mult, <- HK. subst P. rewrite Pos2Z.inj_mul.
      reflexivity. }
    rewrite <- HMY.
    assert (Hre : forall a b c d mm my : Q,
               (a * b == mm * my -> a * (b * (c * d)) == mm * c * (my * d))%Q).
    { intros a b c d mm my H. transitivity ((a * b) * (c * d))%Q; [ring|].
      rewrite H. ring. }
    apply Hre.
    destruct s; cbn [xorb cond_Zopp]; [|exact HKQ].
    change (Z.neg K) with (- Zpos K). change (Z.neg m) with (- Zpos m).
    rewrite !inject_Z_opp.
    transitivity (- (inject_Z (Zpos K) * inject_Z (2 ^ n)))%Q; [ring|].
    rewrite HKQ. ring.
Qed.

Lemma round_close (c : Q) :
  (-1 <= c <= 1)%Q ->
  -32767 <= Qfloor (c * 32767 + (1 # 2)) <= 32767
  /\ (Qabs (inject_Z (Qfloor (c * 32767 + (1 # 2))) / 32767 - c)
      <= 1 # 65534)%Q.
Proof.
  intros [Hlo Hhi].
  set (y := (c * 32767 + (1 # 2))%Q).
  pose proof (Qfloor_le y) as Hfl. pose proof (Qlt_floor y) as Hlt.
  set (k := Qfloor y) in *. clearbody k.
  rewrite inject_Z_plus in Hlt. change (inject_Z 1) with 1%Q in Hlt.
  assert (Hy : (-65533 # 2 <= y <= 65535 # 2)%Q) by (subst y; split; lra).
  split.
  - assert (H1 : (inject_Z k <= 65535 # 2)%Q) by lra.
    assert (H2 : (-65535 # 2 < inject_Z k)%Q) by lra.
    unfold Qle in H1. unfold Qlt in H2. cbn in H1, H2. lia.
  - apply Qabs_Qle_condition. unfold Qdiv. subst y.
    change (/ 32767)%Q with (1 # 32767)%Q. split; lra.
Qed.

(** On a binary32 sample of [-1,1] the clamp is the identity and the
    binary64 product is exact, so the encoder rounds the exact product. *)
Lemma floatToPCM16_at_exact (x : float) :
  is_float32 x = true -> is_finite x = true -> (-1 <= value x <= 1)%Q ->
  floatToPCM16_at x = ToInt16 (Qfloor (value x * 32767 + (1 # 2))).
Proof.
  intros H32 Hfin Hrange. unfold floatToPCM16_at. cbv zeta.
  rewrite (clamp_id x Hfin Hrange).
  destruct (mul_32767_exact x Hfin H32 Hrange) as [Hshape Hval].
  assert (Hfl : Qfloor (value (x * 32767)%float + (1 # 2))
                = Qfloor (value x * 32767 + (1 # 2))).
  { apply Qfloor_comp. rewrite Hval. reflexivity. }
  unfold Math_round.
  destruct (Prim2SF (x * 32767)%float); try contradiction;
    rewrite Hfl; reflexivity.
Qed.

Lemma ToInt16_id (k : Z) : -32768 <= k <= 32767 -> ToInt16 k = k.
Proof.
  intros Hk. unfold ToInt16.
  destruct (Z.leb_spec 32768 (k mod 65536)) as [Hhi|Hlo].
  - assert (k < 0) by (destruct (Z.lt_ge_cases k 0); [assumption|];
      rewrite Z.mod_small in Hhi; lia).
    replace k with (k + 65536 - 1 * 65536) at 1 by lia.
    rewrite Zminus_mod, Z_mod_mult, Z.sub_0_r, Zmod_mod, Z.mod_small; lia.
  - assert (0 <= k) by (destruct (Z.lt_ge_cases k 0); [|assumption];
      replace k with (k + 65536 - 1 * 65536) in Hlo by lia;
      rewrite Zminus_mod, Z_mod_mult, Z.sub_0_r, Zmod_mod, Z.mod_small in Hlo;
      lia).
    apply Z.mod_small. lia.
Qed.

Lemma roundtrip_at (x : float) :
  is_float32 x = true -> is_finite x = true -> (-1 <= value x <= 1)%Q ->
  -32767 <= floatToPCM16_at x <= 32767
  /\ (Qabs (value (pcm16ToFloat_at (floatToPCM16_at x)) - value x)
      <= 1 # 32767)%Q.
Proof.
  intros H32 Hfin Hrange.
  rewrite (floatToPCM16_at_exact x H32 Hfin Hrange).
  destruct (round_close (value x) Hrange) as [Hk Hround].
  set (k := Qfloor (value x * 32767 + (1 # 2))) in *. clearbody k.
  rewrite ToInt16_id by lia. split; [exact Hk|].
  pose proof (decode_error k Hk) as Hdec.
  apply Qabs_Qle_condition in Hround, Hdec. apply Qabs_Qle_condition.
  destruct Hround, Hdec. split; lra.
Qed.

(** C7. For every [Float32Array] sample x in [-1,1], decoding the encoded
    sample gives a value within 1/32767 of x. No such sample is encoded as
    -32768, the one value on which the asymmetric clamp shows. *)
Theorem codec_roundtrip (floatSamples : list float) :
  Forall (fun x => is_float32 x = true /\ is_finite x = true
                   /\ (-1 <= value x <= 1)%Q) floatSamples ->
  Forall (fun s => -32767 <= s <= 32767) (floatToPCM16 floatSamples)
  /\ Forall2 (fun x y => (Qabs (value y - value x) <= 1 # 32767)%Q)
       floatSamples (pcm16ToFloat (floatToPCM16 floatSamples)).
Proof.
  unfold pcm16ToFloat, floatToPCM16.
  induction 1 as [|x rest (H32 & Hfin & Hrange) _ [IH1 IH2]]; cbn [map].
  - split; constructor.
  - destruct (roundtrip_at x H32 Hfin Hrange) as [Hk Hclose].
    split; constructor; assumption.
Qed.

Lemma codec_roundtrip_witness :
  let floatSamples :=
    [0.5%float; (-1)%float; fround 0.1%float; fround (-0.3)%float;
     0%float; 1%float] in
  Forall (fun x => is_float32 x = true /\ is_finite x = true
                   /\ (-1 <= value x <= 1)%Q) floatSamples
  /\ Forall (fun s => -32767 <= s <= 32767) (floatToPCM16 floatSamples)
  /\ Forall2 (fun x y => (Qabs (value y - value x) <= 1 # 32767)%Q)
       floatSamples (pcm16ToFloat (floatToPCM16 floatSamples)).
Proof.
  intros floatSamples.
  assert (H : Forall (fun x => is_float32 x = true /\ is_finite x = true
                              /\ (-1 <= value x <= 1)%Q) floatSamples).
  { repeat constructor; vm_compute; (reflexivity || discriminate). }
  split; [exact H | apply (codec_roundtrip floatSamples H)].
Defined.

(* --------------------------------------------------------------------- *)
(** ** The playback scheduler *)

Import Connections.

Ltac state_simpl :=
  cbn [isConnected connectionStatus isPlaying volumeLevel playbackStatus
       audioContext audioQueue isPlaybackActive nextPlayTime started
       timeouts errors
       set_isConnected set_connectionStatus set_isPlaying set_volumeLevel
       set_playbackStatus set_audioContext set_audioQueue
       set_isPlaybackActive set_nextPlayTime source_start setTimeout
       console_error negb orb andb].

Lemma pairs_ind {A : Type} (P : list A -> Prop) :
  P [] -> (forall x, P [x]) -> (forall x y l, P l -> P (x :: y :: l)) ->
  forall l, P l.
Proof.
  intros Hnil Hone Hstep l.
  assert (H : P l /\ forall x, P (x :: l)).
  { induction l as [|y l [IH1 IH2]]; split; auto. }
  exact (proj1 H).
Qed.

Lemma length_int16_elements (bytes : list byte) :
  length (int16_elements bytes) = Nat.div2 (length bytes).
Proof.
  induction bytes as [|x|lo hi rest IH] using pairs_ind; [reflexivity..|].
  cbn [int16_elements length Nat.div2]. rewrite IH. reflexivity.
Qed.

Lemma new_Int16Array_even (arrayBuffer : list byte) :
  Nat.even (length arrayBuffer) = true ->
  new_Int16Array arrayBuffer = Some (int16_elements arrayBuffer).
Proof. intros H. unfold new_Int16Array. rewrite H. reflexivity. Qed.

Lemma new_Int16Array_odd (arrayBuffer : list byte) :
  Nat.even (length arrayBuffer) = false ->
  new_Int16Array arrayBuffer = None.
Proof. intros H. unfold new_Int16Array. rewrite H. reflexivity. Qed.

Lemma length_pcm16ToFloat (pcmSamples : list Z) :
  length (pcm16ToFloat pcmSamples) = length pcmSamples.
Proof. apply length_map. Qed.

(** *** What one call does to the scheduler *)

(** A payload of odd length: only the error is logged. *)
Lemma handlePCMData_odd (currentTime : num) (arrayBuffer : list byte) (st : State) :
  Nat.even (length arrayBuffer) = false ->
  handlePCMData true currentTime arrayBuffer st
  = console_error "Error processing PCM data:" st.
Proof.
  intros H. unfold handlePCMData. cbn [negb].
  rewrite new_Int16Array_odd by exact H. reflexivity.
Qed.

(** A payload of even length while the scheduler is active (or has no
    audio context): the frame is appended and the volume updated. *)
Lemma handlePCMData_enqueue (currentTime : num) (arrayBuffer : list byte)
    (pcmSamples : list Z) (st : State) :
  new_Int16Array arrayBuffer = Some pcmSamples ->
  isPlaybackActive st = true \/ audioContext st = false ->
  handlePCMData true currentTime arrayBuffer st
  = set_audioQueue (audioQueue st ++ [pcm16ToFloat pcmSamples])
      (set_volumeLevel
         (calculateVolume (Float32Array (pcm16ToFloat pcmSamples))) st).
Proof.
  intros Hpcm Hst. unfold handlePCMData. cbn [negb]. rewrite Hpcm.
  state_simpl. unfold processAudioQueue. state_simpl.
  destruct Hst as [-> | ->]; state_simpl; [reflexivity|].
  destruct (isPlaybackActive st); reflexivity.
Qed.

(** A payload of even length while the scheduler is idle: the frame is
    appended and [processChunk] runs at once. *)
Lemma handlePCMData_wake (currentTime : num) (arrayBuffer : list byte)
    (pcmSamples : list Z) (st : State) :
  new_Int16Array arrayBuffer = Some pcmSamples ->
  isPlaybackActive st = false -> audioContext st = true ->
  handlePCMData true currentTime arrayBuffer st
  = processChunk true currentTime
      (set_playbackStatus "Playing audio"
         (set_isPlaybackActive true
            (set_audioQueue (audioQueue st ++ [pcm16ToFloat pcmSamples])
               (set_volumeLevel
                  (calculateVolume (Float32Array (pcm16ToFloat pcmSamples)))
                  st)))).
Proof.
  intros Hpcm Hidle Hctx. unfold handlePCMData. cbn [negb]. rewrite Hpcm.
  state_simpl. rewrite Hidle. state_simpl.
  unfold processAudioQueue. state_simpl. rewrite Hidle, Hctx. reflexivity.
Qed.

(** The scheduling branch of [processChunk]. *)
Lemma processChunk_schedule (currentTime : num) (audioData : list float)
    (rest : list (list float)) (st : State) :
  audioContext st = true -> audioQueue st = audioData :: rest ->
  audioData <> [] ->
  let st' := processChunk true currentTime st in
  started st' = started st ++ [(nextPlayTime st, length audioData)]
  /\ nextPlayTime st'
     = (if (nextPlayTime st + chunkDuration audioData <? currentTime)%float
        then currentTime
        else (nextPlayTime st + chunkDuration audioData)%float)
  /\ audioQueue st' = rest
  /\ timeouts st' = timeouts st ++ [(chunkDuration audioData * 1000 / 2)%float]
  /\ audioContext st' = true
  /\ isPlaybackActive st' = isPlaybackActive st
  /\ volumeLevel st' = volumeLevel st
  /\ playbackStatus st' = playbackStatus st
  /\ errors st' = errors st.
Proof.
  intros Hctx Hqueue Hne st'. subst st'. unfold processChunk.
  rewrite Hctx, Hqueue. cbn [negb orb length Nat.eqb].
  destruct audioData as [|x audioData]; [contradiction|].
  cbn [length Nat.eqb]. state_simpl.
  destruct (_ <? _)%float; state_simpl; rewrite ?Hctx; repeat split.
Qed.

(** The underrun branch of [processChunk]. *)
Lemma processChunk_underrun (playing : bool) (currentTime : num) (st : State) :
  audioQueue st = [] ->
  processChunk playing currentTime st
  = set_volumeLevel 0%float
      (set_playbackStatus
         (if playing then "Waiting for audio data" else "Stopped")
         (set_isPlaybackActive false st)).
Proof.
  intros Hqueue. unfold processChunk. rewrite Hqueue.
  cbn [length Nat.eqb]. rewrite !orb_true_r. reflexivity.
Qed.

(** Whatever the head of a non-empty queue is, [processChunk] takes it off
    the queue and leaves the volume alone. *)
Lemma processChunk_dequeue (currentTime : num) (st : State) :
  audioContext st = true -> audioQueue st <> [] ->
  audioQueue (processChunk true currentTime st) = tail (audioQueue st)
  /\ volumeLevel (processChunk true currentTime st) = volumeLevel st.
Proof.
  intros Hctx Hne. unfold processChunk. rewrite Hctx.
  destruct (audioQueue st) as [|audioData rest] eqn:Hqueue; [contradiction|].
  cbn [negb orb length Nat.eqb tail]. state_simpl.
  destruct (length audioData =? 0)%nat; state_simpl; [split; reflexivity|].
  destruct (_ <? _)%float; state_simpl; split; reflexivity.
Qed.

(** C9. A payload that reaches [handlePCMData] while the playing flag is
    false is discarded before any processing: the state, and with it the
    jitter queue, [nextPlayTime] and the reported volume, is unchanged. *)
Theorem discarded_when_not_playing (currentTime : num)
    (arrayBuffer : list byte) (st : State) :
  let st' := handlePCMData false currentTime arrayBuffer st in
  st' = st
  /\ onmessage false currentTime (Binary arrayBuffer) st = st
  /\ audioQueue st' = audioQueue st
  /\ nextPlayTime st' = nextPlayTime st
  /\ volumeLevel st' = volumeLevel st.
Proof. repeat split. Qed.

(** C8. A scheduling step that finds the jitter queue empty reports
    "Waiting for audio data", leaves [nextPlayTime] unchanged, sets the
    volume level to zero and sets no timeout; the next frame that arrives
    is scheduled at once, at the unchanged [nextPlayTime]. *)
Theorem underrun_waits_and_resumes (currentTime : num) (st : State) :
  audioQueue st = [] ->
  let st' := processChunk true currentTime st in
  playbackStatus st' = "Waiting for audio data"%string
  /\ nextPlayTime st' = nextPlayTime st
  /\ volumeLevel st' = 0%float
  /\ isPlaybackActive st' = false
  /\ started st' = started st
  /\ timeouts st' = timeouts st
  /\ forall (arrival : num) (arrayBuffer : list byte),
       audioContext st = true ->
       Nat.even (length arrayBuffer) = true -> arrayBuffer <> [] ->
       let st'' := handlePCMData true arrival arrayBuffer st' in
       started st''
       = started st ++ [(nextPlayTime st, Nat.div2 (length arrayBuffer))]
       /\ isPlaybackActive st'' = true
       /\ playbackStatus st'' = "Playing audio"%string
       /\ audioQueue st'' = [].
Proof.
  intros Hqueue st'. subst st'.
  rewrite processChunk_underrun by exact Hqueue.
  do 6 (split; [reflexivity|]).
  intros arrival arrayBuffer Hctx Heven Hne.
  set (frame := pcm16ToFloat (int16_elements arrayBuffer)).
  assert (Hlen : length frame = Nat.div2 (length arrayBuffer)).
  { subst frame. rewrite length_pcm16ToFloat. apply length_int16_elements. }
  assert (Hframe : frame <> []).
  { intros Hnil. rewrite Hnil in Hlen.
    destruct arrayBuffer as [|x [|y l]]; [contradiction|discriminate..]. }
  rewrite (handlePCMData_wake _ _ _ _ (new_Int16Array_even _ Heven))
    by (state_simpl; auto).
  fold frame.
  match goal with
  | |- context [processChunk true arrival ?s] => set (woken := s)
  end.
  destruct (processChunk_schedule arrival frame [] woken)
    as (Hstarted & _ & Hrest & _ & _ & Hactive & _ & Hstatus & _).
  - subst woken. state_simpl. exact Hctx.
  - subst woken. state_simpl. rewrite Hqueue. reflexivity.
  - exact Hframe.
  - cbv zeta. rewrite Hstarted, Hrest, Hactive, Hstatus, Hlen. subst woken.
    state_simpl. repeat split.
Qed.

Lemma underrun_waits_and_resumes_witness :
  audioQueue (session 0) = []
  /\ let st' := processChunk true 5 (session 0) in
     playbackStatus st' = "Waiting for audio data"%string
     /\ nextPlayTime st' = nextPlayTime (session 0)
     /\ volumeLevel st' = 0%float
     /\ isPlaybackActive st' = false
     /\ started st' = started (session 0)
     /\ timeouts st' = timeouts (session 0)
     /\ forall (arrival : num) (arrayBuffer : list byte),
          audioContext (session 0) = true ->
          Nat.even (length arrayBuffer) = true -> arrayBuffer <> [] ->
          let st'' := handlePCMData true arrival arrayBuffer st' in
          started st''
          = started (session 0)
            ++ [(nextPlayTime (session 0), Nat.div2 (length arrayBuffer))]
          /\ isPlaybackActive st'' = true
          /\ playbackStatus st'' = "Playing audio"%string
          /\ audioQueue st'' = [].
Proof.
  split; [reflexivity|].
  apply (underrun_waits_and_resumes 5 (session 0)). reflexivity.
Defined.

(** C5 (as amended). A binary payload of odd byte length is dropped: no
    frame is appended to the jitter queue, the connection stays as it was
    and the scheduler keeps its clock, its queue and its activity flag. An
    error is reported when the handler runs with the playing flag true;
    with the flag false the payload is discarded silently. *)
Theorem odd_payload_dropped (playing : bool) (currentTime : num)
    (arrayBuffer : list byte) (st : State) :
  Nat.odd (length arrayBuffer) = true ->
  let st' := onmessage playing currentTime (Binary arrayBuffer) st in
  st' = (if playing then console_error "Error processing PCM data:" st else st)
  /\ audioQueue st' = audioQueue st
  /\ errors st'
     = (if playing
        then errors st ++ ["Error processing PCM data:"%string]
        else errors st)
  /\ isConnected st' = isConnected st
  /\ connectionStatus st' = connectionStatus st
  /\ isPlaying st' = isPlaying st
  /\ audioContext st' = audioContext st
  /\ isPlaybackActive st' = isPlaybackActive st
  /\ nextPlayTime st' = nextPlayTime st
  /\ started st' = started st.
Proof.
  intros Hodd st'. subst st'. cbn [onmessage].
  destruct playing; [|repeat split].
  rewrite handlePCMData_odd; [repeat split|].
  unfold Nat.odd in Hodd. destruct (Nat.even (length arrayBuffer));
    [discriminate | reflexivity].
Qed.

Lemma odd_payload_dropped_witness :
  Nat.odd (length [x01; x02; x03]) = true
  /\ let st' := onmessage true 0 (Binary [x01; x02; x03]) (session 0) in
     st' = console_error "Error processing PCM data:" (session 0)
     /\ audioQueue st' = audioQueue (session 0)
     /\ errors st' = errors (session 0) ++ ["Error processing PCM data:"%string]
     /\ isConnected st' = isConnected (session 0)
     /\ connectionStatus st' = connectionStatus (session 0)
     /\ isPlaying st' = isPlaying (session 0)
     /\ audioContext st' = audioContext (session 0)
     /\ isPlaybackActive st' = isPlaybackActive (session 0)
     /\ nextPlayTime st' = nextPlayTime (session 0)
     /\ started st' = started (session 0).
Proof.
  split; [reflexivity|].
  apply (odd_payload_dropped true 0 [x01; x02; x03] (session 0)).
  reflexivity.
Defined.

(** C5 as stated fails twice. A payload of zero bytes, whose length is not
    a positive multiple of 2, is not dropped: arriving while a frame is
    being played it is appended to the jitter queue as an empty frame, and
    no error is reported. And a payload of odd length that meets a false
    playing flag is dropped without any error being reported. *)
Lemma malformed_payload_as_stated_fails :
  let st := run (session 0) [Message true 0 (Binary [x00; x00])] in
  let st' := onmessage true 0 (Binary []) st in
  let st'' := onmessage false 0 (Binary [x01]) st in
  (audioQueue st = [] /\ audioQueue st' = [[]] /\ errors st' = errors st)
  /\ errors st'' = errors st.
Proof. vm_compute. repeat split. Qed.

(** C10 (as amended). A binary payload of zero bytes passes the binary
    check of [onmessage] and, when the handler runs with the playing flag
    true, is processed, not rejected: it is a valid (empty) [Int16Array],
    the RMS volume of the empty frame is NaN, which is neither at least 0
    nor at most 100, that NaN becomes the reported volume level, and the
    empty frame is appended to the jitter queue (from which the
    scheduler, if it was idle, takes the oldest frame at once). With the
    flag false it is discarded like every other payload. *)
Theorem empty_payload_is_processed (playing : bool) (currentTime : num)
    (st : State) :
  let st' := onmessage playing currentTime (Binary []) st in
  new_Int16Array [] = Some []
  /\ is_nan (calculateVolume (Float32Array (pcm16ToFloat []))) = true
  /\ if playing
     then
       is_nan (volumeLevel st') = true
       /\ (0 <=? volumeLevel st')%float = false
       /\ (volumeLevel st' <=? 100)%float = false
       /\ audioQueue st'
          = (if isPlaybackActive st || negb (audioContext st)
             then audioQueue st ++ [[]]
             else tail (audioQueue st ++ [[]]))
     else st' = st.
Proof.
  intros st'. subst st'. cbn [onmessage].
  assert (Hvol : calculateVolume (Float32Array (pcm16ToFloat [])) = nan)
    by (vm_compute; reflexivity).
  split; [reflexivity|]. split; [rewrite Hvol; reflexivity|].
  destruct playing; [|reflexivity].
  assert (Hst : (isPlaybackActive st = true \/ audioContext st = false)
                \/ (isPlaybackActive st = false /\ audioContext st = true)).
  { destruct (isPlaybackActive st), (audioContext st); auto. }
  destruct Hst as [Hbusy | [Hidle Hctx]].
  - rewrite (handlePCMData_enqueue _ [] [] st eq_refl Hbusy).
    state_simpl. rewrite Hvol.
    replace (isPlaybackActive st || negb (audioContext st)) with true
      by (destruct Hbusy as [-> | ->]; [reflexivity | apply eq_sym, orb_true_r]).
    repeat split.
  - rewrite (handlePCMData_wake _ [] [] st eq_refl Hidle Hctx).
    rewrite Hidle, Hctx. cbn [negb orb].
    match goal with
    | |- context [processChunk true currentTime ?s] =>
        destruct (processChunk_dequeue currentTime s) as [Hq Hv]
    end.
    + state_simpl. exact Hctx.
    + state_simpl. destruct (audioQueue st); discriminate.
    + rewrite Hq, Hv. state_simpl. rewrite Hvol. repeat split.
Qed.

(** C10 as stated fails: a handler whose playing flag is false does not
    process the empty payload. During a session, such a handler leaves
    the queue empty and the volume level at 0: no empty frame is
    appended and no NaN is reported. *)
Lemma empty_payload_discarded_when_not_playing :
  let st' := onmessage false 0 (Binary []) (session 0) in
  st' = session 0
  /\ audioQueue st' = []
  /\ volumeLevel st' = 0%float
  /\ is_nan (volumeLevel st') = false.
Proof. repeat split. Qed.

Lemma run_cons (st : State) (ev : Event) (evs : list Event) :
  run st (ev :: evs) = run (step st ev) evs.
Proof. reflexivity. Qed.

(** *** The jitter queue *)

Lemma enqueue_run (currentTime : num) (payloads : list (list byte)) :
  forall st : State,
  isPlaybackActive st = true ->
  Forall (fun arrayBuffer => Nat.even (length arrayBuffer) = true) payloads ->
  let st' := run st (map (fun b => Message true currentTime (Binary b)) payloads) in
  audioQueue st'
  = audioQueue st ++ map (fun b => pcm16ToFloat (int16_elements b)) payloads
  /\ isPlaybackActive st' = true
  /\ started st' = started st
  /\ nextPlayTime st' = nextPlayTime st.
Proof.
  induction payloads as [|b rest IH]; intros st Hactive Hvalid; cbn zeta.
  - cbn [map run fold_left]. rewrite app_nil_r. repeat split. exact Hactive.
  - apply Forall_cons in Hvalid as [Heven Hrest].
    cbn [map run fold_left step onmessage].
    rewrite (handlePCMData_enqueue _ _ _ st (new_Int16Array_even _ Heven))
      by (left; exact Hactive).
    match goal with
    | |- context [fold_left step _ ?s] =>
        destruct (IH s) as (Hq & Ha & Hs & Hn); [exact Hactive | exact Hrest |]
    end.
    unfold run in Hq, Ha, Hs, Hn. rewrite Hq, Ha, Hs, Hn. state_simpl.
    rewrite <- app_assoc. repeat split.
Qed.

(** C4 (as amended). The jitter queue has no capacity bound and no
    overflow policy: while the scheduler is active, every valid payload is
    appended at the tail and no queued frame is dropped, whatever the
    length of the queue, so the queue grows by one frame per payload. *)
Theorem queue_grows_with_every_frame (currentTime : num)
    (payloads : list (list byte)) (st : State) :
  isPlaybackActive st = true ->
  Forall (fun arrayBuffer => Nat.even (length arrayBuffer) = true) payloads ->
  let st' := run st (map (fun b => Message true currentTime (Binary b)) payloads) in
  audioQueue st'
  = audioQueue st ++ map (fun b => pcm16ToFloat (int16_elements b)) payloads
  /\ length (audioQueue st') = (length (audioQueue st) + length payloads)%nat.
Proof.
  intros Hactive Hvalid st'.
  destruct (enqueue_run currentTime payloads st Hactive Hvalid) as (Hq & _).
  fold st' in Hq. split; [exact Hq|].
  rewrite Hq, length_app, length_map. reflexivity.
Qed.

Lemma queue_grows_with_every_frame_witness :
  let st := run (session 0) [Message true 0 (Binary [x00; x00])] in
  let payloads := [[x01; x00]; [x02; x00; x03; x00]; []] in
  isPlaybackActive st = true
  /\ Forall (fun arrayBuffer => Nat.even (length arrayBuffer) = true) payloads
  /\ let st' := run st (map (fun b => Message true 0 (Binary b)) payloads) in
     audioQueue st'
     = audioQueue st ++ map (fun b => pcm16ToFloat (int16_elements b)) payloads
     /\ length (audioQueue st') = (length (audioQueue st) + length payloads)%nat.
Proof.
  intros st payloads.
  assert (Hactive : isPlaybackActive st = true) by (vm_compute; reflexivity).
  assert (Hvalid : Forall (fun b => Nat.even (length b) = true) payloads)
    by (subst payloads; repeat (constructor; [reflexivity|]); constructor).
  split; [exact Hactive|]. split; [exact Hvalid|].
  exact (queue_grows_with_every_frame 0 payloads st Hactive Hvalid).
Defined.

(** C4 as stated fails: no bound holds for the length of the jitter queue
    over the runs of a session. *)
Lemma queue_has_no_bound :
  ~ exists bound : nat,
      forall evs : list Event,
        (length (audioQueue (run (session 0) evs)) <= bound)%nat.
Proof.
  intros [bound Hbound].
  set (more := replicate (S bound) [x00; x00]).
  specialize (Hbound (Message true 0 (Binary [x00; x00])
                        :: map (fun b => Message true 0 (Binary b)) more)).
  rewrite run_cons in Hbound.
  set (st := step (session 0) (Message true 0 (Binary [x00; x00]))) in *.
  assert (Hactive : isPlaybackActive st = true) by (vm_compute; reflexivity).
  clearbody st.
  destruct (enqueue_run 0 more st Hactive) as (Hq & _).
  - subst more. apply Forall_replicate. reflexivity.
  - cbv zeta in Hq. rewrite Hq, length_app, length_map in Hbound.
    subst more. rewrite length_replicate in Hbound. lia.
Qed.

(** Stopping clears the queue, resets the volume level and releases the
    audio context, from any state, and doing it twice changes nothing
    more. *)
Lemma stopAudioPlayback_resets (st : State) :
  let st' := stopAudioPlayback st in
  audioQueue st' = [] /\ volumeLevel st' = 0%float
  /\ isPlaying st' = false /\ isPlaybackActive st' = false
  /\ audioContext st' = false
  /\ stopAudioPlayback st' = st'.
Proof. repeat split. Qed.

(* --------------------------------------------------------------------- *)
(** ** The sample codec on every input *)

(** *** Comparisons of binary64 floats and their values *)

Lemma Qopp_mult_l (a b : Q) : ((- a) * b == - (a * b))%Q.
Proof. ring. Qed.

(** The magnitude of a finite float. *)
Lemma mag_pos (m : positive) (e : Z) : (0 < inject_Z (Zpos m) * 2 ^ e)%Q.
Proof.
  apply Qmult_lt_0_compat; [|apply pow2_pos].
  change 0%Q with (inject_Z 0). rewrite <- Zlt_Qlt. lia.
Qed.

Lemma mag_lt (x y : float) (sx sy : bool) (mx my : positive) (ex ey : Z) :
  Prim2SF x = S754_finite sx mx ex -> Prim2SF y = S754_finite sy my ey ->
  ex < ey ->
  (inject_Z (Zpos mx) * 2 ^ ex < inject_Z (Zpos my) * 2 ^ ey)%Q.
Proof.
  intros Ex Ey Hlt.
  destruct (valid_finite x _ _ _ Ex) as (Hrx & Hdx & _).
  destruct (valid_finite y _ _ _ Ey) as (Hry & _ & Hny).
  specialize (Hny ltac:(lia)).
  pose proof (digits2_pos_bounds mx) as [_ Hmx].
  pose proof (digits2_pos_bounds my) as [Hmy _]. rewrite Hny in Hmy.
  assert (Hmx' : Zpos mx < 2 ^ 53).
  { eapply Z.lt_le_trans; [exact Hmx|]. apply Z.pow_le_mono_r; lia. }
  apply Qlt_le_trans with (inject_Z (2 ^ 53) * 2 ^ ex)%Q.
  - apply Qmult_lt_compat_r; [apply pow2_pos|]. rewrite <- Zlt_Qlt. exact Hmx'.
  - apply Qle_trans with (inject_Z (2 ^ 52) * 2 ^ ey)%Q.
    + replace ey with (1 + ex + (ey - ex - 1)) by lia.
      rewrite !pow2_add.
      assert (H1 : (2 ^ 1 == 2)%Q) by reflexivity.
      assert (H53 : (inject_Z (2 ^ 53) == inject_Z (2 ^ 52) * 2)%Q) by reflexivity.
      rewrite H1, H53.
      pose proof (pow2_le 0 (ey - ex - 1) ltac:(lia)) as Hge.
      change (2 ^ 0)%Q with 1%Q in Hge.
      pose proof (pow2_pos ex) as Hpos.
      set (a := (2 ^ ex)%Q) in *. set (b := (2 ^ (ey - ex - 1))%Q) in *.
      assert (Hab : (a <= a * b)%Q).
      { rewrite <- (Qmult_1_r a) at 1. apply Qmult_le_l; assumption. }
      assert (Hc : (0 < inject_Z (2 ^ 52))%Q) by reflexivity.
      set (c := inject_Z (2 ^ 52)) in *. clearbody a b c. nra.
    + apply Qmult_le_compat_r; [|apply Qlt_le_weak, pow2_pos].
      rewrite <- Zle_Qle. exact Hmy.
Qed.

Lemma mag_compare (x y : float) (sx sy : bool) (mx my : positive) (ex ey : Z) :
  Prim2SF x = S754_finite sx mx ex -> Prim2SF y = S754_finite sy my ey ->
  (inject_Z (Zpos mx) * 2 ^ ex ?= inject_Z (Zpos my) * 2 ^ ey)%Q
  = match Z.compare ex ey with
    | Lt => Lt
    | Gt => Gt
    | Eq => Pos.compare mx my
    end.
Proof.
  intros Ex Ey. destruct (Z.compare_spec ex ey) as [Heq | Hlt | Hgt].
  - subst ey. pose proof (pow2_pos ex) as Hpos.
    destruct (Pos.compare_spec mx my) as [-> | Hm | Hm].
    + apply (proj1 (Qeq_alt _ _)). reflexivity.
    + apply (proj1 (Qlt_alt _ _)). apply Qmult_lt_compat_r; [exact Hpos|].
      rewrite <- Zlt_Qlt. lia.
    + apply (proj1 (Qgt_alt _ _)). apply Qmult_lt_compat_r; [exact Hpos|].
      rewrite <- Zlt_Qlt. lia.
  - apply (proj1 (Qlt_alt _ _)). exact (mag_lt x y _ _ _ _ _ _ Ex Ey Hlt).
  - apply (proj1 (Qgt_alt _ _)). exact (mag_lt y x _ _ _ _ _ _ Ey Ex ltac:(lia)).
Qed.

(** On finite floats the comparison of the specification is the comparison
    of the values. *)
Lemma SFcompare_value (x y : float) :
  is_finite x = true -> is_finite y = true ->
  SFcompare (Prim2SF x) (Prim2SF y) = Some (value x ?= value y)%Q.
Proof.
  intros Hx Hy.
  destruct (finite_cases x Hx) as [[sx Ex] | (sx & mx & ex & Ex)];
    destruct (finite_cases y Hy) as [[sy Ey] | (sy & my & ey & Ey)];
    unfold value; rewrite Ex, Ey; cbn [SFcompare].
  - reflexivity.
  - f_equal. pose proof (mag_pos my ey) as Hpos. symmetry.
    destruct sy; cbn [cond_Zopp].
    + apply (proj1 (Qgt_alt _ _)). change (Z.opp (Zpos my)) with (- Zpos my).
      rewrite inject_Z_opp, Qopp_mult_l.
      set (a := (_ * 2 ^ _)%Q) in *. clearbody a. lra.
    + apply (proj1 (Qlt_alt _ _)). exact Hpos.
  - f_equal. pose proof (mag_pos mx ex) as Hpos. symmetry.
    destruct sx; cbn [cond_Zopp].
    + apply (proj1 (Qlt_alt _ _)). change (Z.opp (Zpos mx)) with (- Zpos mx).
      rewrite inject_Z_opp, Qopp_mult_l.
      set (a := (_ * 2 ^ _)%Q) in *. clearbody a. lra.
    + apply (proj1 (Qgt_alt _ _)). exact Hpos.
  - f_equal. pose proof (mag_pos mx ex) as Hpx. pose proof (mag_pos my ey) as Hpy.
    pose proof (mag_compare x y _ _ _ _ _ _ Ex Ey) as Hc.
    destruct sx, sy; cbn [cond_Zopp];
      change (Z.opp (Zpos mx)) with (- Zpos mx);
      change (Z.opp (Zpos my)) with (- Zpos my);
      rewrite ?inject_Z_opp, ?Qopp_mult_l.
    + (* both negative *)
      change (Pos.compare_cont Eq mx my) with (Pos.compare mx my).
      set (a := (inject_Z (Zpos mx) * 2 ^ ex)%Q) in *.
      set (b := (inject_Z (Zpos my) * 2 ^ ey)%Q) in *.
      assert (Hopp : (- a ?= - b)%Q = CompOpp (a ?= b)%Q).
      { clearbody a b. rewrite (Qcompare_antisym a b).
        destruct (Qcompare_spec b a) as [H|H|H].
        - apply (proj1 (Qeq_alt _ _)). lra.
        - apply (proj1 (Qlt_alt _ _)). lra.
        - apply (proj1 (Qgt_alt _ _)). lra. }
      rewrite Hopp, Hc.
      destruct (ex ?= ey); reflexivity.
    + symmetry. apply (proj1 (Qlt_alt _ _)).
      set (a := (inject_Z (Zpos mx) * 2 ^ ex)%Q) in *.
      set (b := (inject_Z (Zpos my) * 2 ^ ey)%Q) in *. clearbody a b. lra.
    + symmetry. apply (proj1 (Qgt_alt _ _)).
      set (a := (inject_Z (Zpos mx) * 2 ^ ex)%Q) in *.
      set (b := (inject_Z (Zpos my) * 2 ^ ey)%Q) in *. clearbody a b. lra.
    + change (Pos.compare_cont Eq mx my) with (Pos.compare mx my).
      rewrite Hc. destruct (ex ?= ey); reflexivity.
Qed.

Lemma ltb_value (x y : float) :
  is_finite x = true -> is_finite y = true ->
  (x <? y)%float = true <-> (value x < value y)%Q.
Proof.
  intros Hx Hy. rewrite ltb_spec. unfold SFltb.
  rewrite (SFcompare_value x y Hx Hy), Qlt_alt.
  destruct (value x ?= value y)%Q; split; congruence.
Qed.

Lemma leb_value (x y : float) :
  is_finite x = true -> is_finite y = true ->
  (x <=? y)%float = true <-> (value x <= value y)%Q.
Proof.
  intros Hx Hy. rewrite leb_spec. unfold SFleb.
  rewrite (SFcompare_value x y Hx Hy), Qle_alt.
  destruct (value x ?= value y)%Q; split; congruence.
Qed.

(** The classes of floats, read off [Prim2SF]. *)
Lemma is_nan_spec (x : float) :
  is_nan x = match Prim2SF x with S754_nan => true | _ => false end.
Proof.
  unfold is_nan. rewrite FloatAxioms.eqb_spec. unfold SFeqb.
  destruct (Prim2SF x) as [[] | [] | | [] m e]; try reflexivity;
    cbn [SFcompare]; rewrite Z.compare_refl; cbn;
    change (Pos.compare_cont Eq m m) with (Pos.compare m m);
    rewrite Pos.compare_refl; reflexivity.
Qed.

Lemma is_infinity_spec (x : float) :
  is_infinity x = match Prim2SF x with S754_infinity _ => true | _ => false end.
Proof.
  unfold is_infinity. rewrite FloatAxioms.eqb_spec, abs_spec.
  change (Prim2SF infinity) with (S754_infinity false).
  destruct (Prim2SF x) as [[] | [] | | [] m e]; reflexivity.
Qed.

Lemma is_finite_spec (x : float) :
  is_finite x
  = match Prim2SF x with S754_nan | S754_infinity _ => false | _ => true end.
Proof.
  unfold is_finite. rewrite is_nan_spec, is_infinity_spec.
  destruct (Prim2SF x); reflexivity.
Qed.

Lemma float_cases (x : float) :
  x = nan \/ x = infinity \/ x = neg_infinity \/ is_finite x = true.
Proof.
  pose proof (SF2Prim_Prim2SF x) as Hx. rewrite is_finite_spec.
  destruct (Prim2SF x) as [s | [] | | s m e]; cbn [SF2Prim] in Hx; auto.
Qed.

(** Two finite floats of the same non-zero value are the same float. *)
Lemma value_inj (x y : float) :
  is_finite x = true -> is_finite y = true ->
  (value x == value y)%Q -> ~ (value y == 0)%Q -> x = y.
Proof.
  intros Hx Hy Heq Hnz. apply Prim2SF_inj.
  pose proof (SFcompare_value x y Hx Hy) as Hc.
  rewrite (proj1 (Qeq_alt _ _) Heq) in Hc.
  destruct (finite_cases y Hy) as [[sy Ey] | (sy & my & ey & Ey)].
  { exfalso. apply Hnz. unfold value. rewrite Ey. reflexivity. }
  destruct (finite_cases x Hx) as [[sx Ex] | (sx & mx & ex & Ex)];
    rewrite Ex, Ey in *; cbn [SFcompare] in Hc.
  - destruct sy; discriminate.
  - destruct sx, sy; try discriminate;
      destruct (Z.compare_spec ex ey) as [-> | |]; try discriminate;
      change (Pos.compare_cont Eq mx my) with (Pos.compare mx my) in Hc;
      destruct (Pos.compare_spec mx my) as [-> | |]; try discriminate;
      reflexivity.
Qed.

Lemma value_one : (value 1 == 1)%Q.
Proof. reflexivity. Qed.

Lemma value_minus_one : (value (-1) == -1)%Q.
Proof. reflexivity. Qed.

Lemma is_nan_finite (x : float) : is_finite x = true -> is_nan x = false.
Proof. unfold is_finite. destruct (is_nan x); [discriminate | reflexivity]. Qed.

(** The clamp of [floatToPCM16] at and beyond the bounds. *)
Lemma clamp_high (x : float) :
  (1 <=? x)%float = true -> Math_max (-1) (Math_min 1 x) = 1%float.
Proof.
  intros Hle.
  destruct (float_cases x) as [-> | [-> | [-> | Hfin]]];
    [discriminate | reflexivity | discriminate |].
  apply leb_value in Hle; [|reflexivity | exact Hfin]. rewrite value_one in Hle.
  destruct (Qlt_le_dec 1 (value x)) as [Hlt | Hge].
  - assert (Hmin : Math_min 1 x = 1%float).
    { unfold Math_min. rewrite (is_nan_finite x Hfin).
      change (is_nan 1) with false. cbn [orb].
      replace (1 <? x)%float with true; [reflexivity|].
      symmetry. apply ltb_value; [reflexivity | exact Hfin |].
      rewrite value_one. exact Hlt. }
    rewrite Hmin. reflexivity.
  - assert (Hx : x = 1%float).
    { apply value_inj; [exact Hfin | reflexivity | | discriminate].
      rewrite value_one. lra. }
    rewrite Hx. reflexivity.
Qed.

Lemma clamp_low (x : float) :
  (x <=? -1)%float = true -> Math_max (-1) (Math_min 1 x) = (-1)%float.
Proof.
  intros Hle.
  destruct (float_cases x) as [-> | [-> | [-> | Hfin]]];
    [discriminate | discriminate | reflexivity |].
  apply leb_value in Hle; [|exact Hfin | reflexivity].
  rewrite value_minus_one in Hle.
  assert (Hmin : Math_min 1 x = x).
  { unfold Math_min. rewrite (is_nan_finite x Hfin).
    change (is_nan 1) with false. cbn [orb].
    replace (1 <? x)%float with false.
    - replace (x <? 1)%float with true; [reflexivity|].
      symmetry. apply ltb_value; [exact Hfin | reflexivity |].
      rewrite value_one. lra.
    - symmetry. apply ltb_one_false; [exact Hfin | lra]. }
  rewrite Hmin.
  destruct (Qlt_le_dec (value x) (-1)) as [Hlt | Hge].
  - unfold Math_max. rewrite (is_nan_finite x Hfin).
    change (is_nan (-1)) with false. cbn [orb].
    replace (-1 <? x)%float with false.
    + replace (x <? -1)%float with true; [reflexivity|].
      symmetry. apply ltb_value; [exact Hfin | reflexivity |].
      rewrite value_minus_one. exact Hlt.
    + symmetry. destruct (-1 <? x)%float eqn:E; [|reflexivity].
      apply ltb_value in E; [|reflexivity | exact Hfin].
      rewrite value_minus_one in E. lra.
  - assert (Hx : x = (-1)%float).
    { apply value_inj; [exact Hfin | reflexivity | | discriminate].
      rewrite value_minus_one. lra. }
    rewrite Hx. reflexivity.
Qed.

(** X1. Beyond the bounds of [-1,1], and on NaN, the encoder does not depend
    on the sample: it saturates at 32767 and -32767 (never -32768), for
    the infinities too, and stores 0 for NaN. *)
Theorem encoder_saturates (x : float) :
  ((1 <=? x)%float = true -> floatToPCM16_at x = 32767)
  /\ ((x <=? -1)%float = true -> floatToPCM16_at x = -32767)
  /\ (is_nan x = true -> floatToPCM16_at x = 0).
Proof.
  unfold floatToPCM16_at. cbv zeta. repeat split; intros H.
  - rewrite (clamp_high x H). reflexivity.
  - rewrite (clamp_low x H). reflexivity.
  - assert (Hx : x = nan).
    { destruct (float_cases x) as [-> | [-> | [-> | Hfin]]];
        [reflexivity | discriminate | discriminate |].
      rewrite (is_nan_finite x Hfin) in H. discriminate. }
    rewrite Hx. reflexivity.
Qed.

Lemma encoder_saturates_witness :
  ((1 <=? 2.5)%float = true /\ floatToPCM16_at 2.5 = 32767)
  /\ ((neg_infinity <=? -1)%float = true /\ floatToPCM16_at neg_infinity = -32767)
  /\ (is_nan nan = true /\ floatToPCM16_at nan = 0).
Proof.
  split; [|split].
  - split; [reflexivity|].
    apply (proj1 (encoder_saturates 2.5)). reflexivity.
  - split; [reflexivity|].
    apply (proj1 (proj2 (encoder_saturates neg_infinity))). reflexivity.
  - split; [reflexivity|].
    apply (proj2 (proj2 (encoder_saturates nan))). reflexivity.
Defined.

Lemma floatToPCM16_at_high (x : float) :
  (1 <=? x)%float = true -> floatToPCM16_at x = 32767.
Proof.
  intros H. unfold floatToPCM16_at. cbv zeta.
  rewrite (clamp_high x H). reflexivity.
Qed.

Lemma floatToPCM16_at_low (x : float) :
  (x <=? -1)%float = true -> floatToPCM16_at x = -32767.
Proof.
  intros H. unfold floatToPCM16_at. cbv zeta.
  rewrite (clamp_low x H). reflexivity.
Qed.

(** Every [Float32Array] element, in range or not, is encoded within
    -32767 .. 32767. *)
Lemma floatToPCM16_at_range (x : float) :
  is_float32 x = true -> -32767 <= floatToPCM16_at x <= 32767.
Proof.
  intros H32.
  destruct (float_cases x) as [-> | [-> | [-> | Hfin]]];
    [vm_compute; split; discriminate..|].
  destruct (Qlt_le_dec (value x) 1) as [Hlt1 | Hge1].
  - destruct (Qlt_le_dec (-1) (value x)) as [Hgt | Hle].
    + apply (roundtrip_at x H32 Hfin). split; lra.
    + rewrite floatToPCM16_at_low; [lia|].
      apply leb_value; [exact Hfin | reflexivity |].
      rewrite value_minus_one. exact Hle.
  - rewrite floatToPCM16_at_high; [lia|].
    apply leb_value; [reflexivity | exact Hfin |].
    rewrite value_one. exact Hge1.
Qed.

(** X2. Whatever a [Float32Array] holds (out-of-range samples, infinities,
    NaN), [floatToPCM16] returns as many samples, all within
    -32767 .. 32767: the value -32768 is never produced. *)
Theorem encoder_never_emits_minus_32768 (floatSamples : list float) :
  Forall (fun x => is_float32 x = true) floatSamples ->
  length (floatToPCM16 floatSamples) = length floatSamples
  /\ Forall (fun s => -32767 <= s <= 32767) (floatToPCM16 floatSamples).
Proof.
  intros Hall. unfold floatToPCM16. split; [apply length_map|].
  apply Forall_map. eapply Forall_impl; [exact Hall|].
  intros x H32. apply floatToPCM16_at_range. exact H32.
Qed.

Lemma encoder_never_emits_minus_32768_witness :
  let floatSamples :=
    [fround 0.1%float; (-7)%float; nan; infinity; neg_infinity;
     fround (-1.00001)%float; (-0)%float] in
  Forall (fun x => is_float32 x = true) floatSamples
  /\ length (floatToPCM16 floatSamples) = length floatSamples
  /\ Forall (fun s => -32767 <= s <= 32767) (floatToPCM16 floatSamples).
Proof.
  intros floatSamples.
  assert (H : Forall (fun x => is_float32 x = true) floatSamples)
    by (repeat constructor).
  split; [exact H | apply (encoder_never_emits_minus_32768 floatSamples H)].
Defined.

Lemma leb_infinity_left (y : float) :
  (infinity <=? y)%float = true -> y = infinity.
Proof.
  intros H.
  destruct (float_cases y) as [-> | [-> | [-> | Hfin]]];
    [discriminate | reflexivity | discriminate |].
  rewrite leb_spec in H. change (Prim2SF infinity) with (S754_infinity false) in H.
  destruct (finite_cases y Hfin) as [[s E] | (s & m & e & E)];
    rewrite E in H; discriminate.
Qed.

Lemma leb_neg_infinity_right (x : float) :
  (x <=? neg_infinity)%float = true -> x = neg_infinity.
Proof.
  intros H.
  destruct (float_cases x) as [-> | [-> | [-> | Hfin]]];
    [discriminate | discriminate | reflexivity |].
  rewrite leb_spec in H.
  change (Prim2SF neg_infinity) with (S754_infinity true) in H.
  destruct (finite_cases x Hfin) as [[s E] | (s & m & e & E)];
    rewrite E in H; [discriminate|destruct s; discriminate].
Qed.

(** X3. The encoder is monotone on [Float32Array] elements: a larger sample
    is never encoded as a smaller integer. *)
Theorem encoder_monotone (x y : float) :
  is_float32 x = true -> is_float32 y = true -> (x <=? y)%float = true ->
  floatToPCM16_at x <= floatToPCM16_at y.
Proof.
  intros Hx32 Hy32 Hle.
  pose proof (floatToPCM16_at_range x Hx32) as Hrx.
  pose proof (floatToPCM16_at_range y Hy32) as Hry.
  destruct (float_cases x) as [-> | [-> | [-> | Hfx]]].
  - rewrite leb_spec in Hle. change (Prim2SF nan) with S754_nan in Hle.
    destruct (Prim2SF y); discriminate.
  - rewrite (leb_infinity_left y Hle). lia.
  - change (floatToPCM16_at neg_infinity) with (-32767). lia.
  - destruct (float_cases y) as [-> | [-> | [-> | Hfy]]].
    + rewrite leb_spec in Hle. change (Prim2SF nan) with S754_nan in Hle.
      destruct (Prim2SF x); discriminate.
    + change (floatToPCM16_at infinity) with 32767. lia.
    + rewrite (leb_neg_infinity_right x Hle). lia.
    + apply (leb_value x y Hfx Hfy) in Hle.
      destruct (Qlt_le_dec (value y) 1) as [Hy1 | Hy1].
      * destruct (Qlt_le_dec (-1) (value x)) as [Hx1 | Hx1].
        -- rewrite (floatToPCM16_at_exact x Hx32 Hfx) by (split; lra).
           rewrite (floatToPCM16_at_exact y Hy32 Hfy) by (split; lra).
           destruct (round_close (value x)) as [Hkx _]; [split; lra|].
           destruct (round_close (value y)) as [Hky _]; [split; lra|].
           rewrite !ToInt16_id by lia.
           apply Qfloor_resp_le. lra.
        -- rewrite (floatToPCM16_at_low x); [lia|].
           apply leb_value; [exact Hfx | reflexivity |].
           rewrite value_minus_one. exact Hx1.
      * rewrite (floatToPCM16_at_high y); [lia|].
        apply leb_value; [reflexivity | exact Hfy |].
        rewrite value_one. exact Hy1.
Qed.

Lemma encoder_monotone_witness :
  is_float32 (fround 0.1) = true /\ is_float32 0.5 = true
  /\ (fround 0.1 <=? 0.5)%float = true
  /\ floatToPCM16_at (fround 0.1) <= floatToPCM16_at 0.5.
Proof.
  split; [reflexivity|]. split; [reflexivity|]. split; [reflexivity|].
  apply (encoder_monotone (fround 0.1) 0.5); reflexivity.
Defined.

(** *** Decoding, and decoding followed by encoding *)

Import Codec.

(** All 65536 samples are checked by computation. *)
Lemma codec_check_all :
  forall_from codec_check (Z.to_nat 65536) (-32768) = true.
Proof. vm_compute. reflexivity. Qed.

Lemma codec_check_at (k : Z) :
  -32768 <= k <= 32767 -> codec_check k = true.
Proof.
  intros Hk. apply (forall_from_spec codec_check _ _ codec_check_all). lia.
Qed.

(** X4. Decoding 16-bit samples and encoding the result gives the samples
    back: the codec loses nothing on PCM data, except that -32768 comes
    back as -32767. *)
Theorem decode_then_encode (pcmSamples : list Z) :
  Forall (fun s => -32768 <= s <= 32767) pcmSamples ->
  floatToPCM16 (pcm16ToFloat pcmSamples) = map (Z.max (-32767)) pcmSamples
  /\ (Forall (fun s => s <> -32768) pcmSamples ->
      floatToPCM16 (pcm16ToFloat pcmSamples) = pcmSamples).
Proof.
  intros Hall.
  assert (Hmain : floatToPCM16 (pcm16ToFloat pcmSamples)
                  = map (Z.max (-32767)) pcmSamples).
  { unfold floatToPCM16, pcm16ToFloat. rewrite map_map.
    apply Forall_fmap_ext_1. eapply Forall_impl; [exact Hall|].
    intros k Hk. cbn beta. pose proof (codec_check_at k Hk) as Hc.
    unfold codec_check in Hc. cbv zeta in Hc.
    repeat (apply andb_prop in Hc as [Hc _]).
    apply Z.eqb_eq in Hc. rewrite Hc. lia. }
  split; [exact Hmain|]. intros Hne. rewrite Hmain.
  rewrite <- (map_id pcmSamples) at 2.
  apply Forall_fmap_ext_1.
  rewrite Forall_forall in Hall, Hne. apply Forall_forall.
  intros k Hin. specialize (Hall k Hin). specialize (Hne k Hin). lia.
Qed.

Lemma decode_then_encode_witness :
  let pcmSamples := [0; 1; -1; 12345; -32767; 32767; -32768] in
  Forall (fun s => -32768 <= s <= 32767) pcmSamples
  /\ floatToPCM16 (pcm16ToFloat pcmSamples) = map (Z.max (-32767)) pcmSamples.
Proof.
  intros pcmSamples.
  assert (H : Forall (fun s => -32768 <= s <= 32767) pcmSamples)
    by (repeat constructor; lia).
  split; [exact H | apply (proj1 (decode_then_encode pcmSamples H))].
Defined.

(** X5. [pcm16ToFloat] returns finite binary32 values that are at most 1, and
    at least -1 for every sample but -32768, which decodes below -1. *)
Theorem decoder_range (s : Z) :
  -32768 <= s <= 32767 ->
  let y := pcm16ToFloat_at s in
  is_float32 y = true /\ is_finite y = true
  /\ (value y <= 1)%Q
  /\ ((-1 <= value y)%Q <-> s <> -32768).
Proof.
  intros Hs y. pose proof (codec_check_at s Hs) as Hc.
  unfold codec_check in Hc. cbv zeta in Hc. fold y in Hc.
  apply andb_prop in Hc as [Hc Hlow]. apply andb_prop in Hc as [Hc Hhigh].
  apply andb_prop in Hc as [Hc Hfin]. apply andb_prop in Hc as [_ H32].
  split; [exact H32|]. split; [exact Hfin|].
  split; [apply Qle_bool_iff; exact Hhigh|].
  apply Bool.eqb_prop in Hlow. rewrite <- Qle_bool_iff, Hlow.
  destruct (Z.eqb_spec s (-32768)); cbn [negb]; split; congruence.
Qed.

Lemma decoder_range_witness :
  -32768 <= -32768 <= 32767
  /\ let y := pcm16ToFloat_at (-32768) in
     is_float32 y = true /\ is_finite y = true
     /\ (value y <= 1)%Q
     /\ ((-1 <= value y)%Q <-> -32768 <> -32768).
Proof.
  split; [lia | apply (decoder_range (-32768)); lia].
Defined.

(* --------------------------------------------------------------------- *)
(** ** Bytes on the wire and in the container *)

Import App.

Lemma Z_of_byte_of_Z (z : Z) : Z_of_byte (byte_of_Z z) = z mod 256.
Proof.
  unfold Z_of_byte, byte_of_Z, ToUint8.
  assert (Hr : 0 <= z mod 256 < 256) by (apply Z.mod_pos_bound; lia).
  destruct (Byte.of_N (Z.to_N (z mod 256))) as [b|] eqn:E.
  - apply Byte.to_of_N in E. rewrite E. lia.
  - apply Byte.of_N_None_iff in E. lia.
Qed.

Lemma ToInt16_mod (z : Z) : ToInt16 z mod 65536 = z mod 65536.
Proof.
  unfold ToInt16.
  assert (Hr : 0 <= z mod 65536 < 65536) by (apply Z.mod_pos_bound; lia).
  destruct (32768 <=? z mod 65536).
  - replace (z mod 65536 - 65536) with (z mod 65536 + (-1) * 65536) by lia.
    rewrite Z_mod_plus_full. apply Z.mod_mod. lia.
  - apply Z.mod_mod. lia.
Qed.

Lemma ToInt16_congr (a b : Z) : a mod 65536 = b mod 65536 -> ToInt16 a = ToInt16 b.
Proof. intros H. unfold ToInt16. rewrite H. reflexivity. Qed.

Lemma ToInt16_range (z : Z) : -32768 <= ToInt16 z <= 32767.
Proof.
  unfold ToInt16.
  assert (Hr : 0 <= z mod 65536 < 65536) by (apply Z.mod_pos_bound; lia).
  destruct (Z.leb_spec 32768 (z mod 65536)); lia.
Qed.

(** Two bytes, low first, read as a 16-bit two's complement integer. *)
Lemma int16_of_bytes (s : Z) :
  ToInt16 (Z_of_byte (byte_of_Z s) + 256 * Z_of_byte (byte_of_Z (s / 256)))
  = ToInt16 s.
Proof.
  rewrite !Z_of_byte_of_Z. apply ToInt16_congr.
  rewrite (Z.div_mod s 256) at 3 by lia.
  rewrite (Z.div_mod (s / 256) 256) at 2 by lia.
  replace (256 * (256 * (s / 256 / 256) + (s / 256) mod 256) + s mod 256)
    with (s mod 256 + 256 * ((s / 256) mod 256) + (s / 256 / 256) * 65536)
    by ring.
  rewrite Z_mod_plus_full. reflexivity.
Qed.

Lemma int16_elements_buffer (elements : list Z) :
  int16_elements (Int16Array_buffer elements) = map ToInt16 elements.
Proof.
  induction elements as [|s rest IH]; [reflexivity|].
  cbn [Int16Array_buffer flat_map app int16_elements map].
  rewrite int16_of_bytes. f_equal. exact IH.
Qed.

Lemma length_Int16Array_buffer (elements : list Z) :
  length (Int16Array_buffer elements) = (2 * length elements)%nat.
Proof.
  induction elements as [|s rest IH]; [reflexivity|].
  cbn [Int16Array_buffer flat_map app length]. unfold Int16Array_buffer in IH.
  rewrite IH. lia.
Qed.

Lemma even_double (n : nat) : Nat.even (2 * n) = true.
Proof. apply Nat.even_spec. exists n. reflexivity. Qed.

Lemma byte_of_Z_congr (a b : Z) : a mod 256 = b mod 256 -> byte_of_Z a = byte_of_Z b.
Proof. intros H. unfold byte_of_Z, ToUint8. rewrite H. reflexivity. Qed.

(** The sample bytes of the container are the bytes behind the
    [Int16Array]. *)
Lemma sample_bytes_buffer (pcmSamples : list Z) :
  sample_bytes pcmSamples = Int16Array_buffer pcmSamples.
Proof.
  unfold sample_bytes, Int16Array_buffer.
  induction pcmSamples as [|s rest IH]; [reflexivity|].
  cbn [flat_map]. rewrite IH. f_equal.
  unfold le16, ToUint16. rewrite ToInt16_mod.
  assert (H256 : forall z, (z mod 65536) mod 256 = z mod 256).
  { intros z. rewrite (Z.div_mod z 65536) at 2 by lia.
    replace (65536 * (z / 65536) + z mod 65536)
      with (z mod 65536 + (256 * (z / 65536)) * 256) by ring.
    rewrite Z_mod_plus_full. reflexivity. }
  assert (Hdiv : forall z, (z mod 65536 / 256) mod 256 = (z / 256) mod 256).
  { intros z. rewrite (Z.div_mod z 65536) at 2 by lia.
    replace (65536 * (z / 65536) + z mod 65536)
      with (z mod 65536 + (256 * (z / 65536)) * 256) by ring.
    rewrite Z.div_add by lia.
    replace (z mod 65536 / 256 + 256 * (z / 65536))
      with (z mod 65536 / 256 + (z / 65536) * 256) by ring.
    rewrite Z_mod_plus_full. reflexivity. }
  f_equal; [apply byte_of_Z_congr, H256|].
  f_equal. apply byte_of_Z_congr, Hdiv.
Qed.

Lemma map_ToInt16_id (pcmSamples : list Z) :
  Forall (fun s => -32768 <= s <= 32767) pcmSamples ->
  map ToInt16 pcmSamples = pcmSamples.
Proof.
  intros Hall. rewrite <- (map_id pcmSamples) at 2.
  apply Forall_fmap_ext_1. eapply Forall_impl; [exact Hall|].
  intros s Hs. apply ToInt16_id. exact Hs.
Qed.

(** Four bytes, low first, read as an unsigned 32-bit integer. *)
Lemma uint32_of_bytes (v : Z) :
  Z_of_byte (byte_of_Z (ToUint32 v))
  + 256 * Z_of_byte (byte_of_Z (ToUint32 v / 256))
  + 65536 * Z_of_byte (byte_of_Z (ToUint32 v / 65536))
  + 16777216 * Z_of_byte (byte_of_Z (ToUint32 v / 16777216))
  = ToUint32 v.
Proof.
  rewrite !Z_of_byte_of_Z. unfold ToUint32.
  assert (Hr : 0 <= v mod 4294967296 < 4294967296)
    by (apply Z.mod_pos_bound; lia).
  set (u := v mod 4294967296) in *. clearbody u.
  pose proof (Z.div_mod u 256 ltac:(lia)) as H0.
  pose proof (Z.div_mod (u / 256) 256 ltac:(lia)) as H1.
  pose proof (Z.div_mod (u / 65536) 256 ltac:(lia)) as H2.
  assert (E1 : u / 65536 = u / 256 / 256)
    by (rewrite Z.div_div by lia; reflexivity).
  assert (E2 : u / 16777216 = u / 65536 / 256)
    by (rewrite Z.div_div by lia; reflexivity).
  assert (H3 : 0 <= u / 16777216 < 256).
  { split; [apply Z.div_pos; lia | apply Z.div_lt_upper_bound; lia]. }
  rewrite (Z.mod_small (u / 16777216)) by lia.
  rewrite E1 in H2 |- *. rewrite E2, E1. lia.
Qed.

Lemma length_riff_header (a b c d e f : Z) :
  length (riff_header a b c d e f) = 44%nat.
Proof. reflexivity. Qed.

(** X6. For every list of samples and every sample rate and channel count,
    [pcmToWav] of [lib/audioUtils] returns a buffer, never raises, and
    the buffer reads back: its length is 44 + 2n, the size fields and
    the sample rate are the values written modulo 2^32, and the bytes
    from offset 44 on, seen as an [Int16Array], are the samples. *)
Theorem wav_reads_back (pcmSamples : list Z) (sampleRate numChannels : Z) :
  Forall (fun s => -32768 <= s <= 32767) pcmSamples ->
  exists wav : list byte,
    AudioUtils.pcmToWav pcmSamples sampleRate numChannels = Some wav
    /\ length wav = (44 + 2 * length pcmSamples)%nat
    /\ take 4 wav = fourcc "RIFF"
    /\ getUint32 wav 4 true
       = Some (ToUint32 (36 + 2 * Z.of_nat (length pcmSamples)))
    /\ getUint32 wav 24 true = Some (ToUint32 sampleRate)
    /\ getUint32 wav 40 true
       = Some (ToUint32 (2 * Z.of_nat (length pcmSamples)))
    /\ new_Int16Array (drop 44 wav) = Some pcmSamples.
Proof.
  intros Hrange. eexists. split; [apply pcmToWav_layout|].
  set (n := Z.of_nat (length pcmSamples)).
  replace (n * 2) with (2 * n) by lia.
  split; [rewrite length_app, length_riff_header, length_sample_bytes; lia|].
  split; [reflexivity|].
  split; [|split; [|split]].
  - unfold getUint32. cbn. rewrite uint32_of_bytes. reflexivity.
  - unfold getUint32. cbn. rewrite uint32_of_bytes. reflexivity.
  - unfold getUint32. cbn. rewrite uint32_of_bytes. reflexivity.
  - rewrite drop_app_length' by reflexivity.
    rewrite sample_bytes_buffer. unfold new_Int16Array.
    rewrite length_Int16Array_buffer, even_double, int16_elements_buffer.
    rewrite (map_ToInt16_id _ Hrange). reflexivity.
Qed.

Lemma wav_reads_back_witness :
  let pcmSamples := [0; 1; -1; 32767; -32768] in
  Forall (fun s => -32768 <= s <= 32767) pcmSamples
  /\ exists wav : list byte,
       AudioUtils.pcmToWav pcmSamples 16000 1 = Some wav
       /\ length wav = (44 + 2 * length pcmSamples)%nat
       /\ take 4 wav = fourcc "RIFF"
       /\ getUint32 wav 4 true
          = Some (ToUint32 (36 + 2 * Z.of_nat (length pcmSamples)))
       /\ getUint32 wav 24 true = Some (ToUint32 16000)
       /\ getUint32 wav 40 true
          = Some (ToUint32 (2 * Z.of_nat (length pcmSamples)))
       /\ new_Int16Array (drop 44 wav) = Some pcmSamples.
Proof.
  intros pcmSamples.
  assert (H : Forall (fun s => -32768 <= s <= 32767) pcmSamples)
    by (repeat constructor; lia).
  split; [exact H | apply (wav_reads_back pcmSamples 16000 1 H)].
Defined.

(** X7. The stand-alone converter and the encoder of [lib/audioUtils] return
    the same file for the same samples, whatever the sample rate and the
    channel count, as long as the converter accepts them; a sample rate
    that does not fit in 32 bits makes the converter raise, where the
    encoder of [lib/audioUtils] stores it modulo 2^32. *)
Theorem wav_encoders_agree (pcmSamples : list Z) (sampleRate numChannels : Z) :
  (0 <= 2 * Z.of_nat (length pcmSamples) < 4294967296 - 36 ->
   0 <= sampleRate < 4294967296 -> 0 <= numChannels ->
   sampleRate * (numChannels * 2) < 4294967296 -> numChannels * 2 < 65536 ->
   WavConverter.pcmToWav (Int16Array_buffer pcmSamples) sampleRate numChannels 16
   = AudioUtils.pcmToWav pcmSamples sampleRate numChannels)
  /\ (sampleRate < 0 \/ 4294967296 <= sampleRate ->
      WavConverter.pcmToWav (Int16Array_buffer pcmSamples) sampleRate numChannels 16
      = None
      /\ AudioUtils.pcmToWav pcmSamples sampleRate numChannels <> None).
Proof.
  split.
  - intros Hlen Hsr Hch Hrate Halign.
    rewrite pcmToWav_layout, converter_layout;
      rewrite ?length_Int16Array_buffer; try lia.
    rewrite sample_bytes_buffer, Nat2Z.inj_mul.
    change (Z.of_nat 2) with 2.
    replace (Z.of_nat (length pcmSamples) * 2)
      with (2 * Z.of_nat (length pcmSamples)) by lia.
    replace (sampleRate * numChannels * 2)
      with (sampleRate * (numChannels * 2)) by lia.
    reflexivity.
  - intros Hsr. split; [|rewrite pcmToWav_layout; discriminate].
    unfold WavConverter.pcmToWav. cbv zeta.
    assert (Hw : forall buf, WavConverter.writeUInt32LE buf sampleRate 24 = None).
    { intros buf. unfold WavConverter.writeUInt32LE.
      destruct (Z.leb_spec 0 sampleRate), (Z.ltb_spec sampleRate 4294967296);
        try reflexivity; lia. }
    repeat match goal with
    | |- context [mbind _ ?m] =>
        lazymatch m with
        | WavConverter.writeUInt32LE _ sampleRate 24 => rewrite Hw; reflexivity
        | _ => destruct m; cbn [mbind option_bind]; [|reflexivity]
        end
    end.
Qed.

Lemma wav_encoders_agree_witness :
  (0 <= 2 * Z.of_nat (length [1; -2; 3]) < 4294967296 - 36
   /\ 0 <= 44100 < 4294967296 /\ 0 <= 2
   /\ 44100 * (2 * 2) < 4294967296 /\ 2 * 2 < 65536
   /\ WavConverter.pcmToWav (Int16Array_buffer [1; -2; 3]) 44100 2 16
      = AudioUtils.pcmToWav [1; -2; 3] 44100 2)
  /\ ((-1 < 0 \/ 4294967296 <= -1)
      /\ WavConverter.pcmToWav (Int16Array_buffer [1; -2; 3]) (-1) 2 16 = None
      /\ AudioUtils.pcmToWav [1; -2; 3] (-1) 2 <> None).
Proof.
  split.
  - repeat (split; [cbn; lia|]).
    apply (proj1 (wav_encoders_agree [1; -2; 3] 44100 2)); cbn; lia.
  - split; [lia|].
    apply (proj2 (wav_encoders_agree [1; -2; 3] (-1) 2)). lia.
Defined.

(* --------------------------------------------------------------------- *)
(** ** From capture to playback *)

Lemma floatToPCM16_int16 (floatSamples : list float) :
  Forall (fun s => -32768 <= s <= 32767) (floatToPCM16 floatSamples).
Proof.
  unfold floatToPCM16. apply Forall_map, Forall_forall. intros x _.
  unfold floatToPCM16_at. cbv zeta.
  destruct (Math_round _); [apply ToInt16_range | lia].
Qed.

Lemma new_Int16Array_buffer (elements : list Z) :
  Forall (fun s => -32768 <= s <= 32767) elements ->
  new_Int16Array (Int16Array_buffer elements) = Some elements.
Proof.
  intros Hrange. unfold new_Int16Array.
  rewrite length_Int16Array_buffer, even_double, int16_elements_buffer.
  rewrite (map_ToInt16_id _ Hrange). reflexivity.
Qed.

(** X8. What [streamPCMData] puts on the wire: nothing unless the socket is
    open (the frame is dropped, not kept for later); else one message of
    two bytes per sample, whatever the samples are, which the receiver
    reads back with [new Int16Array] as the encoded samples. *)
Theorem stream_wire_format (websocketConnection : option ReadyState)
    (pcmData : list float) (sent : list (list byte)) :
  let sent' := streamPCMData websocketConnection pcmData sent in
  (websocketConnection <> Some OPEN -> sent' = sent)
  /\ (websocketConnection = Some OPEN ->
      exists payload : list byte,
        sent' = sent ++ [payload]
        /\ length payload = (2 * length pcmData)%nat
        /\ new_Int16Array payload = Some (floatToPCM16 pcmData)).
Proof.
  intros sent'. subst sent'. split.
  - intros Hws. unfold streamPCMData.
    destruct websocketConnection as [[]|]; try reflexivity. contradiction.
  - intros ->. eexists. split; [reflexivity|]. split.
    + rewrite length_Int16Array_buffer. unfold floatToPCM16.
      rewrite length_map. reflexivity.
    + apply new_Int16Array_buffer, floatToPCM16_int16.
Qed.

Lemma stream_wire_format_witness :
  let pcmData := [0.5%float; nan; (-3)%float] in
  (Some CLOSING <> Some OPEN /\ streamPCMData (Some CLOSING) pcmData [] = [])
  /\ (Some OPEN = Some OPEN
      /\ exists payload : list byte,
           streamPCMData (Some OPEN) pcmData [] = [] ++ [payload]
           /\ length payload = (2 * length pcmData)%nat
           /\ new_Int16Array payload = Some (floatToPCM16 pcmData)).
Proof.
  intros pcmData. split.
  - split; [discriminate|].
    apply (proj1 (stream_wire_format (Some CLOSING) pcmData [])). discriminate.
  - split; [reflexivity|].
    apply (proj2 (stream_wire_format (Some OPEN) pcmData [])). reflexivity.
Defined.

(** X9. A frame sent by [streamPCMData] and delivered to [handlePCMData]
    while frames are being played is accepted without an error and
    queued as a frame of the same length, each sample of which is within
    1/32767 of the captured one. *)
Theorem stream_to_playback (pcmData : list float) (currentTime : num)
    (st : State) :
  Forall (fun x => is_float32 x = true /\ is_finite x = true
                   /\ (-1 <= value x <= 1)%Q) pcmData ->
  isPlaybackActive st = true ->
  exists (payload : list byte) (frame : list float),
    streamPCMData (Some OPEN) pcmData [] = [payload]
    /\ audioQueue (handlePCMData true currentTime payload st)
       = audioQueue st ++ [frame]
    /\ errors (handlePCMData true currentTime payload st) = errors st
    /\ Forall2 (fun x y => (Qabs (value y - value x) <= 1 # 32767)%Q)
         pcmData frame.
Proof.
  intros Hsamples Hactive.
  exists (Int16Array_buffer (floatToPCM16 pcmData)),
         (pcm16ToFloat (floatToPCM16 pcmData)).
  split; [reflexivity|].
  rewrite (handlePCMData_enqueue currentTime _ (floatToPCM16 pcmData) st)
    by (auto using new_Int16Array_buffer, floatToPCM16_int16).
  split; [reflexivity|]. split; [reflexivity|].
  unfold pcm16ToFloat, floatToPCM16.
  induction Hsamples as [|x rest (H32 & Hfin & Hrange) _ IH]; cbn [map];
    constructor; [|exact IH].
  apply (roundtrip_at x H32 Hfin Hrange).
Qed.

Lemma stream_to_playback_witness :
  let pcmData := [fround 0.1%float; (-1)%float; 0.25%float] in
  let st := Connections.run (session 0) [Message true 0 (Binary [x00; x00])] in
  Forall (fun x => is_float32 x = true /\ is_finite x = true
                   /\ (-1 <= value x <= 1)%Q) pcmData
  /\ isPlaybackActive st = true
  /\ exists (payload : list byte) (frame : list float),
       streamPCMData (Some OPEN) pcmData [] = [payload]
       /\ audioQueue (handlePCMData true 0 payload st)
          = audioQueue st ++ [frame]
       /\ errors (handlePCMData true 0 payload st) = errors st
       /\ Forall2 (fun x y => (Qabs (value y - value x) <= 1 # 32767)%Q)
            pcmData frame.
Proof.
  intros pcmData st.
  assert (H : Forall (fun x => is_float32 x = true /\ is_finite x = true
                              /\ (-1 <= value x <= 1)%Q) pcmData).
  { repeat constructor; vm_compute; (reflexivity || discriminate). }
  assert (Ha : isPlaybackActive st = true) by (vm_compute; reflexivity).
  split; [exact H|]. split; [exact Ha|].
  apply (stream_to_playback pcmData 0 st H Ha).
Defined.

(** What the worklet posts goes out frame by frame. *)
Lemma onWorkletMessages_open (posted : list (list float)) :
  forall sent : list (list byte),
  onWorkletMessages (Some OPEN) posted sent
  = sent ++ map (fun frame => Int16Array_buffer (floatToPCM16 frame)) posted.
Proof.
  unfold onWorkletMessages.
  induction posted as [|frame rest IH]; intros sent; cbn [fold_left map].
  - rewrite app_nil_r. reflexivity.
  - rewrite IH. cbn [streamPCMData]. rewrite <- app_assoc. reflexivity.
Qed.

(** X10. During a recording with an open socket, a captured stream of N
    samples, however the platform cuts it into render quanta, goes out as
    floor(N/4096) messages of exactly 8192 bytes, the i-th holding the
    encoding of samples 4096 i to 4096 i + 4095 of the stream; the last
    N mod 4096 samples are not sent. *)
Theorem capture_to_wire (inputs : list (list (list float))) :
  let stream := concat (map PCMProcessor.first_channel inputs) in
  let N := length stream in
  let posted := snd (PCMProcessor.run PCMProcessor.constructor inputs) in
  let sent := onWorkletMessages (Some OPEN) posted [] in
  length sent = (N / 4096)%nat
  /\ Forall (fun payload => length payload = 8192%nat) sent
  /\ (forall (i : nat) (payload : list byte),
        sent !! i = Some payload ->
        new_Int16Array payload
        = Some (floatToPCM16 (take 4096 (drop (4096 * i) stream)))).
Proof.
  intros stream N posted sent.
  assert (Hready : PCMProcessor.ready PCMProcessor.constructor).
  { unfold PCMProcessor.ready. cbn [PCMProcessor.constructor
      PCMProcessor.buffer PCMProcessor.bufferIndex].
    rewrite length_replicate. lia. }
  destruct (run_frames inputs PCMProcessor.constructor [] Hready)
    as (this1 & frames & Hrun & Hlen & Hready1 & Hall & Hcat).
  assert (HL : length (PCMProcessor.buffer PCMProcessor.constructor) = 4096%nat).
  { cbn [PCMProcessor.constructor PCMProcessor.buffer].
    rewrite length_replicate. reflexivity. }
  rewrite HL in Hall, Hlen.
  assert (Hposted : posted = frames).
  { subst posted. unfold PCMProcessor.run. rewrite Hrun. reflexivity. }
  change (PCMProcessor.pending PCMProcessor.constructor) with (@nil float) in Hcat.
  cbn [app] in Hcat. fold stream in Hcat.
  pose proof (length_concat_frames 4096 frames Hall) as Hconcat.
  assert (Hpend : (length (PCMProcessor.pending this1) < 4096)%nat).
  { unfold PCMProcessor.pending. rewrite length_take.
    unfold PCMProcessor.ready in Hready1. lia. }
  assert (HN : N = (4096 * length frames + length (PCMProcessor.pending this1))%nat).
  { subst N. rewrite Hcat, length_app. lia. }
  assert (Hdiv : length frames = (N / 4096)%nat).
  { apply (Nat.div_unique N 4096 _ (length (PCMProcessor.pending this1)));
      [exact Hpend | exact HN]. }
  assert (Hsent : sent = map (fun frame => Int16Array_buffer (floatToPCM16 frame)) frames).
  { subst sent. rewrite onWorkletMessages_open, Hposted. reflexivity. }
  rewrite Hsent. split; [rewrite length_map; exact Hdiv|]. split.
  - apply Forall_map. eapply Forall_impl; [exact Hall|].
    intros frame Hframe. cbn beta.
    rewrite length_Int16Array_buffer. unfold floatToPCM16.
    rewrite length_map, Hframe. reflexivity.
  - intros i payload Hi. rewrite list_lookup_fmap in Hi.
    destruct (frames !! i) as [frame|] eqn:Hframe; [|discriminate].
    injection Hi as <-.
    rewrite new_Int16Array_buffer by apply floatToPCM16_int16.
    do 2 f_equal.
    (* the i-th frame is the i-th block of the stream *)
    clear -Hall Hcat Hframe. rewrite Hcat. clear Hcat.
    revert i Hframe. induction Hall as [|f rest Hf Hrest IH]; intros i Hi;
      [discriminate|].
    destruct i as [|i]; cbn [concat].
    + injection Hi as ->. rewrite Nat.mul_0_r, drop_0.
      rewrite <- app_assoc, take_app_length'; [reflexivity | symmetry; exact Hf].
    + cbn [lookup list_lookup] in Hi.
      replace (4096 * S i)%nat with (length f + 4096 * i)%nat by lia.
      rewrite <- app_assoc, drop_app_add. apply IH. exact Hi.
Qed.

(* --------------------------------------------------------------------- *)
(** ** The playback queue over whole runs *)

Import Playback.

Lemma take_add_drop {A : Type} (l : list A) (j k : nat) :
  take (j + k) l = take j l ++ take k (drop j l).
Proof.
  revert l. induction j as [|j IH]; intros [|x l]; cbn [Nat.add take drop app];
    rewrite ?take_nil; try reflexivity.
  f_equal. apply IH.
Qed.

Lemma playable_app (l1 l2 : list (list float)) :
  playable (l1 ++ l2) = playable l1 ++ playable l2.
Proof. unfold playable. rewrite map_app, filter_app. reflexivity. Qed.

(** One call of [processChunk] takes at most the oldest frame off the
    queue, and starts it unless it is empty. *)
Lemma processChunk_fifo (playing : bool) (currentTime : num) (st : State) :
  exists j : nat,
    (j <= length (audioQueue st))%nat
    /\ audioQueue (processChunk playing currentTime st) = drop j (audioQueue st)
    /\ map snd (started (processChunk playing currentTime st))
       = map snd (started st) ++ playable (take j (audioQueue st)).
Proof.
  unfold processChunk.
  destruct (negb playing || negb (audioContext st)
            || (length (audioQueue st) =? 0)%nat).
  { exists 0%nat. state_simpl. rewrite drop_0, take_0.
    change (playable []) with (@nil nat). rewrite app_nil_r.
    repeat split; lia. }
  destruct (audioQueue st) as [|audioData rest] eqn:Hqueue.
  { exists 0%nat. state_simpl. rewrite Hqueue. cbn [take drop length].
    change (playable []) with (@nil nat). rewrite app_nil_r. repeat split; lia. }
  exists 1%nat. cbn [length].
  change (drop 1 (audioData :: rest)) with rest.
  change (take 1 (audioData :: rest)) with [audioData].
  split; [lia|].
  destruct (length audioData =? 0)%nat eqn:Hlen.
  - state_simpl. apply Nat.eqb_eq in Hlen.
    unfold playable. cbn [map]. rewrite Hlen.
    rewrite filter_cons_False by lia. cbn. rewrite app_nil_r. repeat split.
  - apply Nat.eqb_neq in Hlen.
    assert (Hplay : playable [audioData] = [length audioData]).
    { unfold playable. cbn [map]. rewrite filter_cons_True by exact Hlen.
      reflexivity. }
    rewrite Hplay.
    destruct (_ <? _)%float; state_simpl; rewrite map_app; repeat split.
Qed.

Lemma step_fifo (st : State) (ev : Event) :
  exists j : nat,
    (j <= length (audioQueue st ++ accepted_frame ev))%nat
    /\ audioQueue (step st ev) = drop j (audioQueue st ++ accepted_frame ev)
    /\ map snd (started (step st ev))
       = map snd (started st)
         ++ playable (take j (audioQueue st ++ accepted_frame ev)).
Proof.
  assert (Hsame : forall st' : State,
            audioQueue st' = audioQueue st -> started st' = started st ->
            exists j : nat,
              (j <= length (audioQueue st ++ []))%nat
              /\ audioQueue st' = drop j (audioQueue st ++ [])
              /\ map snd (started st')
                 = map snd (started st) ++ playable (take j (audioQueue st ++ []))).
  { intros st' Hq Hs. exists 0%nat.
    rewrite Hq, Hs, drop_0, take_0. change (playable []) with (@nil nat).
    rewrite !app_nil_r. repeat split; lia. }
  destruct ev as [playing currentTime [arrayBuffer|] | currentTime];
    cbn [step onmessage accepted_frame].
  - destruct playing; [|apply Hsame; reflexivity].
    destruct (new_Int16Array arrayBuffer) as [pcmSamples|] eqn:Hpcm.
    + destruct (isPlaybackActive st) eqn:Hactive;
        [|destruct (audioContext st) eqn:Hctx].
      * rewrite (handlePCMData_enqueue _ _ _ st Hpcm) by (left; exact Hactive).
        exists 0%nat. state_simpl. rewrite drop_0, take_0.
        change (playable []) with (@nil nat). rewrite app_nil_r.
        repeat split; lia.
      * rewrite (handlePCMData_wake _ _ _ st Hpcm Hactive Hctx).
        match goal with
        | |- context [processChunk true currentTime ?s] =>
            destruct (processChunk_fifo true currentTime s) as (j & Hj & Hq & Hs)
        end.
        exists j. revert Hj Hq Hs. state_simpl. auto.
      * rewrite (handlePCMData_enqueue _ _ _ st Hpcm) by (right; exact Hctx).
        exists 0%nat. state_simpl. rewrite drop_0, take_0.
        change (playable []) with (@nil nat). rewrite app_nil_r.
        repeat split; lia.
    + apply Hsame; unfold handlePCMData; cbn [negb]; rewrite Hpcm; reflexivity.
  - destruct playing; apply Hsame; reflexivity.
  - destruct (processChunk_fifo true currentTime st) as (j & Hj & Hq & Hs).
    exists j. rewrite app_nil_r. auto.
Qed.

Lemma run_fifo (evs : list Event) :
  forall st : State,
  exists k : nat,
    (k <= length (audioQueue st ++ accepted evs))%nat
    /\ audioQueue (run st evs) = drop k (audioQueue st ++ accepted evs)
    /\ map snd (started (run st evs))
       = map snd (started st)
         ++ playable (take k (audioQueue st ++ accepted evs)).
Proof.
  induction evs as [|ev evs IH]; intros st.
  - exists 0%nat. cbn [run fold_left accepted flat_map].
    rewrite drop_0, take_0. change (playable []) with (@nil nat).
    rewrite !app_nil_r. repeat split; lia.
  - rewrite run_cons.
    destruct (step_fifo st ev) as (j & Hj & Hq1 & Hs1).
    destruct (IH (step st ev)) as (k & Hk & Hq & Hs).
    set (L1 := audioQueue st ++ accepted_frame ev) in *.
    assert (HL : audioQueue st ++ accepted (ev :: evs) = L1 ++ accepted evs).
    { subst L1. unfold accepted. cbn [flat_map]. apply app_assoc. }
    assert (Hdrop : audioQueue (step st ev) ++ accepted evs
                    = drop j (L1 ++ accepted evs)).
    { rewrite Hq1, drop_app_le by exact Hj. reflexivity. }
    rewrite Hdrop in Hk, Hq, Hs. rewrite HL.
    exists (j + k)%nat. split; [|split].
    + rewrite length_drop in Hk. rewrite length_app in *. lia.
    + rewrite Hq, drop_drop. reflexivity.
    + rewrite Hs, Hs1, <- app_assoc. f_equal.
      rewrite <- playable_app. f_equal.
      rewrite take_add_drop, take_app_le by exact Hj. reflexivity.
Qed.

(** X11. In every run of a playback session the scheduler is a queue in the
    strict sense: at any moment the frames still queued are the accepted
    frames from some position [k] on, in arrival order, and the buffers
    started so far are the first [k] accepted frames, in that order, the
    empty ones left out (they are taken off the queue and not played).
    No frame is played twice, skipped, or played before an older one. *)
Theorem frames_played_in_arrival_order (t0 : num) (evs : list Event) :
  let st := run (session t0) evs in
  exists k : nat,
    (k <= length (accepted evs))%nat
    /\ audioQueue st = drop k (accepted evs)
    /\ map snd (started st) = playable (take k (accepted evs)).
Proof.
  intros st. destruct (run_fifo evs (session t0)) as (k & Hk & Hq & Hs).
  exists k. exact (conj Hk (conj Hq Hs)).
Qed.

(** *** Without an audio context *)

Lemma step_without_context (st : State) (ev : Event) :
  audioContext st = false ->
  audioContext (step st ev) = false
  /\ started (step st ev) = started st
  /\ timeouts (step st ev) = timeouts st
  /\ nextPlayTime (step st ev) = nextPlayTime st
  /\ isPlaying (step st ev) = isPlaying st
  /\ audioQueue (step st ev) = audioQueue st ++ accepted_frame ev.
Proof.
  intros Hctx.
  destruct ev as [playing currentTime [arrayBuffer|] | currentTime];
    cbn [step onmessage accepted_frame].
  - destruct playing;
      [|unfold handlePCMData; cbn [negb]; rewrite app_nil_r, Hctx;
        repeat split; reflexivity].
    destruct (new_Int16Array arrayBuffer) as [pcmSamples|] eqn:Hpcm.
    + rewrite (handlePCMData_enqueue _ _ _ st Hpcm) by (right; exact Hctx).
      state_simpl. rewrite Hctx. repeat split; reflexivity.
    + unfold handlePCMData. cbn [negb]. rewrite Hpcm. state_simpl.
      rewrite app_nil_r, Hctx. repeat split; reflexivity.
  - destruct playing; rewrite app_nil_r, Hctx; repeat split; reflexivity.
  - unfold processChunk. rewrite Hctx. cbn [negb orb]. state_simpl.
    rewrite app_nil_r, Hctx. repeat split; reflexivity.
Qed.

(** X12. Once playback is stopped (by the user, or by the socket closing or
    failing), whatever arrives later, from handlers and timers that were
    created while it was playing, starts no buffer and sets no timer; the
    frames that such a handler accepts are still decoded and pile up in
    the queue, which nothing empties before the next start. *)
Theorem nothing_plays_after_stop (st0 : State) (evs : list Event) :
  Forall (fun st =>
            let st' := run st evs in
            started st' = started st0
            /\ timeouts st' = timeouts st0
            /\ audioContext st' = false
            /\ isPlaying st' = false
            /\ audioQueue st' = accepted evs)
    [stopAudioPlayback st0; onclose st0; onerror st0].
Proof.
  assert (Hrun : forall st : State,
            audioContext st = false ->
            started (run st evs) = started st
            /\ timeouts (run st evs) = timeouts st
            /\ audioContext (run st evs) = false
            /\ isPlaying (run st evs) = isPlaying st
            /\ audioQueue (run st evs) = audioQueue st ++ accepted evs).
  { induction evs as [|ev evs IH]; intros st Hctx.
    - cbn [run fold_left accepted flat_map]. rewrite app_nil_r. auto.
    - rewrite run_cons.
      destruct (step_without_context st ev Hctx)
        as (Hc & Hs & Ht & _ & Hp & Hq).
      destruct (IH (step st ev) Hc) as (Hs' & Ht' & Hc' & Hp' & Hq').
      rewrite Hs', Ht', Hc', Hp', Hq', Hs, Ht, Hp, Hq.
      unfold accepted. cbn [flat_map]. rewrite app_assoc. auto. }
  assert (Hall : forall st : State,
            audioContext st = false -> started st = started st0 ->
            timeouts st = timeouts st0 -> isPlaying st = false ->
            audioQueue st = [] ->
            let st' := run st evs in
            started st' = started st0
            /\ timeouts st' = timeouts st0
            /\ audioContext st' = false
            /\ isPlaying st' = false
            /\ audioQueue st' = accepted evs).
  { intros st Hctx Hs0 Ht0 Hp0 Hq0.
    destruct (Hrun st Hctx) as (Hs & Ht & Hc & Hp & Hq).
    cbv zeta. rewrite Hs, Ht, Hc, Hp, Hq, Hs0, Ht0, Hp0, Hq0. auto. }
  constructor; [|constructor; [|constructor; [|constructor]]];
    apply Hall; reflexivity.
Qed.

(** *** An empty frame *)

(** X13. An empty binary message that reaches an idle scheduler is taken
    for audio: the status becomes "Playing audio", the empty frame is
    taken off the queue, [createBuffer] refuses it, the error is logged
    and a retry is set 100 ms later; when that timer fires the scheduler
    goes back to waiting. Nothing is started and the playback clock does
    not move. *)
Theorem empty_frame_is_retried (currentTime later : num) (st : State) :
  audioContext st = true -> isPlaybackActive st = false ->
  audioQueue st = [] ->
  let st' := onmessage true currentTime (Binary []) st in
  let st'' := step st' (Timeout later) in
  (playbackStatus st' = "Playing audio"%string
   /\ isPlaybackActive st' = true
   /\ errors st' = errors st ++ ["Error playing audio chunk:"%string]
   /\ timeouts st' = timeouts st ++ [100%float]
   /\ audioQueue st' = []
   /\ started st' = started st
   /\ nextPlayTime st' = nextPlayTime st)
  /\ (playbackStatus st'' = "Waiting for audio data"%string
      /\ isPlaybackActive st'' = false
      /\ timeouts st'' = timeouts st'
      /\ started st'' = started st
      /\ nextPlayTime st'' = nextPlayTime st).
Proof.
  intros Hctx Hidle Hqueue st' st''.
  assert (Hst' : st' = setTimeout 100
                   (console_error "Error playing audio chunk:"
                      (set_audioQueue []
                         (set_playbackStatus "Playing audio"
                            (set_isPlaybackActive true
                               (set_audioQueue (audioQueue st ++ [[]])
                                  (set_volumeLevel
                                     (calculateVolume (Float32Array []))
                                     st))))))).
  { subst st'. cbn [onmessage].
    rewrite (handlePCMData_wake currentTime [] [] st eq_refl Hidle Hctx).
    unfold processChunk. state_simpl. rewrite Hctx, Hqueue. reflexivity. }
  split.
  - rewrite Hst'. state_simpl. repeat split.
  - subst st''. cbn [step]. rewrite processChunk_underrun
      by (rewrite Hst'; reflexivity).
    rewrite Hst'. state_simpl. repeat split.
Qed.

Lemma empty_frame_is_retried_witness :
  let st := session 0 in
  audioContext st = true /\ isPlaybackActive st = false /\ audioQueue st = []
  /\ let st' := onmessage true 3 (Binary []) st in
     let st'' := step st' (Timeout 4) in
     (playbackStatus st' = "Playing audio"%string
      /\ isPlaybackActive st' = true
      /\ errors st' = errors st ++ ["Error playing audio chunk:"%string]
      /\ timeouts st' = timeouts st ++ [100%float]
      /\ audioQueue st' = []
      /\ started st' = started st
      /\ nextPlayTime st' = nextPlayTime st)
     /\ (playbackStatus st'' = "Waiting for audio data"%string
         /\ isPlaybackActive st'' = false
         /\ timeouts st'' = timeouts st'
         /\ started st'' = started st
         /\ nextPlayTime st'' = nextPlayTime st).
Proof.
  intros st. do 3 (split; [reflexivity|]).
  exact (empty_frame_is_retried 3 4 st eq_refl eq_refl eq_refl).
Defined.

(** *** The timers of the scheduler *)





(* --------------------------------------------------------------------- *)
(** ** Integers as binary64 floats *)

Lemma iter_xO (d m : positive) :
  Zpos (Pos.iter xO m d) = Zpos m * 2 ^ Zpos d.
Proof.
  induction d as [|d IH] using Pos.peano_ind.
  - cbn [Pos.iter]. lia.
  - rewrite Pos.iter_succ, Pos2Z.inj_succ, Z.pow_succ_r by lia.
    rewrite Pos2Z.inj_xO, IH. ring.
Qed.

(** An integer below 2^53 in magnitude is a float, exactly. *)
Lemma Prim2SF_of_pos (p : positive) :
  Zpos p < 2 ^ 53 ->
  exists (m : positive) (e : Z),
    Prim2SF (of_uint63 (Uint63.of_Z (Zpos p))) = S754_finite false m e
    /\ -52 <= e <= 0 /\ Zpos m = Zpos p * 2 ^ (- e).
Proof.
  intros Hp. rewrite of_uint63_spec, Uint63.of_Z_spec.
  rewrite Z.mod_small
    by (split; [lia|]; eapply Z.lt_trans; [exact Hp | reflexivity]).
  cbn [binary_normalize]. unfold binary_round, shl_align, fexp.
  pose proof (digits2_pos_bounds p) as [Hlo Hhi].
  set (d := Zpos (digits2_pos p)) in *.
  assert (Hd : 1 <= d <= 53).
  { split; [subst d; lia|].
    destruct (Z.le_gt_cases d 53) as [|Hgt]; [assumption|exfalso].
    assert (2 ^ 53 <= 2 ^ (d - 1)) by (apply Z.pow_le_mono_r; lia). lia. }
  change (SpecFloat.emin prec emax) with (-1074).
  change prec with 53. change emax with 1024.
  rewrite Z.add_0_r, Z.max_l, Z.sub_0_r by lia.
  destruct (d - 53) as [|q|q] eqn:Hq; [|lia|].
  - (* 53 digits already *)
    exists p, 0. split; [|split; [lia | cbn; lia]].
    pose proof (binary_round_aux_exact false p 0 0) as Hr.
    rewrite Z.pow_0_r, Z.mul_1_r in Hr. apply Hr; subst d; lia.
  - exists (Pos.iter xO p q), (Zneg q).
    assert (Hval : Zpos (Pos.iter xO p q) = Zpos p * 2 ^ Zpos q) by apply iter_xO.
    assert (Hq' : Zpos q = 53 - d) by lia.
    split; [|split; [lia | exact Hval]].
    pose proof (binary_round_aux_exact false (Pos.iter xO p q) 0 (Zneg q)) as Hr.
    rewrite Z.pow_0_r, Z.mul_1_r, Z.add_0_r in Hr. apply Hr; [|lia|lia].
    apply digits2_pos_unique. rewrite Hval, Hq'.
    assert (E1 : 2 ^ (53 - 1) = 2 ^ (d - 1) * 2 ^ (53 - d))
      by (rewrite <- Z.pow_add_r by lia; f_equal; lia).
    assert (E2 : 2 ^ 53 = 2 ^ d * 2 ^ (53 - d))
      by (rewrite <- Z.pow_add_r by lia; f_equal; lia).
    rewrite E1, E2.
    assert (0 < 2 ^ (53 - d)) by (apply Z.pow_pos_nonneg; lia).
    split; [apply Z.mul_le_mono_nonneg_r; [lia | exact Hlo]
           |apply Z.mul_lt_mono_pos_r; [lia | exact Hhi]].
Qed.

Lemma of_int_exact (z : Z) :
  - 2 ^ 53 < z < 2 ^ 53 ->
  is_finite (of_int z) = true /\ (value (of_int z) == inject_Z z)%Q.
Proof.
  intros Hz.
  assert (Hpos : forall (p : positive) (m : positive) (e : Z),
            -52 <= e <= 0 -> Zpos m = Zpos p * 2 ^ (- e) ->
            (inject_Z (Zpos m) * 2 ^ e == inject_Z (Zpos p))%Q).
  { intros p m e He Hm. rewrite Hm, inject_Z_mult.
    rewrite <- (pow2_inject (- e)) by lia.
    rewrite <- Qmult_assoc, <- pow2_add.
    replace (- e + e) with 0 by lia. change (2 ^ 0)%Q with 1%Q. ring. }
  destruct z as [|p|p]; [split; reflexivity | |]; unfold of_int.
  - destruct (Prim2SF_of_pos p ltac:(lia)) as (m & e & E & He & Hm).
    rewrite is_finite_spec. unfold value. rewrite E.
    split; [reflexivity|]. cbn [cond_Zopp]. exact (Hpos p m e He Hm).
  - destruct (Prim2SF_of_pos p ltac:(lia)) as (m & e & E & He & Hm).
    rewrite is_finite_spec. unfold value. rewrite FloatAxioms.opp_spec, E. cbn [SFopp negb].
    split; [reflexivity|]. cbn [cond_Zopp].
    change (Z.neg m) with (- Zpos m). change (Z.neg p) with (- Zpos p).
    rewrite !inject_Z_opp, Qopp_mult_l, (Hpos p m e He Hm). reflexivity.
Qed.

Lemma Prim2SF_of_int_pos (z : Z) :
  0 < z < 2 ^ 53 ->
  exists (m : positive) (e : Z), Prim2SF (of_int z) = S754_finite false m e.
Proof.
  intros Hz. destruct z as [|p|p]; try lia.
  destruct (Prim2SF_of_pos p ltac:(lia)) as (m & e & E & _).
  exists m, e. exact E.
Qed.

(* --------------------------------------------------------------------- *)
(** ** The arithmetic of the audio clock

    [nextPlayTime], the clock readings and the durations are binary64
    numbers; the scheduler adds and compares them. *)

(** *** The order of binary64 numbers *)

Lemma leb_refl (x : float) : is_nan x = false -> (x <=? x)%float = true.
Proof.
  rewrite is_nan_spec, leb_spec. unfold SFleb, SFcompare.
  destruct (Prim2SF x) as [s|s| |s m e]; try discriminate; intros _.
  - reflexivity.
  - destruct s; reflexivity.
  - rewrite Z.compare_refl.
    change (Pos.compare_cont Eq m m) with (Pos.compare m m).
    rewrite Pos.compare_refl. destruct s; reflexivity.
Qed.

Lemma ltb_leb (x y : float) : (x <? y)%float = true -> (x <=? y)%float = true.
Proof.
  rewrite ltb_spec, leb_spec. unfold SFltb, SFleb.
  destruct (SFcompare (Prim2SF x) (Prim2SF y)) as [[]|]; congruence.
Qed.

Lemma leb_not_nan (x y : float) :
  (x <=? y)%float = true -> is_nan x = false /\ is_nan y = false.
Proof.
  rewrite leb_spec, !is_nan_spec. unfold SFleb, SFcompare.
  destruct (Prim2SF x), (Prim2SF y); try discriminate; split; reflexivity.
Qed.

Lemma leb_infinity_right (x : float) :
  is_nan x = false -> (x <=? infinity)%float = true.
Proof.
  rewrite is_nan_spec, leb_spec.
  change (Prim2SF infinity) with (S754_infinity false).
  destruct (Prim2SF x) as [s|[]| |s m e]; try discriminate; reflexivity.
Qed.

Lemma leb_neg_infinity_left (y : float) :
  is_nan y = false -> (neg_infinity <=? y)%float = true.
Proof.
  rewrite is_nan_spec, leb_spec.
  change (Prim2SF neg_infinity) with (S754_infinity true).
  destruct (Prim2SF y) as [s|[]| |s m e]; try discriminate; reflexivity.
Qed.

Lemma leb_trans (x y z : float) :
  (x <=? y)%float = true -> (y <=? z)%float = true -> (x <=? z)%float = true.
Proof.
  intros Hxy Hyz.
  destruct (leb_not_nan x y Hxy) as [Hnx _].
  destruct (leb_not_nan y z Hyz) as [_ Hnz].
  destruct (float_cases z) as [-> | [-> | [-> | Hfz]]];
    [vm_compute in Hnz; discriminate Hnz
    | apply leb_infinity_right; exact Hnx | |].
  { rewrite (leb_neg_infinity_right y Hyz) in Hxy.
    rewrite (leb_neg_infinity_right x Hxy). reflexivity. }
  destruct (float_cases x) as [-> | [-> | [-> | Hfx]]];
    [vm_compute in Hnx; discriminate Hnx
    | | apply leb_neg_infinity_left; exact Hnz |].
  { rewrite (leb_infinity_left y Hxy) in Hyz.
    rewrite (leb_infinity_left z Hyz). reflexivity. }
  destruct (float_cases y) as [-> | [-> | [-> | Hfy]]].
  - destruct (leb_not_nan _ _ Hyz) as [Hny _].
    vm_compute in Hny. discriminate Hny.
  - rewrite (leb_infinity_left z Hyz) in Hfz. discriminate.
  - rewrite (leb_neg_infinity_right x Hxy) in Hfx. discriminate.
  - apply leb_value; [exact Hfx | exact Hfz |].
    apply (leb_value x y Hfx Hfy) in Hxy.
    apply (leb_value y z Hfy Hfz) in Hyz.
    eapply Qle_trans; eassumption.
Qed.

(** Not NaN and not negative: what a clock reading is. *)
Lemma nonneg_cases (x : float) :
  (0 <=? x)%float = true ->
  (exists s, Prim2SF x = S754_zero s)
  \/ Prim2SF x = S754_infinity false
  \/ (exists m e, Prim2SF x = S754_finite false m e).
Proof.
  rewrite leb_spec. change (Prim2SF 0) with (S754_zero false).
  destruct (Prim2SF x) as [s|[]| |[] m e]; try discriminate; intros _; eauto.
Qed.

Lemma nonneg_of_cases (x : float) :
  (exists s, Prim2SF x = S754_zero s)
  \/ Prim2SF x = S754_infinity false
  \/ (exists m e, Prim2SF x = S754_finite false m e) ->
  (0 <=? x)%float = true.
Proof.
  rewrite leb_spec. change (Prim2SF 0) with (S754_zero false).
  intros [[s ->] | [-> | (m & e & ->)]]; reflexivity.
Qed.

(** *** Rounding to nearest never passes a binary64 number *)

Lemma shr_1_m (mrs : shr_record) :
  0 <= shr_m mrs -> shr_m (shr_1 mrs) = shr_m mrs / 2.
Proof.
  destruct mrs as [m r s]. cbn [shr_m]. intros Hm.
  rewrite <- Z.div2_div. destruct m as [|[p|p|]|p]; try lia; reflexivity.
Qed.

Lemma iter_shr_1_m (p : positive) :
  forall mrs : shr_record, 0 <= shr_m mrs ->
  shr_m (SpecFloat.iter_pos shr_1 p mrs) = shr_m mrs / 2 ^ Zpos p.
Proof.
  assert (Hpow : forall q : positive, 0 < 2 ^ Zpos q)
    by (intros q; apply Z.pow_pos_nonneg; lia).
  induction p as [p IH|p IH|]; intros mrs Hm; cbn [SpecFloat.iter_pos].
  - assert (H1 : 0 <= shr_m (shr_1 mrs))
      by (rewrite shr_1_m by exact Hm; apply Z.div_pos; lia).
    assert (H2 : 0 <= shr_m (SpecFloat.iter_pos shr_1 p (shr_1 mrs)))
      by (rewrite IH by exact H1; apply Z.div_pos; [exact H1 | apply Hpow]).
    rewrite IH by exact H2. rewrite IH by exact H1. rewrite shr_1_m by exact Hm.
    pose proof (Hpow p).
    rewrite !Z.div_div by lia. f_equal.
    replace (Zpos p~1) with (1 + Zpos p + Zpos p) by lia.
    rewrite !Z.pow_add_r, Z.pow_1_r by lia. ring.
  - assert (H1 : 0 <= shr_m (SpecFloat.iter_pos shr_1 p mrs))
      by (rewrite IH by exact Hm; apply Z.div_pos; [exact Hm | apply Hpow]).
    rewrite IH by exact H1. rewrite IH by exact Hm.
    pose proof (Hpow p).
    rewrite !Z.div_div by lia. f_equal.
    replace (Zpos p~0) with (Zpos p + Zpos p) by lia.
    rewrite !Z.pow_add_r by lia. ring.
  - rewrite Z.pow_1_r. apply shr_1_m. exact Hm.
Qed.

Lemma shr_m_nonneg (mrs : shr_record) (e n : Z) :
  0 <= shr_m mrs -> 0 <= shr_m (fst (shr mrs e n)).
Proof.
  intros Hm. unfold shr. destruct n as [|p|p]; cbn [fst]; try exact Hm.
  rewrite iter_shr_1_m by exact Hm.
  apply Z.div_pos; [exact Hm | apply Z.pow_pos_nonneg; lia].
Qed.

Lemma shr_m_of_loc (m : Z) (l : location) : shr_m (shr_record_of_loc m l) = m.
Proof. destruct l as [|[]]; reflexivity. Qed.

Lemma round_nearest_even_bounds (m : Z) (l : location) :
  m <= round_nearest_even m l <= m + 1.
Proof.
  destruct l as [|[]]; cbn [round_nearest_even]; try destruct (Z.even m); lia.
Qed.

(** Whatever is rounded, a mantissa that is not negative gives a result
    that is not negative and not NaN. *)
Lemma binary_round_aux_nonneg (m e : Z) (l : location) :
  0 <= m ->
  match binary_round_aux 53 1024 false m e l with
  | S754_zero _ | S754_infinity false | S754_finite false _ _ => True
  | _ => False
  end.
Proof.
  intros Hm. unfold binary_round_aux, shr_fexp.
  set (n1 := fexp 53 1024 (Zdigits2 m + e) - e).
  pose proof (shr_m_nonneg (shr_record_of_loc m l) e n1) as H1.
  rewrite shr_m_of_loc in H1. specialize (H1 Hm).
  destruct (shr (shr_record_of_loc m l) e n1) as [mrs' e']. cbn [fst] in H1.
  set (m1 := round_nearest_even (shr_m mrs') (loc_of_shr_record mrs')).
  assert (Hm1 : 0 <= m1)
    by (pose proof (round_nearest_even_bounds (shr_m mrs') (loc_of_shr_record mrs'));
        subst m1; lia).
  set (n2 := fexp 53 1024 (Zdigits2 m1 + e') - e').
  pose proof (shr_m_nonneg (shr_record_of_loc m1 loc_Exact) e' n2) as H2.
  rewrite shr_m_of_loc in H2. specialize (H2 Hm1).
  destruct (shr (shr_record_of_loc m1 loc_Exact) e' n2) as [mrs'' e''].
  cbn [fst] in H2.
  destruct (shr_m mrs'') as [|q|q]; [exact I | | lia].
  destruct (e'' <=? 1024 - 53); exact I.
Qed.

(** Comparing m 2^x and m' 2^y after scaling by a common power. *)
Lemma scaled_le (a b x y c : Z) :
  c <= x -> c <= y ->
  (inject_Z a * 2 ^ x <= inject_Z b * 2 ^ y)%Q
  <-> a * 2 ^ (x - c) <= b * 2 ^ (y - c).
Proof.
  intros Hx Hy.
  assert (Ex : (2 ^ x == 2 ^ c * inject_Z (2 ^ (x - c)))%Q).
  { rewrite <- (pow2_inject (x - c)) by lia. rewrite <- pow2_add.
    replace (c + (x - c)) with x by lia. reflexivity. }
  assert (Ey : (2 ^ y == 2 ^ c * inject_Z (2 ^ (y - c)))%Q).
  { rewrite <- (pow2_inject (y - c)) by lia. rewrite <- pow2_add.
    replace (c + (y - c)) with y by lia. reflexivity. }
  rewrite Ex, Ey, Zle_Qle, !inject_Z_mult.
  pose proof (pow2_pos c) as Hc.
  set (P := (2 ^ c)%Q) in *. clearbody P.
  set (A := inject_Z (2 ^ (x - c))). set (B := inject_Z (2 ^ (y - c))).
  set (ia := inject_Z a). set (ib := inject_Z b). clearbody A B ia ib.
  split; intros H.
  - apply (Qmult_le_r _ _ P Hc). lra.
  - apply (Qmult_le_r _ _ P Hc) in H. lra.
Qed.

(** Rounding m 2^e to nearest gives at least every binary64 number that
    is at most m 2^e (or overflows to infinity). *)
Lemma binary_round_aux_lower (M mw : positive) (e ew : Z) :
  -1074 <= e -> Zpos mw < 2 ^ 53 ->
  (inject_Z (Zpos mw) * 2 ^ ew <= inject_Z (Zpos M) * 2 ^ e)%Q ->
  match binary_round_aux 53 1024 false (Zpos M) e loc_Exact with
  | S754_infinity false => True
  | S754_finite false m' e' =>
      (inject_Z (Zpos mw) * 2 ^ ew <= inject_Z (Zpos m') * 2 ^ e')%Q
  | _ => False
  end.
Proof.
  intros He Hmw Hle.
  pose proof (digits2_pos_bounds M) as [Hlo Hhi].
  unfold binary_round_aux, shr_fexp, fexp, emin.
  cbn [Zdigits2 shr_record_of_loc].
  set (d := Zpos (digits2_pos M)) in *.
  destruct (Z.max (d + e - 53) (3 - 1024 - 53) - e) as [|p|p] eqn:Hn.
  - cbn [shr shr_m loc_of_shr_record shr_r shr_s round_nearest_even Zdigits2
         shr_record_of_loc].
    fold d. rewrite Hn. cbn [shr shr_m].
    destruct (e <=? 1024 - 53); [exact Hle | exact I].
  - (* the mantissa has more than 53 digits: [p] of them are dropped *)
    assert (Hp : Zpos p = d - 53) by lia.
    cbn [shr].
    set (mrs' := SpecFloat.iter_pos shr_1 p
                   {| shr_m := Zpos M; shr_r := false; shr_s := false |}).
    assert (HF : shr_m mrs' = Zpos M / 2 ^ Zpos p)
      by (subst mrs'; apply iter_shr_1_m; cbn [shr_m]; lia).
    set (F := shr_m mrs') in *.
    assert (Hpow : 0 < 2 ^ Zpos p) by (apply Z.pow_pos_nonneg; lia).
    assert (E52 : 2 ^ (d - 1) = 2 ^ 52 * 2 ^ Zpos p)
      by (rewrite <- Z.pow_add_r by lia; f_equal; lia).
    assert (E53 : 2 ^ d = 2 ^ 53 * 2 ^ Zpos p)
      by (rewrite <- Z.pow_add_r by lia; f_equal; lia).
    assert (HFlo : 2 ^ 52 <= F).
    { rewrite HF. apply Z.div_le_lower_bound; [exact Hpow|]. lia. }
    assert (HFhi : F < 2 ^ 53).
    { rewrite HF. apply Z.div_lt_upper_bound; [exact Hpow|]. lia. }
    assert (HFM : F * 2 ^ Zpos p <= Zpos M).
    { rewrite HF, Z.mul_comm. apply Z.mul_div_le. exact Hpow. }
    (* what is rounded lies above the number [mw 2^ew] *)
    set (c := Z.min ew e).
    set (E := e + Zpos p).
    assert (HK : Zpos mw * 2 ^ (ew - c) <= F * 2 ^ (E - c)).
    { apply (scaled_le _ _ ew e c) in Hle; [|subst c; lia..].
      assert (Hc : 0 < 2 ^ (ew - c)) by (apply Z.pow_pos_nonneg; subst c; lia).
      destruct (Z.lt_ge_cases ew E) as [Hlow | Hhigh].
      - assert (E1 : 2 ^ (E - c) = 2 ^ (E - ew) * 2 ^ (ew - c))
          by (rewrite <- Z.pow_add_r by (subst c; lia); f_equal; lia).
        assert (H2 : 2 ^ 1 <= 2 ^ (E - ew)) by (apply Z.pow_le_mono_r; lia).
        rewrite Z.pow_1_r in H2. rewrite E1.
        apply Z.le_trans with (2 ^ 53 * 2 ^ (ew - c)).
        + apply Z.mul_le_mono_nonneg_r; lia.
        + rewrite Z.mul_assoc. apply Z.mul_le_mono_nonneg_r; [lia|].
          change (2 ^ 53) with (2 ^ 52 * 2).
          apply Z.mul_le_mono_nonneg; lia.
      - assert (Hce : c = e) by (subst c E; lia).
        rewrite Hce in *. rewrite Z.sub_diag, Z.pow_0_r, Z.mul_1_r in Hle.
        replace (E - e) with (Zpos p) by (subst E; lia).
        assert (E1 : 2 ^ (ew - e) = 2 ^ (ew - E) * 2 ^ Zpos p)
          by (rewrite <- Z.pow_add_r by (subst E; lia); f_equal; subst E; lia).
        rewrite E1, Z.mul_assoc in Hle |- *.
        apply Z.mul_le_mono_nonneg_r; [lia|].
        rewrite HF. apply Z.div_le_lower_bound; [exact Hpow|].
        rewrite Z.mul_comm. exact Hle. }
    pose proof (round_nearest_even_bounds F (loc_of_shr_record mrs')) as Hm1.
    set (m1 := round_nearest_even F (loc_of_shr_record mrs')) in *.
    destruct m1 as [|q|q] eqn:Hq; [lia | | lia].
    cbn [Zdigits2 shr_record_of_loc]. fold E.
    assert (Hcx : c <= ew) by (subst c; lia).
    assert (HcE : c <= E) by (subst c E; lia).
    assert (HEc : 0 < 2 ^ (E - c)) by (apply Z.pow_pos_nonneg; lia).
    destruct (Z.lt_ge_cases (Zpos q) (2 ^ 53)) as [Hnorm | Hcarry].
    + (* the rounded mantissa has 53 digits *)
      assert (Hdq : Zpos (digits2_pos q) = 53)
        by (apply digits2_pos_unique; change (53 - 1) with 52; lia).
      rewrite Hdq.
      replace (Z.max (53 + E - 53) (3 - 1024 - 53) - E) with 0 by (subst E; lia).
      cbn [shr shr_m].
      destruct (E <=? 1024 - 53); [|exact I].
      apply (scaled_le _ _ ew E c); [exact Hcx | exact HcE |].
      apply Z.le_trans with (F * 2 ^ (E - c)); [exact HK|].
      apply Z.mul_le_mono_nonneg_r; lia.
    + (* the rounded mantissa is 2^53 *)
      assert (Hq53 : Zpos q = 2 ^ 53) by lia.
      assert (Hdq : Zpos (digits2_pos q) = 54)
        by (apply digits2_pos_unique; rewrite Hq53; split; [reflexivity | reflexivity]).
      rewrite Hdq.
      replace (Z.max (54 + E - 53) (3 - 1024 - 53) - E) with 1 by (subst E; lia).
      cbn [shr SpecFloat.iter_pos].
      assert (Hhalf : shr_m (shr_1 {| shr_m := Zpos q; shr_r := false;
                                      shr_s := false |}) = 2 ^ 52).
      { rewrite shr_1_m by (cbn [shr_m]; lia). cbn [shr_m]. rewrite Hq53.
        reflexivity. }
      rewrite Hhalf. change (2 ^ 52) with (Zpos (2 ^ 52)%positive).
      destruct (E + 1 <=? 1024 - 53); [|exact I].
      apply (scaled_le _ _ ew (E + 1) c); [exact Hcx | lia |].
      apply Z.le_trans with (F * 2 ^ (E - c)); [exact HK|].
      replace (E + 1 - c) with (1 + (E - c)) by lia.
      rewrite Z.pow_add_r, Z.pow_1_r, Z.mul_assoc by lia.
      apply Z.mul_le_mono_nonneg_r; [lia|].
      change (Zpos (2 ^ 52)%positive * 2) with (2 ^ 53). lia.
  - cbn [shr shr_m loc_of_shr_record shr_r shr_s round_nearest_even Zdigits2
         shr_record_of_loc].
    fold d. rewrite Hn. cbn [shr shr_m].
    destruct (e <=? 1024 - 53); [exact Hle | exact I].
Qed.

Lemma shl_align_value (m : positive) (e e' : Z) :
  e' <= e ->
  Zpos (fst (shl_align m e e')) = Zpos m * 2 ^ (e - e')
  /\ snd (shl_align m e e') = e'.
Proof.
  intros Hle. unfold shl_align.
  destruct (e' - e) as [|d|d] eqn:Hd; cbn [fst snd]; try lia.
  - replace (e - e') with 0 by lia. split; lia.
  - rewrite iter_xO. replace (e - e') with (Zpos d) by lia. split; reflexivity.
Qed.

Lemma binary_round_lower (M mw : positive) (e ew : Z) :
  -1074 <= e -> Zpos mw < 2 ^ 53 ->
  (inject_Z (Zpos mw) * 2 ^ ew <= inject_Z (Zpos M) * 2 ^ e)%Q ->
  match binary_round 53 1024 false M e with
  | S754_infinity false => True
  | S754_finite false m' e' =>
      (inject_Z (Zpos mw) * 2 ^ ew <= inject_Z (Zpos m') * 2 ^ e')%Q
  | _ => False
  end.
Proof.
  intros He Hmw Hle. unfold binary_round.
  set (E := fexp 53 1024 (Zpos (digits2_pos M) + e)).
  assert (HE : -1074 <= E) by (subst E; unfold fexp, emin; lia).
  destruct (shl_align M e E) as [mz ez] eqn:Hal.
  destruct (Z.le_gt_cases E e) as [Hlow | Hhigh].
  - destruct (shl_align_value M e E Hlow) as [Hm Hez].
    rewrite Hal in Hm, Hez. cbn [fst snd] in Hm, Hez. subst ez.
    apply binary_round_aux_lower; [exact HE | exact Hmw |].
    eapply Qle_trans; [exact Hle|]. apply Qle_lteq. right.
    rewrite Hm, inject_Z_mult, <- (pow2_inject (e - E)) by lia.
    rewrite <- Qmult_assoc, <- pow2_add.
    replace (e - E + E) with e by lia. reflexivity.
  - assert (Hsame : shl_align M e E = (M, e)).
    { unfold shl_align. destruct (E - e) eqn:Hd; try lia; reflexivity. }
    rewrite Hsame in Hal. injection Hal as <- <-.
    apply binary_round_aux_lower; assumption.
Qed.

(** The sum of two numbers that are not negative is at least the first
    of them, and is not negative. *)
Lemma add_nonneg_le (x d : float) :
  (0 <=? x)%float = true -> (0 <=? d)%float = true ->
  (0 <=? x + d)%float = true /\ (x <=? x + d)%float = true.
Proof.
  intros Hx Hd.
  destruct (leb_not_nan _ _ Hx) as [_ Hnx].
  assert (Hsum : (x <=? x + d)%float = true);
    [|split; [exact (leb_trans _ _ _ Hx Hsum) | exact Hsum]].
  destruct (nonneg_cases x Hx) as [[sx Ex] | [Ex | (mx & ex & Ex)]];
    destruct (nonneg_cases d Hd) as [[sd Ed] | [Ed | (md & ed & Ed)]].
  9: { (* two positive numbers *)
    destruct (valid_finite x _ _ _ Ex) as (Hex & Hdx & _).
    destruct (valid_finite d _ _ _ Ed) as (Hed & _ & _).
    pose proof (digits2_pos_bounds mx) as [_ Hmx].
    assert (Hmx53 : Zpos mx < 2 ^ 53).
    { eapply Z.lt_le_trans; [exact Hmx|]. apply Z.pow_le_mono_r; lia. }
    set (ez := Z.min ex ed).
    destruct (shl_align_value mx ex ez) as [Hax _]; [subst ez; lia|].
    destruct (shl_align_value md ed ez) as [Had _]; [subst ez; lia|].
    pose proof (add_spec x d) as Hadd. rewrite Ex, Ed in Hadd.
    cbn [SF64add SFadd cond_Zopp] in Hadd. fold ez in Hadd.
    set (ax := fst (shl_align mx ex ez)) in *.
    set (ad := fst (shl_align md ed ez)) in *.
    change (Zpos ax + Zpos ad) with (Zpos (ax + ad)) in Hadd.
    cbn [binary_normalize] in Hadd.
    pose proof (binary_round_lower (ax + ad) mx ez ex) as Hlow.
    change prec with 53 in Hadd. change emax with 1024 in Hadd.
    rewrite <- Hadd in Hlow.
    assert (Hle : (inject_Z (Zpos mx) * 2 ^ ex
                   <= inject_Z (Zpos (ax + ad)) * 2 ^ ez)%Q).
    { apply (scaled_le _ _ ex ez ez); [subst ez; lia | lia |].
      rewrite Z.sub_diag, Z.pow_0_r, Z.mul_1_r, Pos2Z.inj_add, <- Hax. lia. }
    specialize (Hlow ltac:(subst ez; lia) Hmx53 Hle).
    destruct (Prim2SF (x + d)) as [s|[]| |[] m' e'] eqn:Es; try contradiction.
    - rewrite leb_spec, Ex, Es. reflexivity.
    - apply leb_value.
      + rewrite is_finite_spec, Ex. reflexivity.
      + rewrite is_finite_spec, Es. reflexivity.
      + rewrite (value_finite x _ _ _ Ex), (value_finite _ _ _ _ Es).
        exact Hlow. }
  all: rewrite leb_spec, add_spec, Ex, Ed; cbn [SF64add SFadd];
    try reflexivity.
  - destruct sx, sd; reflexivity.
  - rewrite <- Ex, <- leb_spec. apply leb_refl. exact Hnx.
Qed.

(** *** Durations *)

Lemma of_int_nonneg (z : Z) : 0 <= z -> (0 <=? of_int z)%float = true.
Proof.
  intros Hz. destruct z as [|p|p]; [reflexivity | | lia].
  apply nonneg_of_cases. cbn [of_int]. rewrite of_uint63_spec.
  destruct (Uint63.to_Z (Uint63.of_Z (Zpos p))) as [|m|m] eqn:Ei.
  - left. exists false. reflexivity.
  - cbn [binary_normalize]. unfold binary_round.
    destruct (shl_align m 0 _) as [mz ez].
    pose proof (binary_round_aux_nonneg (Zpos mz) ez loc_Exact) as H.
    change prec with 53. change emax with 1024.
    destruct (binary_round_aux 53 1024 false (Zpos mz) ez loc_Exact)
      as [s|[]| |[] m' e']; try (exfalso; apply H; lia); eauto.
  - pose proof (Uint63.to_Z_bounded (Uint63.of_Z (Zpos p))) as Hb.
    rewrite Ei in Hb. lia.
Qed.

Lemma div_nonneg (a b : float) (mb : positive) (eb : Z) :
  (0 <=? a)%float = true -> Prim2SF b = S754_finite false mb eb ->
  (0 <=? a / b)%float = true.
Proof.
  intros Ha Eb. apply nonneg_of_cases. rewrite div_spec, Eb.
  destruct (nonneg_cases a Ha) as [[sa Ea] | [Ea | (ma & ea & Ea)]];
    rewrite Ea; cbn [SF64div SFdiv xorb].
  - left. eauto.
  - right. left. reflexivity.
  - destruct (SFdiv_core_binary prec emax (Zpos ma) ea (Zpos mb) eb)
      as [[mz ez] lz] eqn:Ecore.
    assert (Hmz : 0 <= mz).
    { unfold SFdiv_core_binary in Ecore.
      match type of Ecore with
      | (let '(q, r) := Z.div_eucl ?m' ?m2 in _) = _ =>
          assert (Hm' : 0 <= m');
          [|pose proof (Z.div_pos m' m2 Hm' ltac:(lia)) as Hq;
            unfold Z.div in Hq; destruct (Z.div_eucl m' m2) as [q r];
            injection Ecore as <- _ _; exact Hq]
      end.
      match goal with
      | |- 0 <= match ?s with _ => _ end =>
          destruct s; [lia | apply Z.shiftl_nonneg; lia | lia]
      end. }
    pose proof (binary_round_aux_nonneg mz ez lz Hmz) as H.
    change prec with 53. change emax with 1024.
    destruct (binary_round_aux 53 1024 false mz ez lz)
      as [s|[]| |[] m' e']; try contradiction; eauto.
Qed.

Lemma seconds_nonneg (frames : nat) : (0 <=? seconds frames)%float = true.
Proof.
  unfold seconds. eapply div_nonneg; [apply of_int_nonneg; lia|].
  vm_compute. reflexivity.
Qed.

Lemma seconds_4096 : seconds (Z.to_nat 4096) = 0.256%float.
Proof. vm_compute. reflexivity. Qed.

(** Numbers that are not NaN are ordered one way or the other. *)
Lemma ltb_false_leb (x y : float) :
  is_nan x = false -> is_nan y = false ->
  (x <? y)%float = false -> (y <=? x)%float = true.
Proof.
  intros Hnx Hny Hlt.
  destruct (float_cases x) as [-> | [-> | [-> | Hfx]]].
  - vm_compute in Hnx. discriminate Hnx.
  - apply leb_infinity_right. exact Hny.
  - destruct (float_cases y) as [-> | [-> | [-> | Hfy]]].
    + vm_compute in Hny. discriminate Hny.
    + vm_compute in Hlt. discriminate Hlt.
    + reflexivity.
    + rewrite ltb_spec in Hlt.
      change (Prim2SF neg_infinity) with (S754_infinity true) in Hlt.
      destruct (finite_cases y Hfy) as [[s E] | (s & m & e & E)];
        rewrite E in Hlt; discriminate Hlt.
  - destruct (float_cases y) as [-> | [-> | [-> | Hfy]]].
    + vm_compute in Hny. discriminate Hny.
    + rewrite ltb_spec in Hlt.
      change (Prim2SF infinity) with (S754_infinity false) in Hlt.
      destruct (finite_cases x Hfx) as [[s E] | (s & m & e & E)];
        rewrite E in Hlt; discriminate Hlt.
    + apply leb_neg_infinity_left. exact Hnx.
    + apply leb_value; [exact Hfy | exact Hfx |].
      destruct (Qlt_le_dec (value x) (value y)) as [Hv | Hv]; [|exact Hv].
      apply (ltb_value x y Hfx Hfy) in Hv. congruence.
Qed.

(** *** One scheduling step and the clock *)

(** What [processChunk] does to [nextPlayTime] when it starts a buffer:
    the new value is not before the end of the buffer, as the scheduler
    computes it, nor before its start. *)
Lemma advance_then_clamp (when d currentTime : float) :
  (0 <=? when)%float = true -> (0 <=? d)%float = true ->
  let next :=
    if (when + d <? currentTime)%float then currentTime else (when + d)%float in
  (0 <=? next)%float = true
  /\ (when + d <=? next)%float = true
  /\ (when <=? next)%float = true.
Proof.
  intros Hw Hd next.
  destruct (add_nonneg_le when d Hw Hd) as [Hsum Hle].
  assert (Hend : (when + d <=? next)%float = true).
  { subst next. destruct (when + d <? currentTime)%float eqn:Hlate.
    - apply ltb_leb. exact Hlate.
    - apply leb_refl. apply (leb_not_nan _ _ Hsum). }
  split; [exact (leb_trans _ _ _ Hsum Hend)|].
  split; [exact Hend | exact (leb_trans _ _ _ Hle Hend)].
Qed.

(** A first frame that wakes the idle scheduler is committed at once. *)
Lemma handlePCMData_wake_schedule (currentTime : num) (arrayBuffer : list byte)
    (st : State) :
  Nat.even (length arrayBuffer) = true -> arrayBuffer <> [] ->
  isPlaybackActive st = false -> audioContext st = true -> audioQueue st = [] ->
  let frames := Nat.div2 (length arrayBuffer) in
  let st' := handlePCMData true currentTime arrayBuffer st in
  started st' = started st ++ [(nextPlayTime st, frames)]
  /\ nextPlayTime st'
     = (if (nextPlayTime st + seconds frames <? currentTime)%float
        then currentTime
        else (nextPlayTime st + seconds frames)%float)
  /\ audioQueue st' = []
  /\ timeouts st' = timeouts st ++ [(seconds frames * 1000 / 2)%float]
  /\ audioContext st' = true
  /\ isPlaybackActive st' = true.
Proof.
  intros Heven Hne Hidle Hctx Hqueue frames st'. subst st'.
  set (frame := pcm16ToFloat (int16_elements arrayBuffer)).
  assert (Hlen : length frame = frames).
  { subst frame. rewrite length_pcm16ToFloat. apply length_int16_elements. }
  assert (Hframe : frame <> []).
  { intros Hnil. rewrite Hnil in Hlen. subst frames.
    destruct arrayBuffer as [|x [|y l]]; [contradiction|discriminate..]. }
  rewrite (handlePCMData_wake _ _ _ st (new_Int16Array_even _ Heven) Hidle Hctx).
  fold frame.
  match goal with
  | |- context [processChunk true currentTime ?s] => set (woken := s)
  end.
  destruct (processChunk_schedule currentTime frame [] woken)
    as (Hstarted & Hnext & Hrest & Htimers & Hctx' & Hactive & _).
  - subst woken. state_simpl. exact Hctx.
  - subst woken. state_simpl. rewrite Hqueue. reflexivity.
  - exact Hframe.
  - rewrite Hstarted, Hnext, Hrest, Htimers, Hctx', Hactive.
    unfold chunkDuration. rewrite Hlen. subst woken. state_simpl. repeat split.
Qed.

(** *** The order of the start times *)

Lemma fits_snoc (log : list (num * nat)) (limit when limit' : num)
    (frames : nat) :
  fits log limit -> (limit <=? when)%float = true ->
  (when + seconds frames <=? limit')%float = true ->
  fits (log ++ [(when, frames)]) limit'.
Proof.
  intros Hfits Hwhen Hend. induction log as [|[w n] rest IH].
  - cbn. auto.
  - cbn [fits app] in *. destruct Hfits as [Hhead Hrest].
    split; [|apply IH; exact Hrest].
    destruct rest as [|[w' n'] rest']; cbn [app];
      [exact (leb_trans _ _ _ Hhead Hwhen) | exact Hhead].
Qed.

Lemma fits_lookup (log : list (num * nat)) (limit : num) :
  fits log limit ->
  forall (i : nat) (s s' : num) (n n' : nat),
  log !! i = Some (s, n) -> log !! S i = Some (s', n') ->
  (s + seconds n <=? s')%float = true.
Proof.
  induction log as [|[w m] rest IH]; intros Hfits i s s' n n' Hi Hnext;
    [discriminate|].
  destruct Hfits as [Hhead Hrest]. destruct i as [|i].
  - injection Hi as -> ->. destruct rest as [|[w' m'] rest']; [discriminate|].
    injection Hnext as -> ->. exact Hhead.
  - exact (IH Hrest i s s' n n' Hi Hnext).
Qed.

(** The invariant of a session: [nextPlayTime] and the start times are
    numbers that are not negative, and the buffers started so far follow
    one another. *)
Lemma processChunk_fits (playing : bool) (currentTime : num) (st : State) :
  (0 <=? nextPlayTime st)%float = true
  /\ Forall (fun entry => (0 <=? fst entry)%float = true) (started st)
  /\ fits (started st) (nextPlayTime st) ->
  let st' := processChunk playing currentTime st in
  (0 <=? nextPlayTime st')%float = true
  /\ Forall (fun entry => (0 <=? fst entry)%float = true) (started st')
  /\ fits (started st') (nextPlayTime st').
Proof.
  intros (Hnext & Hlog & Hfits) st'. subst st'. unfold processChunk.
  destruct (negb playing || negb (audioContext st)
            || (length (audioQueue st) =? 0)%nat); [state_simpl; auto|].
  destruct (audioQueue st) as [|audioData rest]; [state_simpl; auto|].
  destruct (length audioData =? 0)%nat; [state_simpl; auto|].
  state_simpl. unfold chunkDuration.
  destruct (advance_then_clamp (nextPlayTime st) (seconds (length audioData))
              currentTime Hnext (seconds_nonneg _)) as (Hn' & Hend & _).
  cbv zeta in Hn', Hend.
  destruct (_ <? _)%float; state_simpl.
  all: split; [exact Hn'|]; split;
    [apply Forall_app; split; [exact Hlog | constructor; [exact Hnext | constructor]]
    |apply (fits_snoc _ _ _ _ _ Hfits);
       [apply leb_refl; apply (leb_not_nan _ _ Hnext) | exact Hend]].
Qed.

Lemma step_fits (st : State) (ev : Event) :
  (0 <=? nextPlayTime st)%float = true
  /\ Forall (fun entry => (0 <=? fst entry)%float = true) (started st)
  /\ fits (started st) (nextPlayTime st) ->
  (0 <=? nextPlayTime (step st ev))%float = true
  /\ Forall (fun entry => (0 <=? fst entry)%float = true) (started (step st ev))
  /\ fits (started (step st ev)) (nextPlayTime (step st ev)).
Proof.
  intros Hinv. destruct ev as [playing currentTime [arrayBuffer|] | currentTime];
    cbn [step onmessage];
    [| exact Hinv | apply (processChunk_fits true currentTime st Hinv)].
  destruct playing; [|exact Hinv].
  destruct (new_Int16Array arrayBuffer) as [pcmSamples|] eqn:Hpcm.
  - destruct (isPlaybackActive st) eqn:Hactive;
      [|destruct (audioContext st) eqn:Hctx].
    + rewrite (handlePCMData_enqueue _ _ _ st Hpcm) by (left; exact Hactive).
      exact Hinv.
    + rewrite (handlePCMData_wake _ _ _ st Hpcm Hactive Hctx).
      apply processChunk_fits. exact Hinv.
    + rewrite (handlePCMData_enqueue _ _ _ st Hpcm) by (right; exact Hctx).
      exact Hinv.
  - unfold handlePCMData. cbn [negb]. rewrite Hpcm. exact Hinv.
Qed.

Lemma run_fits (evs : list Event) :
  forall st : State,
  (0 <=? nextPlayTime st)%float = true
  /\ Forall (fun entry => (0 <=? fst entry)%float = true) (started st)
  /\ fits (started st) (nextPlayTime st) ->
  (0 <=? nextPlayTime (run st evs))%float = true
  /\ Forall (fun entry => (0 <=? fst entry)%float = true) (started (run st evs))
  /\ fits (started (run st evs)) (nextPlayTime (run st evs)).
Proof.
  induction evs as [|ev evs IH]; intros st Hinv; [exact Hinv|].
  rewrite run_cons. apply IH, step_fits, Hinv.
Qed.

(** Three frames of 4096 samples arriving back-to-back at clock reading 0,
    then the timers of the first and of the second step, which fire at
    clock readings [t2] and [t3]. *)
Lemma three_frames (p1 p2 p3 : list byte) (t2 t3 : num) :
  Z.of_nat (length p1) = 8192 -> Z.of_nat (length p2) = 8192 ->
  Z.of_nat (length p3) = 8192 ->
  let evs :=
    [Message true 0 (Binary p1); Message true 0 (Binary p2);
     Message true 0 (Binary p3); Timeout t2; Timeout t3] in
  let st := run (session 0) evs in
  timers_fire_once (session 0) 0 evs
  /\ started st
     = [(0%float, Z.to_nat 4096); (0.256%float, Z.to_nat 4096);
        (if (0.512 <? t2)%float then t2 else 0.512%float, Z.to_nat 4096)]
  /\ timeouts st = [128%float; 128%float; 128%float].
Proof.
  intros H1 H2 H3 evs st. subst st evs.
  assert (Hparity : forall p : list byte, Z.of_nat (length p) = 8192 ->
            Nat.even (length p) = true /\ p <> []
            /\ Nat.div2 (length p) = Z.to_nat 4096).
  { intros p Hp. repeat split.
    - apply Nat.even_spec. exists (Z.to_nat 4096). lia.
    - intros ->. discriminate.
    - replace (length p) with (2 * Z.to_nat 4096)%nat by lia.
      apply Nat.div2_double. }
  destruct (Hparity p1 H1) as (He1 & Hn1 & Hf1).
  destruct (Hparity p2 H2) as (He2 & Hn2 & Hf2).
  destruct (Hparity p3 H3) as (He3 & Hn3 & Hf3).
  set (f2 := pcm16ToFloat (int16_elements p2)).
  set (f3 := pcm16ToFloat (int16_elements p3)).
  assert (Hlen2 : length f2 = Z.to_nat 4096)
    by (subst f2; rewrite length_pcm16ToFloat, length_int16_elements; exact Hf2).
  assert (Hlen3 : length f3 = Z.to_nat 4096)
    by (subst f3; rewrite length_pcm16ToFloat, length_int16_elements; exact Hf3).
  assert (Hne2 : f2 <> []) by (intros Hnil; rewrite Hnil in Hlen2; discriminate).
  assert (Hne3 : f3 <> []) by (intros Hnil; rewrite Hnil in Hlen3; discriminate).
  cbn [timers_fire_once]. rewrite !run_cons. cbn [run fold_left step onmessage].
  (* the first frame wakes the scheduler *)
  destruct (handlePCMData_wake_schedule 0 p1 (session 0) He1 Hn1
              eq_refl eq_refl eq_refl)
    as (Hs1 & Ht1 & Hq1 & Hm1 & Hc1 & Ha1).
  cbv zeta in Hs1, Ht1, Hm1. rewrite Hf1 in Hs1, Ht1, Hm1.
  rewrite seconds_4096 in Ht1, Hm1.
  change (started (session 0)) with (@nil (num * nat)) in Hs1.
  change (timeouts (session 0)) with (@nil num) in Hm1.
  change (nextPlayTime (session 0)) with 0%float in Hs1, Ht1.
  change (if (0 + 0.256 <? 0)%float then 0%float else (0 + 0.256)%float)
    with 0.256%float in Ht1.
  change (0.256 * 1000 / 2)%float with 128%float in Hm1.
  cbn [app] in Hs1, Hm1.
  set (st1 := handlePCMData true 0 p1 (session 0)) in *. clearbody st1.
  (* the next two are queued *)
  rewrite (handlePCMData_enqueue 0 p2 _ st1 (new_Int16Array_even _ He2))
    by (left; exact Ha1).
  fold f2.
  set (st2 := set_audioQueue _ _).
  rewrite (handlePCMData_enqueue 0 p3 _ st2 (new_Int16Array_even _ He3))
    by (left; exact Ha1).
  fold f3. subst st2. state_simpl. rewrite Hq1. cbn [app].
  (* the two timers *)
  set (st3 := set_audioQueue _ _).
  assert (Hm3 : timeouts st3 = [128%float]) by (subst st3; state_simpl; exact Hm1).
  destruct (processChunk_schedule t2 f2 [f3] st3)
    as (Hs4 & Ht4 & Hq4 & Hm4 & Hc4 & _);
    [subst st3; state_simpl; exact Hc1 | reflexivity | exact Hne2 |].
  set (st4 := processChunk true t2 st3) in *.
  destruct (processChunk_schedule t3 f3 [] st4 Hc4 Hq4 Hne3)
    as (Hs5 & _ & _ & Hm5 & _).
  unfold chunkDuration in *.
  rewrite Hlen2, seconds_4096 in Ht4, Hm4. rewrite Hlen3, seconds_4096 in Hm5.
  change (0.256 * 1000 / 2)%float with 128%float in Hm4, Hm5.
  rewrite Hm3 in Hm4. rewrite Hm4 in Hm5. cbn [app] in Hm4, Hm5.
  assert (Hs3 : started st3 = [(0%float, Z.to_nat 4096)])
    by (subst st3; state_simpl; exact Hs1).
  assert (Ht3 : nextPlayTime st3 = 0.256%float)
    by (subst st3; state_simpl; exact Ht1).
  rewrite Hs3, Ht3, Hlen2 in Hs4. rewrite Ht3 in Ht4.
  change (0.256 + 0.256)%float with 0.512%float in Ht4.
  rewrite Hs4, Ht4, Hlen3 in Hs5. cbn [app] in Hs4, Hs5.
  split; [|split; [exact Hs5 | exact Hm5]].
  rewrite Hm1, Hm4. cbn [length]. repeat split; lia.
Qed.

(** C6 (as amended). In every run of a playback session that starts at
    a clock reading, the start times computed for consecutive frames (the
    times given to [source.start]) satisfy start(F(i+1)) >= start(Fi) + di,
    the sum being the binary64 sum that the scheduler computes, and they
    never decrease. In particular three frames of 4096 samples that
    arrive back-to-back at clock reading 0, and are scheduled by the
    timers of the steps before them, are started at 0, 0.256 and 0.512
    seconds, except that the third start is the clock reading [t2] of the
    step that scheduled the second frame when that reading is past 0.512;
    the clock reading of a frame's own step does not move its start. *)
Theorem start_times_ordered :
  (forall (t0 : num) (evs : list Event) (i : nat) (s s' : num) (n n' : nat),
     (0 <=? t0)%float = true ->
     let st := run (session t0) evs in
     started st !! i = Some (s, n) -> started st !! S i = Some (s', n') ->
     (s + seconds n <=? s')%float = true /\ (s <=? s')%float = true)
  /\ (forall (p1 p2 p3 : list byte) (t2 t3 : num),
        Z.of_nat (length p1) = 8192 -> Z.of_nat (length p2) = 8192 ->
        Z.of_nat (length p3) = 8192 ->
        let evs :=
          [Message true 0 (Binary p1); Message true 0 (Binary p2);
           Message true 0 (Binary p3); Timeout t2; Timeout t3] in
        let st := run (session 0) evs in
        timers_fire_once (session 0) 0 evs
        /\ started st
           = [(0%float, Z.to_nat 4096); (0.256%float, Z.to_nat 4096);
              (if (0.512 <? t2)%float then t2 else 0.512%float,
               Z.to_nat 4096)]
        /\ ((0.512 <? t2)%float = false ->
            map fst (started st) = [0%float; 0.256%float; 0.512%float])).
Proof.
  split.
  - intros t0 evs i s s' n n' Ht0 st Hi Hnext.
    destruct (run_fits evs (session t0)) as (_ & Hlog & Hfits).
    { split; [exact Ht0|]. split; [constructor | exact I]. }
    fold st in Hlog, Hfits.
    pose proof (fits_lookup _ _ Hfits i s s' n n' Hi Hnext) as Hgap.
    split; [exact Hgap|].
    assert (Hs : (0 <=? s)%float = true).
    { rewrite Forall_lookup in Hlog. exact (Hlog i (s, n) Hi). }
    destruct (add_nonneg_le s (seconds n) Hs (seconds_nonneg n)) as [_ Hle].
    exact (leb_trans _ _ _ Hle Hgap).
  - intros p1 p2 p3 t2 t3 H1 H2 H3 evs st.
    destruct (three_frames p1 p2 p3 t2 t3 H1 H2 H3) as (Hwf & Hlog & _).
    fold evs in Hwf. fold evs st in Hlog.
    split; [exact Hwf|]. split; [exact Hlog|].
    intros Hearly. rewrite Hlog, Hearly. reflexivity.
Qed.

Lemma start_times_ordered_witness :
  let p := replicate (Z.to_nat 8192) x00 in
  let evs :=
    [Message true 0 (Binary p); Message true 0 (Binary p);
     Message true 0 (Binary p); Timeout 0.128; Timeout 0.256] in
  let st := run (session 0) evs in
  ((0 <=? 0)%float = true
   /\ started st !! 0%nat = Some (0%float, Z.to_nat 4096)
   /\ started st !! 1%nat = Some (0.256%float, Z.to_nat 4096)
   /\ (0 + seconds (Z.to_nat 4096) <=? 0.256)%float = true
   /\ (0 <=? 0.256)%float = true)
  /\ (Z.of_nat (length p) = 8192
      /\ (0.512 <? 0.128)%float = false
      /\ map fst (started st) = [0%float; 0.256%float; 0.512%float]).
Proof.
  intros p evs st.
  assert (H0 : started st !! 0%nat = Some (0%float, Z.to_nat 4096))
    by (vm_compute; reflexivity).
  assert (H1 : started st !! 1%nat = Some (0.256%float, Z.to_nat 4096))
    by (vm_compute; reflexivity).
  assert (Hp : Z.of_nat (length p) = 8192) by (vm_compute; reflexivity).
  assert (Ht : (0.512 <? 0.128)%float = false) by reflexivity.
  assert (Hc : (0 <=? 0)%float = true) by reflexivity.
  split.
  - split; [exact Hc|]. split; [exact H0|]. split; [exact H1|].
    exact (proj1 start_times_ordered 0%float evs 0%nat _ _ _ _ Hc H0 H1).
  - split; [exact Hp|]. split; [exact Ht|].
    exact (proj2 (proj2 (proj2 start_times_ordered p p p 0.128%float
                           0.256%float Hp Hp Hp)) Ht).
Defined.

(** C6 as stated fails, in two ways. A start time that the clock has
    passed is not clamped forward: the three frames arrive at clock
    reading 0 and the steps that schedule the second and the third run at
    clock readings 1 and 2, past 0.256 and 0.512, and the start times
    computed are 0, 0.256 and 1, the second and the third before the
    clock readings of their own steps. And the sum in
    start(F(i+1)) >= start(Fi) + di is the sum that the scheduler
    computes: in a session that starts at clock reading 0.1 the second
    frame starts at 0.356, the binary64 sum of 0.1 and 0.256, which as a
    real number is below the sum of the two. *)
Lemma start_times_as_stated_fail :
  let p := replicate (Z.to_nat 8192) x00 in
  (let st :=
     run (session 0)
       [Message true 0 (Binary p); Message true 0 (Binary p);
        Message true 0 (Binary p); Timeout 1; Timeout 2] in
   map fst (started st) = [0%float; 0.256%float; 1%float]
   /\ (0.256 <? 1)%float = true
   /\ (1 <? 2)%float = true)
  /\ (let st :=
        run (session 0.1)
          [Message true 0.1 (Binary p); Message true 0.1 (Binary p);
           Timeout 0.2] in
      started st = [(0.1%float, Z.to_nat 4096); (0.356%float, Z.to_nat 4096)]
      /\ seconds (Z.to_nat 4096) = 0.256%float
      /\ (value 0.356 < value 0.1 + value 0.256)%Q).
Proof. vm_compute. repeat split. Qed.

(** *** The commit and the clamp *)

(** C1 (as amended). For every frame that the scheduling step takes off
    the queue: the frame is given to [source.start] at [nextPlayTime] as
    it stands, so that it is heard from max(nextPlayTime, currentTime) on
    (the platform starts at once a buffer whose time has passed);
    [nextPlayTime] is then advanced by the duration of the frame and, if
    it is still earlier than the clock reading, set to the clock reading.
    Consequently [nextPlayTime] is not earlier than the clock reading when
    the step ends, nor than the end of the frame as the scheduler
    computes it. *)
Theorem frame_committed_at_nextPlayTime (currentTime : num)
    (audioData : list num) (rest : list (list num)) (st : State) :
  audioContext st = true -> audioQueue st = audioData :: rest ->
  audioData <> [] ->
  (0 <=? nextPlayTime st)%float = true -> is_nan currentTime = false ->
  let when := nextPlayTime st in
  let st' := processChunk true currentTime st in
  let heard := audible_start when currentTime in
  started st' = started st ++ [(when, length audioData)]
  /\ (when <=? heard)%float = true
  /\ (currentTime <=? heard)%float = true
  /\ (heard = when \/ heard = currentTime)
  /\ nextPlayTime st'
     = (if (when + chunkDuration audioData <? currentTime)%float
        then currentTime
        else (when + chunkDuration audioData)%float)
  /\ (currentTime <=? nextPlayTime st')%float = true
  /\ (when + chunkDuration audioData <=? nextPlayTime st')%float = true.
Proof.
  intros Hctx Hqueue Hne Hwhen Hclock when st' heard.
  destruct (processChunk_schedule currentTime audioData rest st Hctx Hqueue Hne)
    as (Hstarted & Hnext & _).
  fold st' when in Hstarted, Hnext.
  destruct (leb_not_nan _ _ Hwhen) as [_ Hnw]. fold when in Hnw.
  split; [exact Hstarted|].
  assert (Hheard : (when <=? heard)%float = true
                   /\ (currentTime <=? heard)%float = true
                   /\ (heard = when \/ heard = currentTime)).
  { subst heard. unfold audible_start.
    destruct (when <? currentTime)%float eqn:Hlate.
    - split; [apply ltb_leb; exact Hlate|].
      split; [apply leb_refl; exact Hclock | right; reflexivity].
    - split; [apply leb_refl; exact Hnw|].
      split; [apply ltb_false_leb; assumption | left; reflexivity]. }
  destruct Hheard as (Hh1 & Hh2 & Hh3).
  split; [exact Hh1|]. split; [exact Hh2|]. split; [exact Hh3|].
  split; [exact Hnext|]. rewrite Hnext.
  destruct (advance_then_clamp when (chunkDuration audioData) currentTime
              Hwhen (seconds_nonneg _)) as (Hsum & Hend & _).
  cbv zeta in Hsum, Hend. split; [|exact Hend].
  destruct (when + chunkDuration audioData <? currentTime)%float eqn:Hlate.
  - apply leb_refl. exact Hclock.
  - apply ltb_false_leb; [| exact Hclock | exact Hlate].
    apply (leb_not_nan _ _ Hsum).
Qed.

Lemma frame_committed_at_nextPlayTime_witness :
  let audioData := [0.5%float; 0.25%float] in
  let st := set_audioQueue [audioData] (session 0) in
  let when := nextPlayTime st in
  let st' := processChunk true 1 st in
  let heard := audible_start when 1 in
  (audioContext st = true /\ audioQueue st = [audioData] /\ audioData <> []
   /\ (0 <=? nextPlayTime st)%float = true /\ is_nan 1 = false)
  /\ started st' = started st ++ [(when, length audioData)]
  /\ (when <=? heard)%float = true
  /\ (1 <=? heard)%float = true
  /\ (heard = when \/ heard = 1%float)
  /\ nextPlayTime st'
     = (if (when + chunkDuration audioData <? 1)%float
        then 1%float
        else (when + chunkDuration audioData)%float)
  /\ (1 <=? nextPlayTime st')%float = true
  /\ (when + chunkDuration audioData <=? nextPlayTime st')%float = true.
Proof.
  intros audioData st when st' heard.
  assert (Hne : audioData <> []) by discriminate.
  split; [repeat split; exact Hne|].
  exact (frame_committed_at_nextPlayTime 1 audioData [] st
           eq_refl eq_refl Hne eq_refl eq_refl).
Defined.

(** C1 as stated fails: the clamp comes after the commit. Playback has
    started at clock reading 0 and the scheduling step runs at clock
    reading 1 on a first frame of 4096 samples, in the state in which
    [handlePCMData] calls it. The frame is committed while
    [nextPlayTime], 0, is earlier than the clock reading; it is heard from
    max(0, 1) = 1 on, for 0.256 seconds; and when the step ends
    [nextPlayTime] is 1: neither 0 + 0.256 nor 1 + 0.256. This is also
    the state that results when the frame comes through the handler of a
    playing component. *)
Lemma commit_precedes_the_clamp :
  let p := replicate (Z.to_nat 8192) x00 in
  let frame := pcm16ToFloat (int16_elements p) in
  let st :=
    set_playbackStatus "Playing audio"
      (set_isPlaybackActive true
         (set_audioQueue [frame]
            (set_volumeLevel (calculateVolume (Float32Array frame))
               (session 0)))) in
  let st' := processChunk true 1 st in
  (started st' = [(0%float, Z.to_nat 4096)]
   /\ (nextPlayTime st <? 1)%float = true
   /\ audible_start (nextPlayTime st) 1 = 1%float
   /\ (audible_start (nextPlayTime st) 1 + chunkDuration frame)%float
      = 1.256%float
   /\ (nextPlayTime st + chunkDuration frame)%float = 0.256%float
   /\ nextPlayTime st' = 1%float)
  /\ onmessage true 1 (Binary p) (session 0) = st'.
Proof. vm_compute. repeat split. Qed.

(* --------------------------------------------------------------------- *)
(** ** The volume meters *)

Lemma zero_div_of_int (n : Z) :
  0 < n < 2 ^ 53 -> (0 / of_int n)%float = 0%float.
Proof.
  intros Hn. destruct (Prim2SF_of_int_pos n Hn) as (m & e & E).
  apply Prim2SF_inj. rewrite div_spec, E. reflexivity.
Qed.

Lemma silent_sum (maxValue : float) (n : nat) :
  (0 / maxValue)%float = 0%float ->
  fold_left
    (fun sum sample =>
       let normalizedSample := (sample / maxValue)%float in
       (sum + normalizedSample * normalizedSample)%float)
    (replicate n 0%float) 0%float = 0%float.
Proof.
  intros Hdiv. induction n as [|n IH]; [reflexivity|].
  cbn [replicate fold_left]. cbv zeta. rewrite Hdiv.
  change (0 + 0 * 0)%float with 0%float. exact IH.
Qed.

(** X15. The meter reads 0 on silence: for a frame of n zero samples,
    0 < n < 2^53, [calculateVolume] returns 0 (and not the NaN of the
    empty frame), for an [Int16Array] and for the [Float32Array] that
    [pcm16ToFloat] makes of it. *)
Theorem silence_reads_zero (n : nat) :
  0 < Z.of_nat n < 2 ^ 53 ->
  calculateVolume (Int16Array (replicate n 0)) = 0%float
  /\ calculateVolume (Float32Array (pcm16ToFloat (replicate n 0))) = 0%float
  /\ calculateVolume (Float32Array (pcm16ToFloat [])) = nan.
Proof.
  intros Hn.
  assert (Hdecode : pcm16ToFloat (replicate n 0) = replicate n 0%float).
  { unfold pcm16ToFloat. rewrite fmap_replicate. reflexivity. }
  assert (Hint : map of_int (replicate n 0) = replicate n 0%float).
  { rewrite fmap_replicate. reflexivity. }
  unfold calculateVolume. cbv zeta. rewrite Hdecode, Hint, !length_replicate.
  rewrite !silent_sum by reflexivity.
  rewrite (zero_div_of_int _ Hn). repeat split; reflexivity.
Qed.

Lemma silence_reads_zero_witness :
  0 < Z.of_nat 4096 < 2 ^ 53
  /\ calculateVolume (Int16Array (replicate 4096 0)) = 0%float
  /\ calculateVolume (Float32Array (pcm16ToFloat (replicate 4096 0))) = 0%float
  /\ calculateVolume (Float32Array (pcm16ToFloat [])) = nan.
Proof.
  assert (H : 0 < Z.of_nat 4096 < 2 ^ 53) by (vm_compute; split; reflexivity).
  split; [exact H | apply (silence_reads_zero 4096 H)].
Defined.

Lemma abs_of_int (s : Z) :
  - 2 ^ 53 < s < 2 ^ 53 -> abs (of_int s) = of_int (Z.abs s).
Proof.
  intros Hs. destruct s as [|p|p]; [reflexivity | |]; apply Prim2SF_inj;
    destruct (Prim2SF_of_pos p ltac:(lia)) as (m & e & E & _);
    rewrite abs_spec.
  - change (of_int (Z.abs (Zpos p))) with (of_int (Zpos p)).
    unfold of_int. rewrite E. reflexivity.
  - change (of_int (Z.abs (Zneg p))) with (of_int (Zpos p)).
    unfold of_int. rewrite FloatAxioms.opp_spec, E. reflexivity.
Qed.

Lemma Math_max_of_int (a b : Z) :
  0 <= a < 2 ^ 53 -> 0 <= b < 2 ^ 53 ->
  Math_max (of_int a) (of_int b) = of_int (Z.max a b).
Proof.
  intros Ha Hb.
  destruct (of_int_exact a ltac:(lia)) as [Hfa Hva].
  destruct (of_int_exact b ltac:(lia)) as [Hfb Hvb].
  unfold Math_max. rewrite (is_nan_finite _ Hfa), (is_nan_finite _ Hfb).
  cbn [orb].
  destruct (of_int a <? of_int b)%float eqn:Hab.
  { apply (ltb_value _ _ Hfa Hfb) in Hab. rewrite Hva, Hvb, <- Zlt_Qlt in Hab.
    rewrite Z.max_r by lia. reflexivity. }
  destruct (of_int b <? of_int a)%float eqn:Hba.
  { apply (ltb_value _ _ Hfb Hfa) in Hba. rewrite Hva, Hvb, <- Zlt_Qlt in Hba.
    rewrite Z.max_l by lia. reflexivity. }
  assert (Heq : a = b).
  { destruct (Z.lt_trichotomy a b) as [H | [H | H]]; [|exact H|].
    - assert (Hlt : (of_int a <? of_int b)%float = true).
      { apply (ltb_value _ _ Hfa Hfb). rewrite Hva, Hvb, <- Zlt_Qlt. exact H. }
      congruence.
    - assert (Hlt : (of_int b <? of_int a)%float = true).
      { apply (ltb_value _ _ Hfb Hfa). rewrite Hva, Hvb, <- Zlt_Qlt. exact H. }
      congruence. }
  subst b. rewrite Z.max_id. destruct (get_sign (of_int a)); reflexivity.
Qed.

Lemma peak_fold (pcmSamples : list Z) :
  Forall (fun s => -32768 <= s <= 32767) pcmSamples ->
  forall m : Z, 0 <= m <= 32768 ->
  fold_left (fun maxAmplitude sample => Math_max maxAmplitude (abs sample))
    (map of_int pcmSamples) (of_int m)
  = of_int (fold_left (fun m s => Z.max m (Z.abs s)) pcmSamples m)
  /\ 0 <= fold_left (fun m s => Z.max m (Z.abs s)) pcmSamples m <= 32768
  /\ (fold_left (fun m s => Z.max m (Z.abs s)) pcmSamples m <= 32767
      <-> m <= 32767 /\ Forall (fun s => s <> -32768) pcmSamples).
Proof.
  induction 1 as [|s rest Hs _ IH]; intros m Hm; cbn [map fold_left].
  - split; [reflexivity|]. split; [lia|]. split; [auto | tauto].
  - rewrite abs_of_int, Math_max_of_int by lia.
    destruct (IH (Z.max m (Z.abs s)) ltac:(lia)) as (Hfold & Hrange & Hiff).
    split; [exact Hfold|]. split; [exact Hrange|].
    rewrite Hiff, Forall_cons. split.
    + intros [Hmax Hrest]. repeat split; [lia | lia | exact Hrest].
    + intros [Hm' [Hne Hrest]]. split; [lia | exact Hrest].
Qed.

(** Every magnitude from 0 to 32768 is checked by computation. *)
Lemma peak_check_all : forall_from peak_check (Z.to_nat 32769) 0 = true.
Proof. vm_compute. reflexivity. Qed.

(** X16. The peak meter on 16-bit samples: [calculatePeakVolume] returns
    the percentage 100 M / 32767 of the largest magnitude M among the
    samples (0 for no sample), computed in binary64 to within 10^-12. It
    is a finite number from 0 to 100, unless the array holds -32768: then
    it is above 100. *)
Theorem peak_volume_int16 (pcmSamples : list Z) :
  Forall (fun s => -32768 <= s <= 32767) pcmSamples ->
  let peak := calculatePeakVolume (Int16Array pcmSamples) in
  peak = (of_int (max_abs pcmSamples) / 32767 * 100)%float
  /\ is_finite peak = true
  /\ (0 <= value peak)%Q
  /\ ((value peak <= 100)%Q <-> Forall (fun s => s <> -32768) pcmSamples)
  /\ (Qabs (value peak - inject_Z (100 * max_abs pcmSamples) / 32767)
      <= 1 # 1000000000000)%Q.
Proof.
  intros Hrange peak.
  destruct (peak_fold pcmSamples Hrange 0 ltac:(lia)) as (Hfold & HM & Hiff).
  fold (max_abs pcmSamples) in Hfold, HM, Hiff.
  assert (Hpeak : peak = (of_int (max_abs pcmSamples) / 32767 * 100)%float).
  { subst peak. unfold calculatePeakVolume. cbv zeta.
    change 0%float with (of_int 0) at 1. rewrite Hfold. reflexivity. }
  split; [exact Hpeak|].
  pose proof (forall_from_spec peak_check _ _ peak_check_all
                (max_abs pcmSamples) ltac:(lia)) as Hc.
  unfold peak_check in Hc. cbv zeta in Hc. rewrite <- Hpeak in Hc.
  apply andb_prop in Hc as [Hc Hclose]. apply andb_prop in Hc as [Hc Hle].
  apply andb_prop in Hc as [Hfin Hge].
  split; [exact Hfin|]. split; [apply Qle_bool_iff; exact Hge|]. split.
  - apply Bool.eqb_prop in Hle. rewrite <- Qle_bool_iff, Hle, Z.leb_le, Hiff.
    split; [tauto | intros H; split; [lia | exact H]].
  - apply Qle_bool_iff. exact Hclose.
Qed.

Lemma peak_volume_int16_witness :
  let pcmSamples := [12; -32768; 5] in
  Forall (fun s => -32768 <= s <= 32767) pcmSamples
  /\ let peak := calculatePeakVolume (Int16Array pcmSamples) in
     peak = (of_int (max_abs pcmSamples) / 32767 * 100)%float
     /\ is_finite peak = true
     /\ (0 <= value peak)%Q
     /\ ((value peak <= 100)%Q <-> Forall (fun s => s <> -32768) pcmSamples)
     /\ (Qabs (value peak - inject_Z (100 * max_abs pcmSamples) / 32767)
         <= 1 # 1000000000000)%Q.
Proof.
  intros pcmSamples.
  assert (H : Forall (fun s => -32768 <= s <= 32767) pcmSamples)
    by (repeat constructor; lia).
  split; [exact H | apply (peak_volume_int16 pcmSamples H)].
Defined.

(* --------------------------------------------------------------------- *)
(** ** The name of a saved file *)

Import SaveToFile.

Example suggestedName_samples :
  suggestedName "audio/webm" "3f2a.webm" = "3f2a.webm"%string
  /\ suggestedName "audio/ogg; codecs=opus" "3f2a.webm" = "3f2a.ogg"%string
  /\ suggestedName "audio/webm" "take.1.wav" = "take.1.webm"%string
  /\ suggestedName "audio/webm" "notes" = "notes.webm"%string
  /\ suggestedName "audio/webm" "a.b c" = "a.b c.webm"%string
  /\ suggestedName "audio/webm" ".webm" = ".webm"%string.
Proof. repeat split. Qed.

(** [String.append] on a string whose head is known. *)
Ltac append_step :=
  repeat match goal with
  | |- context [String.append EmptyString ?b] =>
      change (String.append EmptyString b) with b
  | |- context [String.append (String ?c ?a) ?b] =>
      change (String.append (String c a) b) with (String c (String.append a b))
  end.

Lemma endsWith_append (a b : string) : endsWith (String.append a b) b = true.
Proof.
  induction a as [|c a IH]; append_step; cbn [endsWith].
  - destruct b; cbn [endsWith]; rewrite String.eqb_refl; reflexivity.
  - rewrite IH. apply orb_true_r.
Qed.

Lemma all_word_append (a b : string) :
  all_word (String.append a b) = all_word a && all_word b.
Proof.
  induction a as [|c a IH]; append_step; cbn [all_word]; [reflexivity|].
  rewrite IH. apply andb_assoc.
Qed.

Lemma is_word_dot : is_word "." = false.
Proof. reflexivity. Qed.

(** The extension that the expression takes out is the last one. *)
Lemma strip_extension_append (base e : string) :
  e <> EmptyString -> all_word e = true ->
  strip_extension (String.append base (String "." e)) = base.
Proof.
  intros Hne Hword. induction base as [|c base IH]; append_step; cbn [strip_extension].
  - rewrite Hword, andb_true_r. cbn [Ascii.eqb Bool.eqb andb].
    destruct e; [contradiction | reflexivity].
  - rewrite IH, all_word_append. cbn [all_word]. rewrite is_word_dot.
    rewrite andb_false_r, andb_false_r. reflexivity.
Qed.

Lemma strip_extension_none (filename : string) :
  all_word filename = true -> strip_extension filename = filename.
Proof.
  induction filename as [|c rest IH]; [reflexivity|].
  cbn [all_word strip_extension]. intros Hword.
  apply andb_prop in Hword as [Hc Hrest].
  destruct (Ascii.eqb_spec c ".") as [-> | Hne]; [discriminate|].
  cbn [andb]. rewrite IH by exact Hrest. reflexivity.
Qed.

(** A string that ends with a dot and letters ends with another such
    suffix only if the two suffixes are the same. *)
Lemma endsWith_extension (base e f : string) :
  all_word e = true -> all_word f = true ->
  endsWith (String.append base (String "." e)) (String "." f) = true ->
  e = f.
Proof.
  intros He Hf. induction base as [|c base IH]; append_step; cbn [endsWith].
  - cbn [String.eqb]. rewrite Ascii.eqb_refl.
    destruct (String.eqb_spec e f) as [-> | Hne]; [reflexivity|].
    cbn [orb]. intros Hends. exfalso.
    (* a proper suffix of [e] holds no dot *)
    clear Hne Hf. revert Hends He. induction e as [|x e IHe]; [discriminate|].
    cbn [endsWith all_word String.eqb]. intros Hends Hword.
    apply andb_prop in Hword as [Hx Hword].
    apply orb_prop in Hends as [Heq | Hends]; [|exact (IHe Hends Hword)].
    destruct (Ascii.eqb_spec x ".") as [-> | Hne]; [discriminate | discriminate].
  - intros Hends. apply orb_prop in Hends as [Heq | Hends]; [|exact (IH Hends)].
    apply String.eqb_eq in Heq. injection Heq as -> Heq.
    assert (Hw : all_word (String.append base (String "." e)) = true)
      by (rewrite Heq; exact Hf).
    rewrite all_word_append in Hw. cbn [all_word] in Hw.
    rewrite is_word_dot, andb_false_r in Hw. discriminate.
Qed.

(** X17. The name suggested to the file picker is the file name with its
    extension replaced by the one of the mime type (".ogg" when the mime
    type mentions "ogg", ".webm" otherwise): a name that ends with a dot
    and letters, digits or underscores gets that part replaced, a name
    made of such characters only gets the extension appended, and in
    every case the suggested name ends with the extension. *)
Theorem suggested_name_carries_the_extension (mime filename : string) :
  endsWith (suggestedName mime filename) (ext mime) = true
  /\ (forall base e : string,
        e <> EmptyString -> all_word e = true ->
        filename = String.append base (String "." e) ->
        suggestedName mime filename = String.append base (ext mime))
  /\ (all_word filename = true ->
      suggestedName mime filename = String.append filename (ext mime)).
Proof.
  split; [|split].
  - unfold suggestedName.
    destruct (endsWith filename (ext mime)) eqn:Hends;
      [exact Hends | apply endsWith_append].
  - intros base e Hne Hword ->. unfold suggestedName.
    destruct (endsWith _ (ext mime)) eqn:Hends.
    + unfold ext in *.
      destruct (includes mime "ogg").
      * apply (endsWith_extension base e "ogg" Hword eq_refl) in Hends.
        rewrite Hends. reflexivity.
      * apply (endsWith_extension base e "webm" Hword eq_refl) in Hends.
        rewrite Hends. reflexivity.
    + rewrite strip_extension_append by assumption. reflexivity.
  - intros Hword. unfold suggestedName.
    destruct (endsWith filename (ext mime)) eqn:Hends.
    + exfalso. clear -Hword Hends.
      assert (Hdot : exists f, ext mime = String "." f).
      { unfold ext. destruct (includes mime "ogg"); eexists; reflexivity. }
      destruct Hdot as [f Hf]. rewrite Hf in Hends. clear Hf.
      induction filename as [|c rest IH]; [discriminate|].
      cbn [endsWith all_word String.eqb] in *.
      apply andb_prop in Hword as [Hc Hrest].
      apply orb_prop in Hends as [Heq | Hends]; [|exact (IH Hrest Hends)].
      destruct (Ascii.eqb_spec c ".") as [-> | Hne]; discriminate.
    + rewrite strip_extension_none by exact Hword. reflexivity.
Qed.

Lemma suggested_name_carries_the_extension_witness :
  endsWith (suggestedName "audio/ogg" "take.1.wav") (ext "audio/ogg") = true
  /\ ("wav"%string <> EmptyString /\ all_word "wav" = true
      /\ "take.1.wav"%string = String.append "take.1" (String "." "wav")
      /\ suggestedName "audio/ogg" "take.1.wav"
         = String.append "take.1" (ext "audio/ogg"))
  /\ (all_word "notes" = true
      /\ suggestedName "audio/ogg" "notes" = String.append "notes" (ext "audio/ogg")).
Proof.
  split; [exact (proj1 (suggested_name_carries_the_extension _ _))|].
  split.
  - split; [discriminate|]. split; [reflexivity|]. split; [reflexivity|].
    apply (proj1 (proj2 (suggested_name_carries_the_extension
                           "audio/ogg" "take.1.wav")) "take.1"%string "wav"%string);
      [discriminate | reflexivity | reflexivity].
  - split; [reflexivity|].
    apply (proj2 (proj2 (suggested_name_carries_the_extension
                           "audio/ogg" "notes"))).
    reflexivity.
Defined.

(* --------------------------------------------------------------------- *)
(** ** The store of recordings *)

Import IndexedDB.

Lemma String_leb_iff (a b : string) :
  String.leb a b = true <-> String_as_OT.lt a b \/ a = b.
Proof.
  unfold String.leb.
  pose proof (String_as_OT.cmp_lt a b) as Hlt.
  pose proof (String_as_OT.cmp_eq a b) as Heq.
  unfold String_as_OT.cmp in Hlt, Heq.
  destruct (String.compare a b); split; try tauto; try discriminate.
  intros [H | H]; [apply Hlt in H | apply Heq in H]; discriminate.
Qed.

Lemma String_leb_trans (a b c : string) :
  String.leb a b = true -> String.leb b c = true -> String.leb a c = true.
Proof.
  rewrite !String_leb_iff. intros [Hab | ->] [Hbc | ->]; auto.
  left. exact (String_as_OT.lt_trans _ _ _ Hab Hbc).
Qed.

Lemma by_ts_spec (a b : string * IDBRecording) :
  by_ts a b <->
  ts a.2 < ts b.2 \/ (ts a.2 = ts b.2 /\ String.leb a.1 b.1 = true).
Proof.
  unfold by_ts, index_leb.
  rewrite orb_true_iff, andb_true_iff, Z.ltb_lt, Z.eqb_eq. reflexivity.
Qed.

#[local] Instance by_ts_total : Total by_ts.
Proof.
  intros a b. rewrite !by_ts_spec.
  destruct (Z.lt_trichotomy (ts a.2) (ts b.2)) as [H | [H | H]]; auto.
  destruct (String.leb_total a.1 b.1) as [Hle | Hle]; auto.
Qed.

#[local] Instance by_ts_trans : Transitive by_ts.
Proof.
  intros a b c. rewrite !by_ts_spec.
  intros [Hab | [Hab Hkab]] [Hbc | [Hbc Hkbc]]; try (left; lia).
  right. split; [lia | exact (String_leb_trans _ _ _ Hkab Hkbc)].
Qed.

Lemma by_ts_antisym (a b : string * IDBRecording) :
  by_ts a b -> by_ts b a -> a.1 = b.1.
Proof.
  rewrite !by_ts_spec. intros [Hab | [Hab Hkab]] [Hba | [Hba Hkba]]; try lia.
  exact (String.leb_antisym _ _ Hkab Hkba).
Qed.

Lemma by_ts_ts (a b : string * IDBRecording) : by_ts a b -> ts a.2 <= ts b.2.
Proof. rewrite by_ts_spec. lia. Qed.

(** The cursor over the index meets every record once, in the order of
    the index. *)
Lemma index_sorted (db : Store) :
  StronglySorted by_ts (merge_sort by_ts (map_to_list db))
  /\ merge_sort by_ts (map_to_list db) ≡ₚ map_to_list db.
Proof.
  split; [apply StronglySorted_merge_sort; apply _ | apply merge_sort_Permutation].
Qed.

Lemma getAllRecordings_Permutation (db : Store) :
  getAllRecordings db ≡ₚ (map_to_list db).*2.
Proof.
  unfold getAllRecordings. cbv zeta.
  rewrite reverse_Permutation. apply fmap_Permutation, merge_sort_Permutation.
Qed.

Lemma StronglySorted_reverse {A : Type} (R : relation A) (l : list A) :
  StronglySorted R l -> StronglySorted (flip R) (reverse l).
Proof.
  induction 1 as [|x l Hl IH Hx]; [constructor|].
  rewrite reverse_cons. apply StronglySorted_app_2.
  - intros x1 x2 Hx1 Hx2. apply list_elem_of_singleton in Hx2 as ->.
    rewrite elem_of_reverse in Hx1. rewrite Forall_forall in Hx.
    exact (Hx _ Hx1).
  - exact IH.
  - repeat constructor.
Qed.

(** X18. [getAllRecordings] returns every stored recording exactly once,
    the most recent first. *)
Theorem recordings_newest_first (db : Store) :
  let out := getAllRecordings db in
  (forall r : IDBRecording, r ∈ out <-> exists k : string, db !! k = Some r)
  /\ length out = size db
  /\ (forall (i j : nat) (r r' : IDBRecording),
        (i < j)%nat -> out !! i = Some r -> out !! j = Some r' ->
        ts r' <= ts r)
  /\ hasRecordings db = negb (bool_decide (out = [])).
Proof.
  intros out.
  pose proof (getAllRecordings_Permutation db) as Hperm. fold out in Hperm.
  assert (Hlen : length out = size db).
  { rewrite Hperm, length_fmap, length_map_to_list. reflexivity. }
  split; [|split; [exact Hlen|split]].
  - intros r. rewrite Hperm, list_elem_of_fmap. split.
    + intros [[k r'] [-> Hin]]. exists k. apply elem_of_map_to_list. exact Hin.
    + intros [k Hk]. exists (k, r). split; [reflexivity|].
      apply elem_of_map_to_list. exact Hk.
  - assert (Hsorted : StronglySorted (flip (fun r1 r2 => ts r1 <= ts r2)) out).
    { subst out. unfold getAllRecordings. cbv zeta.
      apply StronglySorted_reverse.
      apply (StronglySorted_fmap snd by_ts); [intros a b; apply by_ts_ts|].
      apply index_sorted. }
    clear -Hsorted. induction Hsorted as [|x l Hl IH Hx];
      intros i j r r' Hij Hi Hj; [discriminate|].
    destruct j as [|j]; [lia|]. cbn [lookup list_lookup] in Hj.
    destruct i as [|i].
    + injection Hi as ->. rewrite Forall_forall in Hx.
      apply (Hx r'). eapply list_elem_of_lookup_2. exact Hj.
    + apply (IH i j r r'); [lia | exact Hi | exact Hj].
  - unfold hasRecordings. rewrite <- Hlen.
    destruct out; reflexivity.
Qed.

(** X19. Creating a recording under a fresh id stores it as given, leaves
    every other recording alone, and is undone exactly by deleting it;
    under an id that is taken it is rejected with [ConstraintError] and
    the stored recording is not overwritten. *)
Theorem create_get_delete (id : string) (blobs : list Blob) (now : Z)
    (db : Store) :
  (db !! id = None ->
   exists db' : Store,
     createRecording id blobs now db = (inr id, db')
     /\ getRecording id db'
        = Some {| IndexedDB.id := id; IndexedDB.blobs := blobs; ts := now |}
     /\ (forall k : string, k <> id -> getRecording k db' = getRecording k db)
     /\ size db' = S (size db)
     /\ deleteRecording id db' = (inr tt, db))
  /\ (forall r : IDBRecording,
        db !! id = Some r ->
        createRecording id blobs now db = (inl ConstraintError, db)
        /\ getRecording id db = Some r).
Proof.
  unfold createRecording, add, getRecording, deleteRecording. cbn [IndexedDB.id].
  split.
  - intros Hfresh. rewrite Hfresh. eexists. split; [reflexivity|].
    rewrite lookup_insert_eq. split; [reflexivity|]. split; [|split].
    + intros k Hk. apply lookup_insert_ne. congruence.
    + apply map_size_insert_None. exact Hfresh.
    + rewrite delete_insert_eq, delete_id by exact Hfresh. reflexivity.
  - intros r Hr. rewrite Hr. split; reflexivity.
Qed.

Lemma create_get_delete_witness :
  let db : Store := {[ "a"%string := {| id := "a"; blobs := [[x01]]; ts := 5 |} ]} in
  (db !! "b"%string = None
   /\ exists db' : Store,
        createRecording "b" [] 7 db = (inr "b"%string, db')
        /\ getRecording "b" db'
           = Some {| IndexedDB.id := "b"; IndexedDB.blobs := []; ts := 7 |}
        /\ (forall k : string, k <> "b"%string -> getRecording k db' = getRecording k db)
        /\ size db' = S (size db)
        /\ deleteRecording "b" db' = (inr tt, db))
  /\ (db !! "a"%string = Some {| id := "a"; blobs := [[x01]]; ts := 5 |}
      /\ createRecording "a" [] 7 db = (inl ConstraintError, db)
      /\ getRecording "a" db = Some {| id := "a"; blobs := [[x01]]; ts := 5 |}).
Proof.
  intros db. split.
  - split; [reflexivity|].
    apply (proj1 (create_get_delete "b" [] 7 db)). reflexivity.
  - split; [reflexivity|].
    apply (proj2 (create_get_delete "a" [] 7 db)). reflexivity.
Defined.

Lemma addChunksToRecording_found (recordingId : string) (blobs : list Blob)
    (db : Store) (existing : IDBRecording) :
  db !! recordingId = Some existing -> id existing = recordingId ->
  addChunksToRecording recordingId blobs db
  = (inr tt,
     <[recordingId := {| id := recordingId;
                         IndexedDB.blobs := IndexedDB.blobs existing ++ blobs;
                         ts := ts existing |}]> db).
Proof.
  intros Hfound Hid. unfold addChunksToRecording, put. rewrite Hfound.
  cbn [id]. rewrite Hid. reflexivity.
Qed.

(** X20. [addChunksToRecording] appends: the chunks given in successive
    calls end up in the recording after the ones it held, in the order
    of the calls, as if they had been given in one call; the time stamp
    and the other recordings are untouched. For an id that is not
    stored the call is rejected with "Recording with id ... not found"
    and stores nothing. *)
Theorem chunks_accumulate (recordingId : string) (blobs1 blobs2 : list Blob)
    (db : Store) :
  keyed db ->
  match db !! recordingId with
  | Some existing =>
      exists db1 db2 : Store,
        addChunksToRecording recordingId blobs1 db = (inr tt, db1)
        /\ addChunksToRecording recordingId blobs2 db1 = (inr tt, db2)
        /\ addChunksToRecording recordingId (blobs1 ++ blobs2) db = (inr tt, db2)
        /\ getRecording recordingId db2
           = Some {| id := recordingId;
                     IndexedDB.blobs :=
                       IndexedDB.blobs existing ++ blobs1 ++ blobs2;
                     ts := ts existing |}
        /\ (forall k : string,
              k <> recordingId -> getRecording k db2 = getRecording k db)
        /\ keyed db2
  | None =>
      addChunksToRecording recordingId blobs1 db
      = (inl {| message := String.append "Recording with id "
                                (String.append recordingId " not found") |},
         db)
  end.
Proof.
  intros Hkeyed.
  destruct (db !! recordingId) as [existing|] eqn:Hfound;
    [|unfold addChunksToRecording; rewrite Hfound; reflexivity].
  pose proof (Hkeyed _ _ Hfound) as Hid.
  rewrite !(addChunksToRecording_found _ _ db existing Hfound Hid).
  eexists. eexists. split; [reflexivity|]. split.
  { set (existing1 := {| id := recordingId;
                         IndexedDB.blobs := IndexedDB.blobs existing ++ blobs1;
                         ts := ts existing |}).
    rewrite (addChunksToRecording_found recordingId blobs2
               (<[recordingId := existing1]> db) existing1
               (lookup_insert_eq _ _ _) eq_refl).
    subst existing1. cbn [IndexedDB.blobs ts].
    rewrite insert_insert_eq, <- app_assoc. reflexivity. }
  split; [reflexivity|]. unfold getRecording. rewrite lookup_insert_eq.
  split; [reflexivity|]. split.
  - intros k Hk. apply lookup_insert_ne. congruence.
  - intros k r. rewrite lookup_insert_Some.
    intros [[<- <-] | [_ Hr]]; [reflexivity | exact (Hkeyed _ _ Hr)].
Qed.

Lemma chunks_accumulate_witness :
  let db : Store := {[ "a"%string := {| id := "a"; blobs := [[x01]]; ts := 5 |} ]} in
  keyed db
  /\ exists db1 db2 : Store,
       addChunksToRecording "a" [[x02]] db = (inr tt, db1)
       /\ addChunksToRecording "a" [[x03]; [x04]] db1 = (inr tt, db2)
       /\ addChunksToRecording "a" ([[x02]] ++ [[x03]; [x04]]) db = (inr tt, db2)
       /\ getRecording "a" db2
          = Some {| id := "a";
                    IndexedDB.blobs := [[x01]] ++ [[x02]] ++ [[x03]; [x04]];
                    ts := 5 |}
       /\ (forall k : string, k <> "a"%string -> getRecording k db2 = getRecording k db)
       /\ keyed db2.
Proof.
  intros db.
  assert (Hkeyed : keyed db).
  { intros k r Hr. apply lookup_singleton_Some in Hr as [<- <-]. reflexivity. }
  split; [exact Hkeyed|].
  exact (chunks_accumulate "a" [[x02]] [[x03]; [x04]] db Hkeyed).
Defined.

Import UseRecordings.

Lemma filter_reverse {A : Type} (P : A -> Prop) `{!forall x, Decision (P x)}
    (l : list A) :
  filter P (reverse l) = reverse (filter P l).
Proof.
  induction l as [|x l IH]; [reflexivity|].
  rewrite reverse_cons, filter_app, IH.
  destruct (decide (P x)) as [Hx | Hx].
  - rewrite (filter_cons_True P x l Hx), (filter_cons_True P x [] Hx).
    rewrite reverse_cons. reflexivity.
  - rewrite (filter_cons_False P x l Hx), (filter_cons_False P x [] Hx).
    apply app_nil_r.
Qed.

Lemma filter_snd {A B : Type} (P : B -> Prop) `{!forall x, Decision (P x)}
    (l : list (A * B)) :
  filter P (map snd l) = map snd (filter (fun p => P p.2) l).
Proof.
  induction l as [|[a b] l IH]; [reflexivity|].
  cbn [map]. rewrite !filter_cons. cbn [snd].
  destruct (decide (P b)); cbn [map]; rewrite IH; reflexivity.
Qed.

Lemma StronglySorted_filter {A : Type} (R : relation A) (P : A -> Prop)
    `{!forall x, Decision (P x)} (l : list A) :
  StronglySorted R l -> StronglySorted R (filter P l).
Proof.
  induction 1 as [|x l Hl IH Hx]; [constructor|].
  rewrite filter_cons. destruct (decide (P x)); [|exact IH].
  constructor; [exact IH|].
  apply Forall_forall. intros y Hy. apply list_elem_of_filter in Hy as [_ Hy].
  rewrite Forall_forall in Hx. exact (Hx y Hy).
Qed.

(** Deleting a record takes it out of what the cursor meets and moves
    nothing else. *)
Lemma index_delete (id : string) (db : Store) :
  keyed db ->
  filter (fun p : string * IDBRecording => IndexedDB.id p.2 <> id)
    (merge_sort by_ts (map_to_list db))
  = merge_sort by_ts (map_to_list (delete id db)).
Proof.
  intros Hkeyed.
  destruct (index_sorted db) as [Hs Hp].
  destruct (index_sorted (delete id db)) as [Hs' Hp'].
  apply (StronglySorted_unique_strong by_ts).
  - intros [k1 r1] [k2 r2] H1 H2 H12 H21.
    pose proof (by_ts_antisym _ _ H12 H21) as Hk. cbn [fst] in Hk. subst k2.
    rewrite Hp' in H2. apply elem_of_map_to_list in H2.
    apply lookup_delete_Some in H2 as [_ H2].
    apply list_elem_of_filter in H1 as [_ H1].
    rewrite Hp in H1. apply elem_of_map_to_list in H1.
    congruence.
  - apply StronglySorted_filter. exact Hs.
  - exact Hs'.
  - rewrite Hp, Hp'. apply NoDup_Permutation.
    + apply NoDup_filter, NoDup_map_to_list.
    + apply NoDup_map_to_list.
    + intros [k r]. rewrite list_elem_of_filter, !elem_of_map_to_list.
      rewrite lookup_delete_Some. cbn [snd]. split.
      * intros [Hne Hr]. rewrite (Hkeyed _ _ Hr) in Hne. auto.
      * intros [Hne Hr]. rewrite (Hkeyed _ _ Hr). auto.
Qed.

(** X21. After [removeRecording] has deleted a recording, the list that
    the hook holds is the list that [getAllRecordings] would return: the
    screen stays in step with the store without a reload. When the
    recording is not in the store the hook keeps its list, records the
    message "Recording with id ... not found" and re-throws. *)
Theorem removeRecording_in_step (id : string) (h : Hook) (db : Store) :
  keyed db -> recordings h = getAllRecordings db ->
  match db !! id with
  | Some _ =>
      exists h' : Hook,
        removeRecording id h db = (None, h', delete id db)
        /\ recordings h' = getAllRecordings (delete id db)
        /\ error h' = error h
        /\ keyed (delete id db)
  | None =>
      removeRecording id h db
      = (Some (not_found id),
         {| recordings := recordings h; loading := loading h;
            error := Some (String.append "Recording with id "
                             (String.append id " not found")) |},
         db)
  end.
Proof.
  intros Hkeyed Hlist. unfold removeRecording, deleteRecording.
  destruct (db !! id) as [existing|] eqn:Hfound; [|reflexivity].
  eexists. split; [reflexivity|]. cbn [recordings error].
  split; [|split; [reflexivity|]].
  - rewrite Hlist. unfold getAllRecordings. cbv zeta.
    rewrite filter_reverse, filter_snd, (index_delete id db Hkeyed).
    reflexivity.
  - intros k r Hr. apply lookup_delete_Some in Hr as [_ Hr].
    exact (Hkeyed _ _ Hr).
Qed.

Lemma removeRecording_in_step_witness :
  let a := {| id := "a"; blobs := [[x01]]; ts := 5 |} in
  let b := {| id := "b"; blobs := []; ts := 9 |} in
  let db : Store := <["b"%string := b]> {[ "a"%string := a ]} in
  let h := fetchRecordings db
             {| recordings := []; loading := true; error := None |} in
  keyed db /\ recordings h = getAllRecordings db
  /\ exists h' : Hook,
       removeRecording "b" h db = (None, h', delete "b"%string db)
       /\ recordings h' = getAllRecordings (delete "b"%string db)
       /\ error h' = error h
       /\ keyed (delete "b"%string db).
Proof.
  intros a b db h.
  assert (Hkeyed : keyed db).
  { intros k r Hr. apply lookup_insert_Some in Hr as [[<- <-] | [_ Hr]];
      [reflexivity|].
    apply lookup_singleton_Some in Hr as [<- <-]. reflexivity. }
  split; [exact Hkeyed|]. split; [reflexivity|].
  exact (removeRecording_in_step "b" h db Hkeyed eq_refl).
Defined.

(* --------------------------------------------------------------------- *)
(** ** The recording kept in the store *)

Import AppRecording.

Lemma kept_snoc (chunks : list Blob) (data : Blob) :
  kept (chunks ++ [data])
  = kept chunks ++ (if (0 <? length data)%nat then [data] else []).
Proof.
  unfold kept. rewrite filter_app. f_equal.
  destruct data as [|x data]; reflexivity.
Qed.

(** While a recording runs, the chunks in the store followed by the
    chunks in the buffer are the chunks received so far, and the buffer
    stays below the flush limit. *)
Lemma record_invariant (uuid : string) (now : Z) (chunks : list Blob) :
  forall (st : State) (db : Store) (saved : list Blob),
  recordingId st = uuid ->
  db !! uuid = Some {| id := uuid; blobs := saved; ts := now |} ->
  (length (recordingBuffer st) < BUFFER_FLUSH_LIMIT)%nat ->
  let '(st', db') := record chunks st db in
  exists saved' : list Blob,
    recordingId st' = uuid
    /\ isRecording st' = isRecording st
    /\ db' !! uuid = Some {| id := uuid; blobs := saved'; ts := now |}
    /\ (forall k : string, k <> uuid -> db' !! k = db !! k)
    /\ (length (recordingBuffer st') < BUFFER_FLUSH_LIMIT)%nat
    /\ saved' ++ recordingBuffer st'
       = saved ++ recordingBuffer st ++ kept chunks.
Proof.
  induction chunks as [|data chunks IH] using rev_ind;
    intros st db saved Hid Hdb Hlen.
  - cbn. exists saved. rewrite app_nil_r. repeat split; auto.
  - unfold record in *. rewrite fold_left_app. cbn [fold_left].
    specialize (IH st db saved Hid Hdb Hlen).
    destruct (fold_left _ chunks (st, db)) as [st1 db1].
    destruct IH as (saved1 & Hid1 & Hrec1 & Hdb1 & Hother1 & Hlen1 & Hall1).
    cbn [fst snd]. rewrite kept_snoc. unfold ondataavailable.
    destruct (0 <? length data)%nat.
    + destruct (BUFFER_FLUSH_LIMIT <=? length (recordingBuffer st1 ++ [data]))%nat
        eqn:Hfull.
      * rewrite Hid1.
        rewrite (addChunksToRecording_found uuid _ db1 _ Hdb1 eq_refl).
        cbn [blobs ts].
        exists (saved1 ++ recordingBuffer st1 ++ [data]).
        cbn [recordingId isRecording recordingBuffer].
        rewrite lookup_insert_eq, app_nil_r.
        repeat split; auto.
        -- intros k Hk. rewrite lookup_insert_ne by congruence.
           apply Hother1. exact Hk.
        -- unfold BUFFER_FLUSH_LIMIT. cbn [length]. lia.
        -- rewrite (app_assoc saved1), Hall1, <- !app_assoc. reflexivity.
      * apply Nat.leb_gt in Hfull.
        exists saved1. cbn [recordingId isRecording recordingBuffer].
        repeat split; auto.
        rewrite (app_assoc saved1), Hall1, <- !app_assoc. reflexivity.
    + exists saved1. rewrite !app_nil_r. repeat split; auto.
Qed.

(** X22. A recording loses no chunk. From [onstart] with a fresh id, over
    the [dataavailable] events of the recording, to [onstop]: the store
    then holds, under that id, the chunks received that were not empty,
    in the order in which they came, nothing is left in the buffer, the
    other recordings are as they were, and after the events the buffer
    held fewer than ten chunks. *)
Theorem recording_keeps_every_chunk (uuid : string) (now : Z)
    (chunks : list Blob) (st : State) (db : Store) :
  db !! uuid = None -> recordingBuffer st = [] ->
  let '(st1, db1) := onstart uuid now st db in
  let '(st2, db2) := record chunks st1 db1 in
  let '(st3, db3) := onstop st2 db2 in
  getRecording uuid db3
  = Some {| id := uuid; blobs := kept chunks; ts := now |}
  /\ recordingBuffer st3 = []
  /\ isRecording st3 = false
  /\ (forall k : string, k <> uuid -> getRecording k db3 = getRecording k db)
  /\ (length (recordingBuffer st2) < BUFFER_FLUSH_LIMIT)%nat.
Proof.
  intros Hfresh Hbuffer.
  unfold onstart, createRecording, add. cbn [id recordingId]. rewrite Hfresh.
  match goal with
  | |- context [record chunks ?s ?d] =>
      pose proof (record_invariant uuid now chunks s d [] eq_refl
                    (lookup_insert_eq _ _ _)) as Hinv
  end.
  cbn [triggerRefresh recordingBuffer] in Hinv. rewrite Hbuffer in Hinv.
  specialize (Hinv ltac:(unfold BUFFER_FLUSH_LIMIT; cbn; lia)).
  cbn [triggerRefresh]. rewrite Hbuffer.
  destruct (record chunks _ _) as [st2 db2].
  destruct Hinv as (saved & Hid & _ & Hdb2 & Hother & Hlen & Hall).
  cbn [app] in Hall. unfold onstop, getRecording.
  destruct (0 <? length (recordingBuffer st2))%nat eqn:Hrest.
  - rewrite Hid, (addChunksToRecording_found uuid _ db2 _ Hdb2 eq_refl).
    cbn [blobs ts triggerRefresh recordingBuffer isRecording].
    rewrite lookup_insert_eq, Hall. repeat split; auto.
    intros k Hk. rewrite lookup_insert_ne by congruence.
    rewrite (Hother k Hk). apply lookup_insert_ne. congruence.
  - apply Nat.ltb_ge in Hrest.
    assert (Hempty : recordingBuffer st2 = [])
      by (destruct (recordingBuffer st2); [reflexivity | cbn in Hrest; lia]).
    cbn [recordingBuffer isRecording]. rewrite Hempty in Hall |- *.
    rewrite app_nil_r in Hall. rewrite Hdb2, Hall. repeat split; auto;
      [|unfold BUFFER_FLUSH_LIMIT; cbn [length]; lia].
    intros k Hk. rewrite (Hother k Hk). apply lookup_insert_ne. congruence.
Qed.

Lemma recording_keeps_every_chunk_witness :
  let st := {| recordingBuffer := []; recordingId := EmptyString;
               isRecording := false; refreshTrigger := 0 |} in
  let chunks := [[x01]; []; [x02; x03]; [x04]] ++ replicate 9 [x05] in
  (∅ : Store) !! "id-1"%string = None /\ recordingBuffer st = []
  /\ let '(st1, db1) := onstart "id-1" 42 st ∅ in
     let '(st2, db2) := record chunks st1 db1 in
     let '(st3, db3) := onstop st2 db2 in
     getRecording "id-1" db3
     = Some {| id := "id-1"; blobs := kept chunks; ts := 42 |}
     /\ recordingBuffer st3 = []
     /\ isRecording st3 = false
     /\ (forall k : string,
           k <> "id-1"%string -> getRecording k db3 = getRecording k ∅)
     /\ (length (recordingBuffer st2) < BUFFER_FLUSH_LIMIT)%nat.
Proof.
  intros st chunks. split; [reflexivity|]. split; [reflexivity|].
  exact (recording_keeps_every_chunk "id-1" 42 chunks st ∅ eq_refl eq_refl).
Defined.
